(** * STREL to alternating automaton: a shallow embedding of
      [automatix/afa/strel.py] and the properties of its compiler, its
      reach-path enumerator and its trace runner. *)

From Stdlib Require Import List ZArith String Ascii Bool Lia Arith PeanoNat.
From Stdlib Require Decimal DecimalString.
Import ListNotations.

Set Implicit Arguments.

(** ** Python exceptions and results *)

(** The exceptions that the embedded code can raise.  [RecursionLimit] is the
    interpreter giving up on a call chain that is deeper than the fuel it was
    given. *)
Inductive PyExc : Type :=
| NotImplementedError (msg : option string)
| AssertionError (msg : option string)
| KeyError
| StopIteration
| NetworkXError
| TypeError
| EvalError
| RecursionLimit.

Inductive result (A : Type) : Type :=
| Ok (a : A)
| Raise (e : PyExc).

Arguments Ok {A} a.
Arguments Raise {A} e.

Definition bind {A B : Type} (r : result A) (k : A -> result B) : result B :=
  match r with
  | Ok a => k a
  | Raise e => Raise e
  end.

Notation "x <- e ;; k" := (bind e (fun x => k))
  (at level 61, e at next level, right associativity).

Fixpoint mapM {A B : Type} (f : A -> result B) (l : list A) : result (list B) :=
  match l with
  | [] => Ok []
  | a :: l' => b <- f a ;; bs <- mapM f l' ;; Ok (b :: bs)
  end.

Fixpoint foldM {A B : Type} (f : A -> B -> result A) (l : list B) (a : A) : result A :=
  match l with
  | [] => Ok a
  | b :: l' => a' <- f a b ;; foldM f l' a'
  end.

(** ** Python dictionaries, in insertion order *)

Section Dict.
Variables K V : Type.
Variable K_dec : forall x y : K, {x = y} + {x <> y}.

Definition dict := list (K * V).

Fixpoint dict_get (k : K) (d : dict) : option V :=
  match d with
  | [] => None
  | (k', v) :: d' => if K_dec k k' then Some v else dict_get k d'
  end.

Definition dict_mem (k : K) (d : dict) : bool :=
  match dict_get k d with Some _ => true | None => false end.

Definition dict_keys (d : dict) : list K := map fst d.
Definition dict_values (d : dict) : list V := map snd d.

(** [d.setdefault(k, v)] *)
Definition setdefault (k : K) (v : V) (d : dict) : dict :=
  if dict_mem k d then d else d ++ [(k, v)].

(** [d[k] = v] *)
Fixpoint dict_set (k : K) (v : V) (d : dict) : dict :=
  match d with
  | [] => [(k, v)]
  | (k', v') :: d' => if K_dec k k' then (k, v) :: d' else (k', v') :: dict_set k v d'
  end.

(** [d.popitem()]: removes the entry inserted last. *)
Definition popitem (d : dict) : option dict :=
  match d with
  | [] => None
  | _ => Some (removelast d)
  end.

Lemma dict_mem_In k d : dict_mem k d = true <-> In k (dict_keys d).
Proof.
  unfold dict_mem. induction d as [|[k' v] d IH]; simpl.
  - split; [discriminate | tauto].
  - destruct (K_dec k k') as [->|Hne].
    + split; auto.
    + rewrite IH. split; [auto | intros [H|H]; [congruence | exact H]].
Qed.

Lemma setdefault_keys k v d :
  dict_keys (setdefault k v d) =
  if dict_mem k d then dict_keys d else dict_keys d ++ [k].
Proof.
  unfold setdefault. destruct (dict_mem k d); [reflexivity|].
  unfold dict_keys. now rewrite map_app.
Qed.

Lemma dict_get_app k d d' :
  dict_get k (d ++ d') =
  match dict_get k d with Some v => Some v | None => dict_get k d' end.
Proof.
  induction d as [|[k' v] d IH]; simpl; [reflexivity|].
  destruct (K_dec k k'); [reflexivity | exact IH].
Qed.

Lemma setdefault_get k v d k' :
  dict_get k' (setdefault k v d) =
  match dict_get k' d with
  | Some x => Some x
  | None => if K_dec k' k then Some v else None
  end.
Proof.
  unfold setdefault, dict_mem.
  destruct (dict_get k d) eqn:E.
  - destruct (dict_get k' d) eqn:E'; [reflexivity|].
    destruct (K_dec k' k); [congruence | reflexivity].
  - rewrite dict_get_app. destruct (dict_get k' d); [reflexivity|].
    simpl. destruct (K_dec k' k); reflexivity.
Qed.
End Dict.

Arguments dict_get {K V} K_dec k d.
Arguments dict_mem {K V} K_dec k d.
Arguments dict_keys {K V} d.
Arguments dict_values {K V} d.
Arguments setdefault {K V} K_dec k v d.
Arguments dict_set {K V} K_dec k v d.
Arguments popitem {K V} d.

(** ** Python ranges *)

Definition Location := nat.

(** [range(n)] over locations. *)
Definition py_range (n : Z) : list Location := seq 0 (Z.to_nat n).

(** [range(start, stop, -1)]: start, start-1, ..., stop+1. *)
Definition py_range_down (start stop : Z) : list Z :=
  map (fun k => (start - Z.of_nat k)%Z) (seq 0 (Z.to_nat (start - stop))).

(** [str(n)] for a non-negative int. *)
Definition py_str_nat (n : nat) : string := DecimalString.NilEmpty.string_of_uint (Nat.to_uint n).

(** [str((s, loc))]: the tuple is printed with the repr of its components;
    formula keys are printed between single quotes. *)
Definition py_str_tuple (s : string) (loc : Location) : string :=
  ("('" ++ s ++ "', " ++ py_str_nat loc ++ ")")%string.

(** ** Distances *)

(** Edge distances and spatial bounds are Python floats.  The code only adds
    and compares them and uses the constants [0.0], [1.0] and [math.inf]; the
    embedding is over any carrier with these operations. *)
Class Distance (W : Type) : Type := {
  W_eq_dec : forall x y : W, {x = y} + {x <> y};
  wadd : W -> W -> W;
  wleb : W -> W -> bool;
  w0 : W;
  w1 : W;
  winf : W
}.

(** The order laws that distances obey: [<=] is transitive and antisymmetric,
    and adding a non-negative distance never decreases a length. *)
Class DistanceLaws (W : Type) (D : Distance W) : Prop := {
  wleb_trans : forall x y z : W, wleb x y = true -> wleb y z = true -> wleb x z = true;
  wleb_antisym : forall x y : W, wleb x y = true -> wleb y x = true -> x = y;
  wadd_mono : forall x w : W, wleb w0 w = true -> wleb x (wadd x w) = true
}.

Section Strel.
Context {W : Type} {D : Distance W}.

(** [x or default] on an optional float: [None] and [0.0] are falsy. *)
Definition py_or (x : option W) (default : W) : W :=
  match x with
  | Some v => if W_eq_dec v w0 then default else v
  | None => default
  end.

(** ** The formula tree *)

(** Modelled from the spec: the interval record of [automatix.logic.strel]
    (the module is not under src/), with optional integer bounds. *)
Record TimeInterval : Type := { t_start : option Z; t_end : option Z }.

(** Modelled from the spec: the interval of the spatial operators of
    [automatix.logic.strel], with optional real bounds. *)
Record DistanceInterval : Type := { d_start : option W; d_end : option W }.

(** Modelled from the spec: the expression variants of
    [automatix.logic.strel] (section 3 of the specification).  [NextOp] keeps
    the optional [steps] that [_expand_add_next] tests against [None]. *)
Inductive Expr : Type :=
| Constant (value : bool)
| Identifier (name : string)
| NotOp (arg : Expr)
| AndOp (lhs rhs : Expr)
| OrOp (lhs rhs : Expr)
| NextOp (steps : option Z) (arg : Expr)
| EventuallyOp (interval : option TimeInterval) (arg : Expr)
| GloballyOp (interval : option TimeInterval) (arg : Expr)
| UntilOp (lhs : Expr) (interval : option TimeInterval) (rhs : Expr)
| SomewhereOp (interval : DistanceInterval) (arg : Expr)
| EverywhereOp (interval : DistanceInterval) (arg : Expr)
| ReachOp (lhs : Expr) (interval : DistanceInterval) (rhs : Expr)
| EscapeOp (interval : DistanceInterval) (arg : Expr).

(** Modelled from the spec: [~phi] of [automatix.logic.strel] builds the
    negation node. *)
Definition invert (phi : Expr) : Expr := NotOp phi.

(** [strel.true] *)
Definition strel_true : Expr := Constant true.

Definition option_Z_dec (x y : option Z) : {x = y} + {x <> y}.
Proof. decide equality. apply Z.eq_dec. Defined.

Definition option_W_dec (x y : option W) : {x = y} + {x <> y}.
Proof. decide equality. apply W_eq_dec. Defined.

Definition TimeInterval_dec (x y : TimeInterval) : {x = y} + {x <> y}.
Proof. decide equality; apply option_Z_dec. Defined.

Definition DistanceInterval_dec (x y : DistanceInterval) : {x = y} + {x <> y}.
Proof. decide equality; apply option_W_dec. Defined.

Definition option_TimeInterval_dec (x y : option TimeInterval) : {x = y} + {x <> y}.
Proof. decide equality. apply TimeInterval_dec. Defined.

(** Structural equality of formulas ([==] on the dataclasses). *)
Definition Expr_dec (x y : Expr) : {x = y} + {x <> y}.
Proof.
  decide equality;
    first [ apply Bool.bool_dec | apply string_dec | apply option_Z_dec
          | apply option_TimeInterval_dec | apply DistanceInterval_dec ].
Defined.

(** An automaton state: a subformula and an ego location. *)
Definition Q : Type := (Expr * Location)%type.

Definition Q_dec (x y : Q) : {x = y} + {x <> y}.
Proof. decide equality; [apply Nat.eq_dec | apply Expr_dec]. Defined.

(** Modelled from the spec: the canonical string key [str(phi)] of a formula;
    the printer lives in [automatix.logic.strel]. *)
Variable Expr_str : Expr -> string.

(** [_make_q_str] *)
Definition _make_q_str (state : Q) : string :=
  let '(phi, loc) := state in py_str_tuple (Expr_str phi) loc.

(** ** Polynomials *)

(** Modelled from the spec: the polynomials of the Boolean manager
    ([automatix.algebra], section 6 of the specification), as the terms built
    by its operations. *)
Inductive Poly : Type :=
| PTop
| PBot
| PConst (k : bool)
| PVar (name : string)
| PAdd (p q : Poly)
| PMul (p q : Poly)
| PNeg (p : Poly).

(** ** The transition table *)

(** The functions stored in [Transitions.transitions]: each constructor is one
    of the lambdas (or the [check_reach] partial) that the visitor installs,
    with the values it captures. *)
Inductive Closure : Type :=
| LamIdentifier (phi : Expr)
  (* lambda loc, alph: self._transitions(alph, (phi, loc)) *)
| LamNot (arg : Expr)
  (* lambda loc, alph: self._transitions(alph, (arg, loc)).negate() *)
| LamAnd (lhs rhs : Expr)
| LamOr (lhs rhs : Expr)
| LamVar (sub_expr : Expr)
  (* lambda loc, _: self._get_var((sub_expr, loc)) *)
| LamEventually (arg sub_expr : Expr)
  (* lambda loc, alph: self._transitions(alph, (arg, loc)) + self._get_var((sub_expr, loc)) *)
| LamUntil (lhs rhs phi : Expr)
  (* rhs + lhs * var(phi) *)
| LamReach (lhs rhs : Expr) (d1 d2 : W) (dist_attr : string).
  (* partial(check_reach, d1=d1, d2=d2, dist_attr=self.dist_attr) *)

(** [partial(transition, loc)] *)
Definition Partial : Type := (Closure * Location)%type.

(** [Transitions]: [manager] records the names passed to [declare], in call
    order; the three dictionaries keep their insertion order. *)
Record Transitions : Type := {
  manager : list string;
  transitions : dict Q Partial;
  const_mapping : dict Q Poly;
  aliases : dict Expr Expr
}.

(** [_ExprMapper]: [expr_var_map], [transitions] and [manager] of the Python
    object are the very dictionaries of [_transitions]. *)
Record ExprMapper : Type := {
  max_locs : Z;
  dist_attr : string;
  _transitions : Transitions;
  var_node_map : dict string Q
}.

Definition expr_var_map (m : ExprMapper) : dict Q Poly := const_mapping (_transitions m).

(** [_ExprMapper.__init__] *)
Definition ExprMapper_init (max_locs : Z) (dist_attr : option string) : result ExprMapper :=
  if (0 <? max_locs)%Z then
    Ok {| max_locs := max_locs;
          dist_attr := match dist_attr with
                       | Some s => if string_dec s EmptyString then "weight"%string else s
                       | None => "weight"%string
                       end;
          _transitions := {| manager := []; transitions := []; const_mapping := []; aliases := [] |};
          var_node_map := [] |}
  else Raise (AssertionError (Some "STREL graphs should have at least 1 location"%string)).

(** One round of the loop of [_add_expr_alias]. *)
Definition add_expr_alias_at (phi alias : Expr) (m : ExprMapper) (loc : Location) : ExprMapper :=
  let t := _transitions m in
  {| max_locs := max_locs m;
     dist_attr := dist_attr m;
     _transitions := {| manager := manager t;
                        transitions := transitions t;
                        const_mapping := const_mapping t;
                        aliases := setdefault Expr_dec phi alias (aliases t) |};
     var_node_map := setdefault string_dec (py_str_tuple (Expr_str phi) loc) (phi, loc)
                                (var_node_map m) |}.

Definition _add_expr_alias (phi alias : Expr) (m : ExprMapper) : ExprMapper :=
  fold_left (add_expr_alias_at phi alias) (py_range (max_locs m)) m.

(** One round of the loop of [_add_transition]; the argument
    [self.manager.declare(...)] of [setdefault] is evaluated in every round. *)
Definition add_transition_at (phi : Expr) (transition : Closure) (m : ExprMapper)
    (loc : Location) : ExprMapper :=
  let t := _transitions m in
  let name := py_str_tuple (Expr_str phi) loc in
  {| max_locs := max_locs m;
     dist_attr := dist_attr m;
     _transitions := {| manager := manager t ++ [name];
                        transitions := setdefault Q_dec (phi, loc) (transition, loc) (transitions t);
                        const_mapping := setdefault Q_dec (phi, loc) (PVar name) (const_mapping t);
                        aliases := aliases t |};
     var_node_map := setdefault string_dec name (phi, loc) (var_node_map m) |}.

Definition _add_transition (phi : Expr) (transition : Closure) (m : ExprMapper) : ExprMapper :=
  fold_left (add_transition_at phi transition) (py_range (max_locs m)) m.

(** ** The visitor *)

(** [str(phi) == key] for a key of [expr_var_map]: the keys are
    [(Expr, Location)] tuples, and a Python [str] is never equal to a tuple. *)
Definition py_str_eq_tuple (s : string) (key : Q) : bool := false.

(** [str(phi) in self.expr_var_map.keys()] *)
Definition str_in_keys (s : string) (d : dict Q Poly) : bool :=
  existsb (py_str_eq_tuple s) (dict_keys d).

Section Expand.
(** [self.visit], as the expansions call it back. *)
Variable visit : Expr -> ExprMapper -> result ExprMapper.

Definition _expand_add_next (steps : option Z) (arg : Expr) (m : ExprMapper) : ExprMapper :=
  let steps := match steps with None => 1%Z | Some s => s end in
  let m :=
    fold_left
      (fun m i => _add_transition (NextOp (Some i) arg) (LamVar (NextOp (Some (i - 1)%Z) arg)) m)
      (py_range_down steps 1) m in
  _add_transition (NextOp (Some 1%Z) arg) (LamVar arg) m.

Definition _expand_add_eventually (interval : option TimeInterval) (arg : Expr)
    (m : ExprMapper) : result ExprMapper :=
  let phi := EventuallyOp interval arg in
  let untimed := Ok (_add_transition phi (LamEventually arg phi) m) in
  let bounded (t2 : Z) :=
    (* the first of the two loops only rebinds [expr] *)
    Ok (fold_left
          (fun m i =>
             let expr := EventuallyOp (Some {| t_start := Some 0%Z; t_end := Some i |}) arg in
             let sub_expr :=
               if (1 <? i)%Z
               then EventuallyOp (Some {| t_start := Some 0%Z; t_end := Some (i - 1)%Z |}) arg
               else arg in
             _add_transition expr (LamEventually arg sub_expr) m)
          (py_range_down t2 0) m) in
  match interval with
  | None => untimed
  | Some {| t_start := s; t_end := e |} =>
    match s, e with
    | None, None => untimed
    | Some 0%Z, None => untimed
    | None, Some t2 => bounded t2
    | Some 0%Z, Some t2 => bounded t2
    | Some t1, None =>
      let expr := NextOp (Some t1) (EventuallyOp None arg) in
      m <- visit expr m ;;
      Ok (_add_expr_alias phi expr m)
    | Some t1, Some t2 =>
      let expr :=
        NextOp (Some t1)
               (EventuallyOp (Some {| t_start := Some 0%Z; t_end := Some (t2 - t1)%Z |}) arg) in
      m <- visit expr m ;;
      Ok (_add_expr_alias phi expr m)
    end
  end.

Definition _expand_add_globally (interval : option TimeInterval) (arg : Expr)
    (m : ExprMapper) : result ExprMapper :=
  let phi := GloballyOp interval arg in
  let expr := invert (EventuallyOp interval (invert arg)) in
  m <- visit expr m ;;
  Ok (_add_expr_alias phi expr m).

Definition _expand_add_until (lhs : Expr) (interval : option TimeInterval) (rhs : Expr)
    (m : ExprMapper) : result ExprMapper :=
  let phi := UntilOp lhs interval rhs in
  let untimed := Ok (_add_transition phi (LamUntil lhs rhs phi) m) in
  match interval with
  | None => untimed
  | Some {| t_start := s; t_end := e |} =>
    match s, e with
    | Some 0%Z, None => untimed
    | None, None => untimed
    | Some t1, None =>
      let expr :=
        invert (EventuallyOp (Some {| t_start := Some 0%Z; t_end := Some t1 |})
                             (invert (UntilOp lhs None rhs))) in
      m <- visit expr m ;;
      Ok (_add_expr_alias phi expr m)
    | Some t1, Some _ =>
      let expr :=
        AndOp (EventuallyOp interval rhs)
              (UntilOp lhs (Some {| t_start := Some t1; t_end := None |}) rhs) in
      m <- visit expr m ;;
      Ok (_add_expr_alias phi expr m)
    | None, Some _ => Ok m (* no case of the match statement applies *)
    end
  end.

Definition _expand_add_reach (lhs : Expr) (interval : DistanceInterval) (rhs : Expr)
    (m : ExprMapper) : ExprMapper :=
  let phi := ReachOp lhs interval rhs in
  let d1 := py_or (d_start interval) w0 in
  let d2 := py_or (d_end interval) winf in
  _add_transition phi (LamReach lhs rhs d1 d2 (dist_attr m)) m.

Definition _expand_add_somewhere (interval : DistanceInterval) (arg : Expr)
    (m : ExprMapper) : result ExprMapper :=
  let phi := SomewhereOp interval arg in
  let expr := ReachOp strel_true interval arg in
  m <- visit expr m ;;
  Ok (_add_expr_alias phi expr m).

Definition _expand_add_everywhere (interval : DistanceInterval) (arg : Expr)
    (m : ExprMapper) : result ExprMapper :=
  let phi := EverywhereOp interval arg in
  let expr := invert (SomewhereOp interval (invert arg)) in
  m <- visit expr m ;;
  Ok (_add_expr_alias phi expr m).

End Expand.

(** [_ExprMapper.visit]; [fuel] bounds the depth of the recursion. *)
Fixpoint visit (fuel : nat) (phi : Expr) (m : ExprMapper) {struct fuel} : result ExprMapper :=
  match fuel with
  | O => Raise RecursionLimit
  | S fuel =>
    if str_in_keys (Expr_str phi) (expr_var_map m) then Ok m else
    match phi with
    | Constant _ => Ok m
    | Identifier _ => Ok (_add_transition phi (LamIdentifier phi) m)
    | NotOp arg =>
      m <- visit fuel arg m ;;
      Ok (_add_transition phi (LamNot arg) m)
    | AndOp lhs rhs =>
      m <- visit fuel lhs m ;;
      m <- visit fuel rhs m ;;
      Ok (_add_transition phi (LamAnd lhs rhs) m)
    | OrOp lhs rhs =>
      m <- visit fuel lhs m ;;
      m <- visit fuel rhs m ;;
      Ok (_add_transition phi (LamOr lhs rhs) m)
    | EverywhereOp interval arg =>
      m <- visit fuel arg m ;;
      m <- _expand_add_everywhere (visit fuel) interval arg m ;;
      Raise (NotImplementedError None)
    | SomewhereOp interval arg =>
      m <- visit fuel arg m ;;
      _expand_add_somewhere (visit fuel) interval arg m
    | EscapeOp _ arg =>
      m <- visit fuel arg m ;;
      Raise (NotImplementedError (Some "We currently don't support escape"%string))
    | ReachOp lhs interval rhs =>
      m <- visit fuel lhs m ;;
      m <- visit fuel rhs m ;;
      Ok (_expand_add_reach lhs interval rhs m)
    | NextOp steps arg =>
      m <- visit fuel arg m ;;
      Ok (_expand_add_next steps arg m)
    | GloballyOp interval arg =>
      m <- visit fuel arg m ;;
      _expand_add_globally (visit fuel) interval arg m
    | EventuallyOp interval arg =>
      m <- visit fuel arg m ;;
      _expand_add_eventually (visit fuel) interval arg m
    | UntilOp lhs interval rhs =>
      m <- visit fuel lhs m ;;
      m <- visit fuel rhs m ;;
      _expand_add_until (visit fuel) lhs interval rhs m
    end
  end.

(** The depth of the call chain of [visit] on a formula: the rewrites of the
    derived operators are visited below the node they replace. *)
Definition eventually_depth (interval : option TimeInterval) : nat :=
  match interval with
  | None => 1
  | Some {| t_start := s; t_end := _ |} =>
    match s with
    | None => 1
    | Some 0%Z => 1
    | Some _ => 3
    end
  end.

Definition until_depth (interval : option TimeInterval) : nat :=
  match interval with
  | None => 1
  | Some {| t_start := s; t_end := e |} =>
    match s, e with
    | Some 0%Z, None => 1
    | None, _ => 1
    | Some _, None => 5
    | Some _, Some _ => 7
    end
  end.

Fixpoint visit_depth (phi : Expr) : nat :=
  match phi with
  | Constant _ => 1
  | Identifier _ => 1
  | NotOp arg => S (visit_depth arg)
  | AndOp lhs rhs => S (Nat.max (visit_depth lhs) (visit_depth rhs))
  | OrOp lhs rhs => S (Nat.max (visit_depth lhs) (visit_depth rhs))
  | NextOp _ arg => S (visit_depth arg)
  | EventuallyOp interval arg => eventually_depth interval + visit_depth arg
  | GloballyOp interval arg => 3 + eventually_depth interval + visit_depth arg
  | UntilOp lhs interval rhs =>
    until_depth interval + Nat.max (visit_depth lhs) (visit_depth rhs)
  | SomewhereOp _ arg => 2 + visit_depth arg
  | EverywhereOp _ arg => 5 + visit_depth arg
  | ReachOp lhs _ rhs => S (Nat.max (visit_depth lhs) (visit_depth rhs))
  | EscapeOp _ arg => S (visit_depth arg)
  end.

(** ** The automaton *)

(** Modelled from the spec: [TimeInterval.is_untimed] of
    [automatix.logic.strel], the test for an interval that denotes the untimed
    operator. *)
Variable is_untimed : TimeInterval -> bool.

(** [_is_accepting] of [StrelAutomaton.__init__] *)
Definition _is_accepting (initial_expr expr : Expr) : bool :=
  match expr with
  | NotOp (UntilOp _ interval _) =>
    match interval with None => true | Some i => is_untimed i end
  | NotOp (EventuallyOp interval _) =>
    match interval with None => true | Some i => is_untimed i end
  | _ => false
  end
  || (if Expr_dec expr initial_expr then true else false).

(** [set(a) == set(b)] on lists of states. *)
Definition set_eqb (a b : list Q) : bool :=
  forallb (fun x => if in_dec Q_dec x b then true else false) a
  && forallb (fun x => if in_dec Q_dec x a then true else false) b.

Record StrelAutomaton : Type := {
  aut_transitions : Transitions;
  initial_expr : Expr;
  aut_var_node_map : dict string Q;
  _manager : Poly;
  accepting_states : list Q
}.

(** [StrelAutomaton.__init__] *)
Definition StrelAutomaton_init (initial_expr : Expr) (ts : Transitions)
    (var_node_map : dict string Q) : result StrelAutomaton :=
  if set_eqb (dict_keys (transitions ts)) (dict_keys (const_mapping ts)) then
    match dict_values (const_mapping ts) with
    | [] => Raise StopIteration (* next(iter(...)) on an empty dictionary *)
    | first :: _ =>
      Ok {| aut_transitions := ts;
            initial_expr := initial_expr;
            aut_var_node_map := var_node_map;
            _manager := first;
            accepting_states :=
              filter (fun q : Q => _is_accepting initial_expr (fst q))
                     (dict_keys (transitions ts)) |}
    end
  else Raise (AssertionError None).

(** [StrelAutomaton.states] *)
Definition states (aut : StrelAutomaton) : list Q :=
  dict_keys (const_mapping (aut_transitions aut)).

(** [StrelAutomaton.from_strel_expr]; [dist_attr] is [None] when the caller
    leaves it out. *)
Definition from_strel_expr (fuel : nat) (phi : Expr) (max_locs : Z)
    (dist_attr : option string) : result StrelAutomaton :=
  visitor <- ExprMapper_init max_locs dist_attr ;;
  visitor <- visit fuel phi visitor ;;
  StrelAutomaton_init phi (_transitions visitor) (var_node_map visitor).

(** [make_bool_automaton]; [dist_attr] is [None] when the caller leaves it
    out, and the parameter then takes its declared default. *)
Definition make_bool_automaton (fuel : nat) (phi : Expr) (max_locs : Z)
    (dist_attr : option string) : result StrelAutomaton :=
  let dist_attr := match dist_attr with Some s => s | None => "hop"%string end in
  from_strel_expr fuel phi max_locs (Some dist_attr).

(** ** Input graphs *)

(** Modelled from the spec: the networkx graph that the code reads through
    [graph.nodes] and [graph.edges(node, data=attr, default=1.0)]: the
    dictionary of the nodes with their labels and the adjacency dictionary
    with the attributes of each edge. *)
Record Alph : Type := {
  _node : dict Location (dict string bool);
  _adj : dict Location (dict Location (dict string W))
}.

(** An edge as the enumerator handles it: [(previous_node, next_node, dist)],
    where the dummy edge into the source has no previous node. *)
Definition Edge : Type := (option Location * Location * W)%type.

Definition option_Location_dec (x y : option Location) : {x = y} + {x <> y}.
Proof. decide equality. apply Nat.eq_dec. Defined.

(** [graph.nodes] *)
Definition graph_nodes (graph : Alph) : list Location := dict_keys (_node graph).

(** [graph.edges(node, data=dist_attr, default=1.0)]; networkx raises for a
    node that is not in the graph. *)
Definition graph_edges (graph : Alph) (node : Location) (dist_attr : string)
    : result (list Edge) :=
  match dict_get Nat.eq_dec node (_adj graph) with
  | None => Raise NetworkXError
  | Some nbrs =>
    Ok (map (fun nd : Location * dict string W =>
               (Some node, fst nd,
                match dict_get string_dec dist_attr (snd nd) with
                | Some w => w
                | None => w1
                end))
            nbrs)
  end.

(** ** The reach-path enumerator *)

(** [current_path]: nodes of the path (and the dummy key [None]) to the edge
    that entered them, in insertion order. *)
Definition PathDict : Type := dict (option Location) (option Edge).

(** How a generator ends: it returns, it raises, or the step budget of the
    model runs out. *)
Inductive Ending : Type :=
| Returned
| Raised (e : PyExc)
| OutOfSteps.

(** [next((e for e in stack[-1] if e[1] not in current_path), None)], with
    what is left of the iterator. *)
Fixpoint next_unvisited (it : list Edge) (current_path : PathDict)
    : option (Edge * list Edge) :=
  match it with
  | [] => None
  | e :: it' =>
    if dict_mem option_Location_dec (Some (snd (fst e))) current_path
    then next_unvisited it' current_path
    else Some (e, it')
  end.

(** [targets - current_path.keys() - {next_node}] *)
Definition targets_left (targets : list Location) (current_path : PathDict)
    (next_node : Location) : list Location :=
  filter (fun t => negb (dict_mem option_Location_dec (Some t) current_path)
                   && negb (Nat.eqb t next_node))
         targets.

(** The cumulative length of the path extended by [next_edge]. *)
Definition new_path_len (current_path : PathDict) (previous_node : option Location)
    (next_dist : W) : result W :=
  match previous_node with
  | Some p =>
    match dict_get option_Location_dec (Some p) current_path with
    | None => Raise KeyError
    | Some None => Raise (AssertionError None)
    | Some (Some (_, _, prev_path_len)) => Ok (wadd prev_path_len next_dist)
    end
  | None => Ok w0
  end.

Section ReachLoop.
Variables (graph : Alph) (d1 d2 : W) (dist_attr : string).

(** The [while] loop of [_all_reach_edge_paths]: the head of [stack] is
    [stack[-1]], an iterator is the list of the edges it has yet to give, and
    the result lists the yielded paths in order. *)
Fixpoint reach_loop (steps : nat) (stack : list (list Edge)) (current_path : PathDict)
    {struct steps} : list (list (option Edge)) * Ending :=
  match steps with
  | O => ([], OutOfSteps)
  | S steps =>
    match stack with
    | [] => ([], Returned)
    | top :: below =>
      match next_unvisited top current_path with
      | None =>
        match popitem current_path with
        | None => ([], Raised KeyError)
        | Some current_path => reach_loop steps below current_path
        end
      | Some (next_edge, top) =>
        let '(previous_node, next_node, next_dist) := next_edge in
        match new_path_len current_path previous_node next_dist with
        | Raise e => ([], Raised e)
        | Ok len =>
          let yielded :=
            if wleb d1 len && wleb len d2
            then [skipn 2 (dict_values current_path ++ [Some next_edge])]
            else [] in
          if wleb len d2
             && negb (match targets_left (graph_nodes graph) current_path next_node with
                      | [] => true
                      | _ => false
                      end)
          then
            let update_edge := (previous_node, next_node, len) in
            let current_path :=
              dict_set option_Location_dec (Some next_node) (Some update_edge) current_path in
            match graph_edges graph next_node dist_attr with
            | Raise e => (yielded, Raised e)
            | Ok edges =>
              let '(rest, ending) := reach_loop steps (edges :: top :: below) current_path in
              (yielded ++ rest, ending)
            end
          else
            let '(rest, ending) := reach_loop steps (top :: below) current_path in
            (yielded ++ rest, ending)
        end
      end
    end
  end.

End ReachLoop.

(** [_all_reach_edge_paths] *)
Definition _all_reach_edge_paths (steps : nat) (graph : Alph) (loc : Location) (d1 d2 : W)
    (dist_attr : string) : list (list (option Edge)) * Ending :=
  reach_loop graph d1 d2 dist_attr steps [[(None, loc, w0)]] [(None, None)].

(** [[e[1] for e in edge_path]] *)
Definition edge_path_nodes (edge_path : list (option Edge)) : result (list Location) :=
  mapM (fun e : option Edge =>
          match e with
          | Some (_, v, _) => Ok v
          | None => Raise TypeError
          end)
       edge_path.

(** ** The polynomial operations *)

(** Modelled from the spec: [p.support], the names of the variables of [p]. *)
Fixpoint poly_support (p : Poly) : list string :=
  match p with
  | PTop | PBot | PConst _ => []
  | PVar x => [x]
  | PAdd p q | PMul p q => nodup string_dec (poly_support p ++ poly_support q)
  | PNeg p => poly_support p
  end.

(** Modelled from the spec: [p.let(mapping)], simultaneous substitution. *)
Fixpoint poly_let (mapping : dict string Poly) (p : Poly) : Poly :=
  match p with
  | PVar x => match dict_get string_dec x mapping with Some q => q | None => PVar x end
  | PAdd p q => PAdd (poly_let mapping p) (poly_let mapping q)
  | PMul p q => PMul (poly_let mapping p) (poly_let mapping q)
  | PNeg p => PNeg (poly_let mapping p)
  | _ => p
  end.

(** Modelled from the spec: [p.eval(mapping)], grounded evaluation over the
    Booleans; a variable that the mapping lacks is an evaluation error. *)
Fixpoint poly_eval (mapping : dict string bool) (p : Poly) : result bool :=
  match p with
  | PTop => Ok true
  | PBot => Ok false
  | PConst k => Ok k
  | PVar x =>
    match dict_get string_dec x mapping with
    | Some k => Ok k
    | None => Raise EvalError
    end
  | PAdd p q => a <- poly_eval mapping p ;; b <- poly_eval mapping q ;; Ok (a || b)
  | PMul p q => a <- poly_eval mapping p ;; b <- poly_eval mapping q ;; Ok (a && b)
  | PNeg p => a <- poly_eval mapping p ;; Ok (negb a)
  end.

Fixpoint assignments (vars : list string) : list (dict string bool) :=
  match vars with
  | [] => [[]]
  | x :: vars =>
    flat_map (fun a => [(x, true) :: a; (x, false) :: a]) (assignments vars)
  end.

(** Modelled from the spec: [p.is_top()], whether [p] is the constant top. *)
Definition poly_is_top (p : Poly) : bool :=
  forallb (fun a => match poly_eval a p with Ok true => true | _ => false end)
          (assignments (poly_support p)).

(** ** Evaluating the transition table *)

(** The labelling function handed to the compiler. *)
Variable label_fn : Alph -> Location -> string -> bool.

(** The alias step shared by [Transitions.__call__] and [Transitions.get_var]. *)
Definition chase_alias (ts : Transitions) (state : Q) : Q :=
  match dict_get Expr_dec (fst state) (aliases ts) with
  | Some alias => (alias, snd state)
  | None => state
  end.

(** [Transitions.get_var] *)
Definition get_var (ts : Transitions) (state : Q) : result Poly :=
  let state := chase_alias ts state in
  match fst state with
  | Constant value => Ok (if value then PTop else PBot)
  | _ =>
    match dict_get Q_dec state (const_mapping ts) with
    | Some p => Ok p
    | None => Raise KeyError
    end
  end.

Section Closures.
(** [self._transitions(alph, state)], as the closures call it back. *)
Variable call : Alph -> Q -> result Poly.
Variable ts : Transitions.

(** The loop of [check_reach] over the generated paths; the generator's
    ending is only met when the loop has not returned before. *)
Fixpoint check_reach_loop (lhs rhs : Expr) (loc : Location) (input : Alph)
    (paths : list (list (option Edge))) (ending : Ending) (expr : Poly) : result Poly :=
  match paths with
  | [] =>
    match ending with
    | Returned => Ok expr
    | Raised e => Raise e
    | OutOfSteps => Raise RecursionLimit
    end
  | edge_path :: paths =>
    nodes <- edge_path_nodes edge_path ;;
    let path := loc :: nodes in
    path_expr <- call input (rhs, last path loc) ;;
    path_expr <- foldM (fun pe l_p => t <- call input (lhs, l_p) ;; Ok (PMul pe t))
                       (rev (removelast path)) path_expr ;;
    let expr := PAdd expr path_expr in
    if poly_is_top expr then Ok expr
    else check_reach_loop lhs rhs loc input paths ending expr
  end.

(** [check_reach] of [_expand_add_reach] *)
Definition check_reach (steps : nat) (lhs rhs : Expr) (loc : Location) (input : Alph)
    (d1 d2 : W) (dist_attr : string) : result Poly :=
  let '(paths, ending) := _all_reach_edge_paths steps input loc d1 d2 dist_attr in
  check_reach_loop lhs rhs loc input paths ending PBot.

(** Calling [partial(transition, loc)] on an input. *)
Definition apply_closure (steps : nat) (fn : Partial) (input : Alph) : result Poly :=
  let '(transition, loc) := fn in
  match transition with
  | LamIdentifier phi => call input (phi, loc)
  | LamNot arg => p <- call input (arg, loc) ;; Ok (PNeg p)
  | LamAnd lhs rhs =>
    p <- call input (lhs, loc) ;; q <- call input (rhs, loc) ;; Ok (PMul p q)
  | LamOr lhs rhs =>
    p <- call input (lhs, loc) ;; q <- call input (rhs, loc) ;; Ok (PAdd p q)
  | LamVar sub_expr => get_var ts (sub_expr, loc)
  | LamEventually arg sub_expr =>
    p <- call input (arg, loc) ;; v <- get_var ts (sub_expr, loc) ;; Ok (PAdd p v)
  | LamUntil lhs rhs phi =>
    r <- call input (rhs, loc) ;;
    l <- call input (lhs, loc) ;;
    v <- get_var ts (phi, loc) ;;
    Ok (PAdd r (PMul l v))
  | LamReach lhs rhs d1 d2 dist_attr => check_reach steps lhs rhs loc input d1 d2 dist_attr
  end.

End Closures.

(** [Transitions.__call__]; [fuel] bounds the depth of the calls and the
    steps of each path enumeration. *)
Fixpoint Transitions_call (fuel : nat) (ts : Transitions) (input : Alph) (state : Q)
    {struct fuel} : result Poly :=
  match fuel with
  | O => Raise RecursionLimit
  | S fuel' =>
    let state := chase_alias ts state in
    match fst state with
    | Constant value => Ok (if value then PTop else PBot)
    | Identifier name => Ok (PConst (label_fn input (snd state) name))
    | _ =>
      match dict_get Q_dec state (transitions ts) with
      | None => Raise KeyError
      | Some fn => apply_closure (Transitions_call fuel' ts) ts fuel fn input
      end
    end
  end.

(** ** Running the automaton *)

(** [StrelAutomaton.initial_at] *)
Definition initial_at (aut : StrelAutomaton) (loc : Location) : result Poly :=
  get_var (aut_transitions aut) (initial_expr aut, loc).

(** [StrelAutomaton.final_mapping] *)
Definition final_mapping (aut : StrelAutomaton) : result (dict string bool) :=
  foldM (fun (d : dict string bool) (q : Q) =>
           v <- (if in_dec Q_dec q (accepting_states aut)
                 then poly_eval [] PTop
                 else poly_eval [] PBot) ;;
           Ok (dict_set string_dec (_make_q_str q) v d))
        (states aut) [].

(** [StrelAutomaton.next]; [self.transitions] is the table handed to the
    base class. *)
Definition next (fuel : nat) (aut : StrelAutomaton) (input : Alph) (current : Poly)
    : result Poly :=
  transitions <-
    foldM (fun (d : dict string Poly) (var : string) =>
             q <- match dict_get string_dec var (aut_var_node_map aut) with
                  | Some q => Ok q
                  | None => Raise KeyError
                  end ;;
             p <- Transitions_call fuel (aut_transitions aut) input q ;;
             Ok (dict_set string_dec var p d))
          (poly_support current) [] ;;
  Ok (poly_let transitions current).

(** [StrelAutomaton.check_run] *)
Definition check_run (fuel : nat) (aut : StrelAutomaton) (ego_location : Location)
    (trace : list Alph) (reverse_order : bool) : result bool :=
  if reverse_order then
    costs <- final_mapping aut ;;
    costs <-
      foldM (fun (costs : dict string bool) (input : Alph) =>
               foldM (fun (new_costs : dict string bool) (q : Q) =>
                        p <- Transitions_call fuel (aut_transitions aut) input q ;;
                        v <- poly_eval costs p ;;
                        Ok (dict_set string_dec (_make_q_str q) v new_costs))
                     (states aut) [])
            (rev trace) costs ;;
    init <- initial_at aut ego_location ;;
    poly_eval costs init
  else
    state <- initial_at aut ego_location ;;
    state <- foldM (fun state input => next fuel aut input state) trace state ;;
    final <- final_mapping aut ;;
    poly_eval final state.


(** ** What the visitor installs *)

(** The function that the visitor stores under a key, read off the key: the
    lambda of the matching case of [visit] or of the expansion that installs
    this key. *)
Definition canonical (attr : string) (phi : Expr) : option Closure :=
  match phi with
  | Identifier _ => Some (LamIdentifier phi)
  | NotOp arg => Some (LamNot arg)
  | AndOp lhs rhs => Some (LamAnd lhs rhs)
  | OrOp lhs rhs => Some (LamOr lhs rhs)
  | NextOp (Some i) arg =>
    if (1 <? i)%Z then Some (LamVar (NextOp (Some (i - 1)%Z) arg))
    else if (i =? 1)%Z then Some (LamVar arg) else None
  | EventuallyOp None arg => Some (LamEventually arg phi)
  | EventuallyOp (Some {| t_start := None; t_end := None |}) arg =>
    Some (LamEventually arg phi)
  | EventuallyOp (Some {| t_start := Some 0%Z; t_end := None |}) arg =>
    Some (LamEventually arg phi)
  | EventuallyOp (Some {| t_start := Some 0%Z; t_end := Some i |}) arg =>
    if (1 <? i)%Z
    then Some (LamEventually arg
                 (EventuallyOp (Some {| t_start := Some 0%Z; t_end := Some (i - 1)%Z |}) arg))
    else if (i =? 1)%Z then Some (LamEventually arg arg) else None
  | UntilOp lhs None rhs => Some (LamUntil lhs rhs phi)
  | UntilOp lhs (Some {| t_start := None; t_end := None |}) rhs => Some (LamUntil lhs rhs phi)
  | UntilOp lhs (Some {| t_start := Some 0%Z; t_end := None |}) rhs =>
    Some (LamUntil lhs rhs phi)
  | ReachOp lhs interval rhs =>
    Some (LamReach lhs rhs (py_or (d_start interval) w0) (py_or (d_end interval) winf) attr)
  | _ => None
  end.

(** Every stored function is the one of its key, bound to the key's location. *)
Definition table_canonical (m : ExprMapper) : Prop :=
  forall (q : Q) (fn : Partial),
    dict_get Q_dec q (transitions (_transitions m)) = Some fn ->
    canonical (dist_attr m) (fst q) = Some (fst fn) /\ snd fn = snd q.

(** Whether a formula has an operator that the visitor refuses. *)
Fixpoint unsupported (phi : Expr) : bool :=
  match phi with
  | Constant _ | Identifier _ => false
  | NotOp arg | NextOp _ arg | EventuallyOp _ arg | GloballyOp _ arg
  | SomewhereOp _ arg => unsupported arg
  | AndOp lhs rhs | OrOp lhs rhs | UntilOp lhs _ rhs | ReachOp lhs _ rhs =>
    unsupported lhs || unsupported rhs
  | EverywhereOp _ _ | EscapeOp _ _ => true
  end.

Fixpoint contains_escape (phi : Expr) : bool :=
  match phi with
  | Constant _ | Identifier _ => false
  | NotOp arg | NextOp _ arg | EventuallyOp _ arg | GloballyOp _ arg
  | SomewhereOp _ arg | EverywhereOp _ arg => contains_escape arg
  | AndOp lhs rhs | OrOp lhs rhs | UntilOp lhs _ rhs | ReachOp lhs _ rhs =>
    contains_escape lhs || contains_escape rhs
  | EscapeOp _ _ => true
  end.

Fixpoint contains_everywhere (phi : Expr) : bool :=
  match phi with
  | Constant _ | Identifier _ => false
  | NotOp arg | NextOp _ arg | EventuallyOp _ arg | GloballyOp _ arg
  | SomewhereOp _ arg | EscapeOp _ arg => contains_everywhere arg
  | AndOp lhs rhs | OrOp lhs rhs | UntilOp lhs _ rhs | ReachOp lhs _ rhs =>
    contains_everywhere lhs || contains_everywhere rhs
  | EverywhereOp _ _ => true
  end.

(** The operators that the visitor replaces by a rewrite and records in
    [aliases]. *)
Definition is_derived (phi : Expr) : bool :=
  match phi with
  | EventuallyOp _ _ | GloballyOp _ _ | UntilOp _ _ _ | SomewhereOp _ _
  | EverywhereOp _ _ => true
  | _ => false
  end.

(** The message of the first [NotImplementedError] that [visit] meets on a
    formula, in the order of the traversal: children from left to right, then
    the node. *)
Definition escape_message : string := "We currently don't support escape"%string.

Fixpoint first_refusal (phi : Expr) : option (option string) :=
  match phi with
  | Constant _ | Identifier _ => None
  | NotOp arg | NextOp _ arg | EventuallyOp _ arg | GloballyOp _ arg
  | SomewhereOp _ arg => first_refusal arg
  | AndOp lhs rhs | OrOp lhs rhs | UntilOp lhs _ rhs | ReachOp lhs _ rhs =>
    match first_refusal lhs with
    | Some msg => Some msg
    | None => first_refusal rhs
    end
  | EverywhereOp _ arg =>
    match first_refusal arg with
    | Some msg => Some msg
    | None => Some None
    end
  | EscapeOp _ arg =>
    match first_refusal arg with
    | Some msg => Some msg
    | None => Some (Some escape_message)
    end
  end.

(** * Properties of the compiler *)

Lemma bind_Ok (A B : Type) (r : result A) (k : A -> result B) (b : B) :
  bind r k = Ok b -> exists a, r = Ok a /\ k a = Ok b.
Proof. destruct r as [a|e]; simpl; [eauto | discriminate]. Qed.

Ltac inv_bind :=
  repeat match goal with
         | H : bind _ _ = Ok _ |- _ =>
           let a := fresh "m" in
           let E := fresh "E" in
           apply bind_Ok in H; destruct H as (a & E & H)
         | H : Ok _ = Ok _ |- _ => injection H as H; try subst
         | H : Raise _ = Ok _ |- _ => discriminate H
         end.

(** The skip test of [visit] never succeeds: the keys it searches are tuples. *)
Lemma str_in_keys_false (s : string) (d : dict Q Poly) : str_in_keys s d = false.
Proof.
  unfold str_in_keys. induction (dict_keys d) as [|k l IH]; simpl; [reflexivity | exact IH].
Qed.

Lemma visit_S (fuel : nat) (phi : Expr) (m : ExprMapper) :
  visit (S fuel) phi m =
  match phi with
  | Constant _ => Ok m
  | Identifier _ => Ok (_add_transition phi (LamIdentifier phi) m)
  | NotOp arg =>
    m <- visit fuel arg m ;;
    Ok (_add_transition phi (LamNot arg) m)
  | AndOp lhs rhs =>
    m <- visit fuel lhs m ;;
    m <- visit fuel rhs m ;;
    Ok (_add_transition phi (LamAnd lhs rhs) m)
  | OrOp lhs rhs =>
    m <- visit fuel lhs m ;;
    m <- visit fuel rhs m ;;
    Ok (_add_transition phi (LamOr lhs rhs) m)
  | EverywhereOp interval arg =>
    m <- visit fuel arg m ;;
    m <- _expand_add_everywhere (visit fuel) interval arg m ;;
    Raise (NotImplementedError None)
  | SomewhereOp interval arg =>
    m <- visit fuel arg m ;;
    _expand_add_somewhere (visit fuel) interval arg m
  | EscapeOp _ arg =>
    m <- visit fuel arg m ;;
    Raise (NotImplementedError (Some "We currently don't support escape"%string))
  | ReachOp lhs interval rhs =>
    m <- visit fuel lhs m ;;
    m <- visit fuel rhs m ;;
    Ok (_expand_add_reach lhs interval rhs m)
  | NextOp steps arg =>
    m <- visit fuel arg m ;;
    Ok (_expand_add_next steps arg m)
  | GloballyOp interval arg =>
    m <- visit fuel arg m ;;
    _expand_add_globally (visit fuel) interval arg m
  | EventuallyOp interval arg =>
    m <- visit fuel arg m ;;
    _expand_add_eventually (visit fuel) interval arg m
  | UntilOp lhs interval rhs =>
    m <- visit fuel lhs m ;;
    m <- visit fuel rhs m ;;
    _expand_add_until (visit fuel) lhs interval rhs m
  end.
Proof.
  cbn [visit]. rewrite str_in_keys_false. reflexivity.
Qed.

Lemma add_transition_at_fields (phi : Expr) (c : Closure) (m : ExprMapper) (loc : Location) :
  max_locs (add_transition_at phi c m loc) = max_locs m
  /\ dist_attr (add_transition_at phi c m loc) = dist_attr m
  /\ aliases (_transitions (add_transition_at phi c m loc)) = aliases (_transitions m).
Proof. repeat split. Qed.

Lemma add_expr_alias_at_fields (phi e : Expr) (m : ExprMapper) (loc : Location) :
  max_locs (add_expr_alias_at phi e m loc) = max_locs m
  /\ dist_attr (add_expr_alias_at phi e m loc) = dist_attr m
  /\ transitions (_transitions (add_expr_alias_at phi e m loc)) = transitions (_transitions m)
  /\ const_mapping (_transitions (add_expr_alias_at phi e m loc))
     = const_mapping (_transitions m)
  /\ manager (_transitions (add_expr_alias_at phi e m loc)) = manager (_transitions m).
Proof. repeat split. Qed.

Section Invariant.
(** A property of the mapper that every write of the visitor keeps. *)
Variable P : ExprMapper -> Prop.
Hypothesis P_add_transition :
  forall phi c m loc,
    canonical (dist_attr m) phi = Some c -> P m -> P (add_transition_at phi c m loc).
Hypothesis P_add_alias :
  forall phi e m loc, is_derived phi = true -> P m -> P (add_expr_alias_at phi e m loc).

Lemma P_fold_add_transition (phi : Expr) (c : Closure) (locs : list Location) :
  forall m, canonical (dist_attr m) phi = Some c -> P m ->
            P (fold_left (add_transition_at phi c) locs m).
Proof.
  induction locs as [|loc locs IH]; intros m Hc Hm; simpl; [exact Hm|].
  apply IH; [exact Hc | now apply P_add_transition].
Qed.

Lemma P__add_transition (phi : Expr) (c : Closure) (m : ExprMapper) :
  canonical (dist_attr m) phi = Some c -> P m -> P (_add_transition phi c m).
Proof. intros. now apply P_fold_add_transition. Qed.

Lemma P__add_expr_alias (phi e : Expr) (m : ExprMapper) :
  is_derived phi = true -> P m -> P (_add_expr_alias phi e m).
Proof.
  intros Hphi. unfold _add_expr_alias. generalize (py_range (max_locs m)) as locs.
  intros locs. revert m. induction locs as [|loc locs IH]; intros m Hm; simpl; [exact Hm|].
  apply IH. now apply P_add_alias.
Qed.

Lemma P_fold_Z (f : ExprMapper -> Z -> ExprMapper) (l : list Z) :
  (forall m i, In i l -> P m -> P (f m i)) ->
  forall m, P m -> P (fold_left f l m).
Proof.
  induction l as [|i l IH]; intros Hf m Hm; simpl; [exact Hm|].
  apply IH.
  - intros m' j Hj. apply Hf. now right.
  - apply Hf; [now left | exact Hm].
Qed.

Lemma py_range_down_In (start stop i : Z) :
  In i (py_range_down start stop) <-> (stop < i <= start)%Z.
Proof.
  unfold py_range_down. rewrite in_map_iff. split.
  - intros (k & <- & Hk). apply in_seq in Hk. lia.
  - intros H. exists (Z.to_nat (start - i)). split; [lia|]. apply in_seq. lia.
Qed.

Lemma P__expand_add_next (steps : option Z) (arg : Expr) (m : ExprMapper) :
  P m -> P (_expand_add_next steps arg m).
Proof.
  intros Hm. unfold _expand_add_next.
  apply P__add_transition; [reflexivity|].
  apply P_fold_Z; [|exact Hm].
  intros m' i Hi Hm'. apply py_range_down_In in Hi.
  apply P__add_transition; [|exact Hm'].
  simpl. destruct (Z.ltb_spec 1 i); [reflexivity | lia].
Qed.

Lemma P__expand_add_reach (lhs : Expr) (interval : DistanceInterval) (rhs : Expr)
    (m : ExprMapper) :
  P m -> P (_expand_add_reach lhs interval rhs m).
Proof. intros Hm. unfold _expand_add_reach. now apply P__add_transition. Qed.

Section WithVisit.
Variable vis : Expr -> ExprMapper -> result ExprMapper.
Hypothesis vis_P : forall phi m m', vis phi m = Ok m' -> P m -> P m'.

Lemma P__expand_add_eventually interval arg m m' :
  _expand_add_eventually vis interval arg m = Ok m' -> P m -> P m'.
Proof.
  intros H Hm.
  assert (Hb : forall t2 m0, P m0 ->
    P (fold_left
         (fun m i =>
            let expr := EventuallyOp (Some {| t_start := Some 0%Z; t_end := Some i |}) arg in
            let sub_expr :=
              if (1 <? i)%Z
              then EventuallyOp (Some {| t_start := Some 0%Z; t_end := Some (i - 1)%Z |}) arg
              else arg in
            _add_transition expr (LamEventually arg sub_expr) m)
         (py_range_down t2 0) m0)).
  { intros t2 m0 Hm0. apply P_fold_Z; [|exact Hm0].
    intros m1 i Hi Hm1. apply py_range_down_In in Hi. cbv zeta.
    apply P__add_transition; [|exact Hm1]. simpl.
    destruct (Z.ltb_spec 1 i); [reflexivity|].
    destruct (Z.eqb_spec i 1); [reflexivity | lia]. }
  unfold _expand_add_eventually in H.
  destruct interval as [[[[|t1|t1]|] [t2|]]|]; cbv zeta in H; inv_bind;
    try (apply Hb; exact Hm);
    try (apply P__add_transition; [reflexivity | exact Hm]);
    try (apply P__add_expr_alias; [reflexivity | eapply vis_P; eassumption]).
Qed.

Lemma P__expand_add_globally interval arg m m' :
  _expand_add_globally vis interval arg m = Ok m' -> P m -> P m'.
Proof.
  unfold _expand_add_globally. cbv zeta. intros H Hm. inv_bind.
  apply P__add_expr_alias; [reflexivity | eapply vis_P; eassumption].
Qed.

Lemma P__expand_add_until lhs interval rhs m m' :
  _expand_add_until vis lhs interval rhs m = Ok m' -> P m -> P m'.
Proof.
  intros H Hm. unfold _expand_add_until in H.
  destruct interval as [[[[|t1|t1]|] [t2|]]|]; cbv zeta in H; inv_bind;
    try exact Hm;
    try (apply P__add_transition; [reflexivity | exact Hm]);
    try (apply P__add_expr_alias; [reflexivity | eapply vis_P; eassumption]).
Qed.

Lemma P__expand_add_somewhere interval arg m m' :
  _expand_add_somewhere vis interval arg m = Ok m' -> P m -> P m'.
Proof.
  unfold _expand_add_somewhere. cbv zeta. intros H Hm. inv_bind.
  apply P__add_expr_alias; [reflexivity | eapply vis_P; eassumption].
Qed.

End WithVisit.

(** The visitor keeps the property. *)
Lemma visit_invariant (fuel : nat) :
  forall phi m m', visit fuel phi m = Ok m' -> P m -> P m'.
Proof.
  induction fuel as [|fuel IH]; intros phi m m' H Hm; [discriminate|].
  rewrite visit_S in H.
  destruct phi; inv_bind;
    repeat match goal with
           | E : visit fuel _ _ = Ok _ |- _ => apply IH in E; [|assumption]
           end;
    try exact Hm;
    try (apply P__add_transition; [reflexivity | assumption]).
  all: first [ now apply P__expand_add_next
             | now apply P__expand_add_reach
             | eapply P__expand_add_eventually; now eauto
             | eapply P__expand_add_globally; now eauto
             | eapply P__expand_add_until; now eauto
             | eapply P__expand_add_somewhere; now eauto ].
Qed.

End Invariant.

(** ** The outcome of a visit *)

Lemma visit_depth_pos (phi : Expr) : 1 <= visit_depth phi.
Proof.
  destruct phi; simpl; try lia;
    destruct interval as [[[[|?|?]|] [?|]]|]; simpl; lia.
Qed.

Ltac depth_lia :=
  repeat match goal with
         | x : Expr |- _ =>
           lazymatch goal with
           | _ : 1 <= visit_depth x |- _ => fail
           | _ => pose proof (visit_depth_pos x)
           end
         end;
  unfold strel_true, invert in *;
  cbn [visit_depth eventually_depth until_depth] in *; lia.

Ltac visit_child IH a :=
  match goal with
  | |- context [bind (visit ?f a ?m) _] =>
    let H := fresh "H" in
    assert (H : visit_depth a <= f) by depth_lia;
    apply (IH a m) in H;
    destruct (first_refusal a) as [?msg|] eqn:?;
    [ rewrite H; reflexivity
    | let m1 := fresh "m" in destruct H as [m1 H]; rewrite H; cbn [bind] ]
  end.

Ltac visit_rewrite IH :=
  match goal with
  | |- context [bind (visit ?f ?e ?m) _] =>
    let H := fresh "H" in
    assert (H : visit_depth e <= f) by depth_lia;
    apply (IH e m) in H;
    cbn [first_refusal invert strel_true] in H;
    repeat match goal with
           | E : first_refusal _ = None |- _ => rewrite E in H
           end;
    let m1 := fresh "m" in destruct H as [m1 H]; rewrite H; cbn [bind]
  end.

(** With fuel for the depth of the formula, [visit] raises the first refusal
    of the traversal, and succeeds when there is none. *)
Lemma visit_outcome (fuel : nat) :
  forall phi m,
    visit_depth phi <= fuel ->
    match first_refusal phi with
    | Some msg => visit fuel phi m = Raise (NotImplementedError msg)
    | None => exists m', visit fuel phi m = Ok m'
    end.
Proof.
  induction fuel as [|fuel IH]; intros phi m Hd.
  { destruct phi; simpl in Hd; try lia;
      destruct interval as [[[[|?|?]|] [?|]]|]; simpl in Hd; lia. }
  rewrite visit_S.
  destruct phi; cbn [first_refusal].
  - eexists; reflexivity.
  - eexists; reflexivity.
  - visit_child IH phi. eexists; reflexivity.
  - visit_child IH phi1. visit_child IH phi2. eexists; reflexivity.
  - visit_child IH phi1. visit_child IH phi2. eexists; reflexivity.
  - visit_child IH phi. eexists; reflexivity.
  - (* EventuallyOp *)
    assert (visit_depth phi <= fuel)
      by (destruct interval as [[[[|?|?]|] [?|]]|]; simpl in Hd; lia).
    visit_child IH phi.
    unfold _expand_add_eventually.
    destruct interval as [[[[|?|?]|] [?|]]|]; cbv zeta;
      try (eexists; reflexivity);
      visit_rewrite IH; eexists; reflexivity.
  - (* GloballyOp *)
    assert (visit_depth phi <= fuel)
      by (destruct interval as [[[[|?|?]|] [?|]]|]; simpl in Hd; lia).
    visit_child IH phi.
    unfold _expand_add_globally. cbv zeta.
    assert (Hr : visit_depth (invert (EventuallyOp interval (invert phi))) <= fuel)
      by (simpl in *; lia).
    apply (IH _ m0) in Hr. cbn [first_refusal invert] in Hr.
    rewrite Heqo in Hr. destruct Hr as [m1 Hr]. rewrite Hr. cbn [bind].
    eexists; reflexivity.
  - (* UntilOp *)
    assert (visit_depth phi1 <= fuel /\ visit_depth phi2 <= fuel)
      by (destruct interval as [[[[|?|?]|] [?|]]|]; simpl in Hd; lia).
    visit_child IH phi1. visit_child IH phi2.
    unfold _expand_add_until.
    destruct interval as [[[[|?|?]|] [?|]]|]; cbv zeta;
      try (eexists; reflexivity);
      visit_rewrite IH; eexists; reflexivity.
  - (* SomewhereOp *)
    visit_child IH phi.
    unfold _expand_add_somewhere. cbv zeta.
    visit_rewrite IH. eexists; reflexivity.
  - (* EverywhereOp *)
    visit_child IH phi.
    unfold _expand_add_everywhere. cbv zeta.
    visit_rewrite IH. reflexivity.
  - (* ReachOp *)
    visit_child IH phi1. visit_child IH phi2. eexists; reflexivity.
  - (* EscapeOp *)
    visit_child IH phi. reflexivity.
Qed.

(** ** Instances of the invariant *)

Lemma dict_mem_keys (V1 V2 : Type) (q : Q) (d1 : dict Q V1) (d2 : dict Q V2) :
  dict_keys d1 = dict_keys d2 -> dict_mem Q_dec q d1 = dict_mem Q_dec q d2.
Proof.
  intros H.
  destruct (dict_mem Q_dec q d1) eqn:E1, (dict_mem Q_dec q d2) eqn:E2; try reflexivity.
  - apply (proj1 (dict_mem_In _ _ _)) in E1. rewrite H in E1.
    apply (proj2 (dict_mem_In Q_dec _ _)) in E1. congruence.
  - apply (proj1 (dict_mem_In _ _ _)) in E2. rewrite <- H in E2.
    apply (proj2 (dict_mem_In Q_dec _ _)) in E2. congruence.
Qed.

(** The two tables of the mapper have the same keys, in the same order. *)
Definition same_keys (m : ExprMapper) : Prop :=
  dict_keys (transitions (_transitions m)) = dict_keys (const_mapping (_transitions m)).

Lemma visit_same_keys (fuel : nat) (phi : Expr) (m m' : ExprMapper) :
  visit fuel phi m = Ok m' -> same_keys m -> same_keys m'.
Proof.
  apply visit_invariant.
  - intros psi c m0 loc _ H. unfold same_keys in *.
    cbn [add_transition_at _transitions transitions const_mapping].
    rewrite !setdefault_keys.
    rewrite (@dict_mem_keys (Closure * Location) Poly (psi, loc) _ _ H).
    destruct (dict_mem Q_dec (psi, loc) (const_mapping (_transitions m0)));
      [exact H | f_equal; exact H].
  - intros psi e m0 loc _ H. exact H.
Qed.

Lemma visit_dist_attr (fuel : nat) (phi : Expr) (m m' : ExprMapper) :
  visit fuel phi m = Ok m' -> dist_attr m' = dist_attr m.
Proof.
  intros H.
  refine (@visit_invariant (fun x => dist_attr x = dist_attr m) _ _ fuel phi m m' H eq_refl);
    auto.
Qed.

Lemma visit_max_locs (fuel : nat) (phi : Expr) (m m' : ExprMapper) :
  visit fuel phi m = Ok m' -> max_locs m' = max_locs m.
Proof.
  intros H.
  refine (@visit_invariant (fun x => max_locs x = max_locs m) _ _ fuel phi m m' H eq_refl);
    auto.
Qed.

Lemma visit_table_canonical (fuel : nat) (phi : Expr) (m m' : ExprMapper) :
  visit fuel phi m = Ok m' -> table_canonical m -> table_canonical m'.
Proof.
  apply visit_invariant.
  - intros psi c m0 loc Hc H q fn. unfold table_canonical in H. simpl.
    rewrite setdefault_get. destruct (dict_get Q_dec q _) eqn:E.
    + intros [= Hfn]. subst fn. now apply H.
    + destruct (Q_dec q (psi, loc)) as [->|]; [|discriminate].
      intros [= Hfn]. subst fn. simpl. auto.
  - intros psi e m0 loc _ H. exact H.
Qed.

(** Keys are never removed. *)
Lemma visit_keeps_key (fuel : nat) (phi : Expr) (m m' : ExprMapper) (q : Q) :
  visit fuel phi m = Ok m' ->
  In q (dict_keys (const_mapping (_transitions m))) ->
  In q (dict_keys (const_mapping (_transitions m'))).
Proof.
  apply (@visit_invariant (fun x => In q (dict_keys (const_mapping (_transitions x))))).
  - intros psi c m0 loc _ H. simpl. rewrite setdefault_keys.
    destruct (dict_mem Q_dec (psi, loc) (const_mapping (_transitions m0))); [exact H|].
    apply in_or_app. now left.
  - intros psi e m0 loc _ H. exact H.
Qed.

(** Only derived operators are aliased. *)
Definition aliases_derived (m : ExprMapper) : Prop :=
  forall psi, In psi (dict_keys (aliases (_transitions m))) -> is_derived psi = true.

Lemma visit_aliases_derived (fuel : nat) (phi : Expr) (m m' : ExprMapper) :
  visit fuel phi m = Ok m' -> aliases_derived m -> aliases_derived m'.
Proof.
  apply visit_invariant.
  - intros psi c m0 loc _ H. exact H.
  - intros psi e m0 loc Hd H chi. simpl. rewrite setdefault_keys.
    destruct (dict_mem Expr_dec psi (aliases (_transitions m0))); [apply H|].
    intros Hin. apply in_app_or in Hin. destruct Hin as [Hin|[<-|[]]]; [now apply H | exact Hd].
Qed.

Lemma fold_add_transition_keeps (phi : Expr) (c : Closure) (q : Q) (locs : list Location) :
  forall m,
    In q (dict_keys (const_mapping (_transitions m))) ->
    In q (dict_keys (const_mapping (_transitions (fold_left (add_transition_at phi c) locs m)))).
Proof.
  induction locs as [|l locs IH]; intros m H; simpl; [exact H|].
  apply IH. cbn [add_transition_at _transitions const_mapping]. rewrite setdefault_keys.
  destruct (dict_mem Q_dec (phi, l) _); [exact H|].
  apply in_or_app. now left.
Qed.

Lemma fold_add_transition_keys (phi : Expr) (c : Closure) (loc : Location)
    (locs : list Location) :
  forall m,
    In loc locs ->
    In (phi, loc)
       (dict_keys (const_mapping (_transitions (fold_left (add_transition_at phi c) locs m)))).
Proof.
  induction locs as [|l locs IH]; intros m Hin; simpl; [contradiction|].
  destruct Hin as [->|Hin]; [|now apply IH].
  apply fold_add_transition_keeps.
  cbn [add_transition_at _transitions const_mapping]. rewrite setdefault_keys.
  destruct (dict_mem Q_dec (phi, loc) _) eqn:E.
  - now apply (proj1 (dict_mem_In _ _ _)) in E.
  - apply in_or_app. right. now left.
Qed.

(** [_add_transition] leaves a state for every location. *)
Lemma add_transition_keys (phi : Expr) (c : Closure) (m : ExprMapper) (loc : Location) :
  (Z.of_nat loc < max_locs m)%Z ->
  In (phi, loc) (dict_keys (const_mapping (_transitions (_add_transition phi c m)))).
Proof.
  intros Hloc. unfold _add_transition. apply fold_add_transition_keys.
  apply in_seq. lia.
Qed.

Lemma ExprMapper_init_Ok (n : Z) (attr : option string) (m0 : ExprMapper) :
  ExprMapper_init n attr = Ok m0 ->
  (0 < n)%Z /\ max_locs m0 = n
  /\ dist_attr m0 = match attr with
                    | Some s => if string_dec s EmptyString then "weight"%string else s
                    | None => "weight"%string
                    end
  /\ _transitions m0 = {| manager := []; transitions := []; const_mapping := [];
                          aliases := [] |}.
Proof.
  unfold ExprMapper_init. destruct (Z.ltb_spec 0 n); [|discriminate].
  intros [= <-]. simpl. auto.
Qed.

Lemma ExprMapper_init_invariants (n : Z) (attr : option string) (m0 : ExprMapper) :
  ExprMapper_init n attr = Ok m0 ->
  same_keys m0 /\ table_canonical m0 /\ aliases_derived m0.
Proof.
  intros H. apply ExprMapper_init_Ok in H. destruct H as (_ & _ & _ & Ht).
  unfold same_keys, table_canonical, aliases_derived. rewrite Ht. simpl.
  repeat split; try discriminate; contradiction.
Qed.

Lemma set_eqb_refl (l : list Q) : set_eqb l l = true.
Proof.
  unfold set_eqb. apply andb_true_iff.
  assert (H : forallb (fun x => if in_dec Q_dec x l then true else false) l = true).
  { apply forallb_forall. intros x Hx. destruct (in_dec Q_dec x l); [reflexivity|contradiction]. }
  now rewrite H.
Qed.

Lemma set_eqb_In (a b : list Q) :
  set_eqb a b = true -> forall q, In q a <-> In q b.
Proof.
  unfold set_eqb. intros H q. apply andb_true_iff in H. destruct H as [Ha Hb].
  rewrite forallb_forall in Ha, Hb. split; intros Hq.
  - specialize (Ha q Hq). destruct (in_dec Q_dec q b); [assumption|discriminate].
  - specialize (Hb q Hq). destruct (in_dec Q_dec q a); [assumption|discriminate].
Qed.

Lemma StrelAutomaton_init_Ok (init : Expr) (ts : Transitions) (vnm : dict string Q)
    (aut : StrelAutomaton) :
  StrelAutomaton_init init ts vnm = Ok aut ->
  set_eqb (dict_keys (transitions ts)) (dict_keys (const_mapping ts)) = true
  /\ aut_transitions aut = ts
  /\ initial_expr aut = init
  /\ aut_var_node_map aut = vnm
  /\ accepting_states aut =
     filter (fun q : Q => _is_accepting init (fst q)) (dict_keys (transitions ts)).
Proof.
  unfold StrelAutomaton_init.
  destruct (set_eqb _ _); [|discriminate].
  destruct (dict_values (const_mapping ts)); [discriminate|].
  intros [= <-]. simpl. auto.
Qed.

Lemma from_strel_expr_Ok (fuel : nat) (phi : Expr) (n : Z) (attr : option string)
    (aut : StrelAutomaton) :
  from_strel_expr fuel phi n attr = Ok aut ->
  exists m0 m,
    ExprMapper_init n attr = Ok m0
    /\ visit fuel phi m0 = Ok m
    /\ StrelAutomaton_init phi (_transitions m) (var_node_map m) = Ok aut.
Proof.
  unfold from_strel_expr. intros H. inv_bind. eauto.
Qed.

(** ** Refused operators *)

Lemma first_refusal_escape (phi : Expr) :
  contains_escape phi = true -> exists msg, first_refusal phi = Some msg.
Proof.
  induction phi; simpl; intros H; try discriminate; auto;
    try (apply orb_true_iff in H; destruct H as [H|H]);
    repeat match goal with
           | IH : ?c = true -> exists _, first_refusal ?a = Some _, H : ?c = true |- _ =>
             destruct (IH H) as [? ->]; clear IH
           end;
    try (destruct (first_refusal _)); eauto.
Qed.


Lemma first_refusal_message (phi : Expr) (msg : option string) :
  first_refusal phi = Some msg ->
  contains_everywhere phi = false ->
  msg = Some escape_message.
Proof.
  induction phi; simpl; intros H He; try discriminate; auto;
    try (apply orb_false_iff in He; destruct He as [He1 He2]);
    try (destruct (first_refusal phi1) eqn:E1; [injection H as ->; auto | auto]);
    try (destruct (first_refusal phi) eqn:E; [injection H as ->; auto | now injection H as <-]).
Qed.

Lemma first_refusal_values (phi : Expr) (msg : option string) :
  first_refusal phi = Some msg -> msg = None \/ msg = Some escape_message.
Proof.
  induction phi; simpl; intros H; try discriminate; auto;
    try (destruct (first_refusal phi1) eqn:E1; [injection H as ->; auto | auto]);
    try (destruct (first_refusal phi) eqn:E; [injection H as ->; auto | injection H as <-; auto]).
Qed.

(** C4, as amended: compiling a formula that contains an [EscapeOp], through
    [from_strel_expr] or [make_bool_automaton], raises [NotImplementedError]
    and returns no automaton.  The error is the one of the first refused
    operator of the traversal: it carries the escape message, or it is the
    [NotImplementedError()] without message of an [EverywhereOp] met first;
    it carries the escape message whenever the formula has no
    [EverywhereOp]. *)
Theorem escape_compilation_raises (fuel : nat) (phi : Expr) (max_locs : Z)
    (dist_attr : option string) :
  contains_escape phi = true ->
  visit_depth phi <= fuel ->
  (0 < max_locs)%Z ->
  exists msg,
    from_strel_expr fuel phi max_locs dist_attr = Raise (NotImplementedError msg)
    /\ make_bool_automaton fuel phi max_locs dist_attr = Raise (NotImplementedError msg)
    /\ first_refusal phi = Some msg
    /\ (msg = Some escape_message \/ (msg = None /\ contains_everywhere phi = true))
    /\ (contains_everywhere phi = false -> msg = Some escape_message).
Proof.
  intros Hc Hd Hn.
  destruct (first_refusal_escape phi Hc) as [msg Hmsg].
  exists msg.
  assert (H : forall attr, from_strel_expr fuel phi max_locs attr
                           = Raise (NotImplementedError msg)).
  { intros attr. unfold from_strel_expr, ExprMapper_init.
    destruct (Z.ltb_spec 0 max_locs); [|lia]. cbn [bind].
    match goal with
    | |- context [visit fuel phi ?m0] => pose proof (@visit_outcome fuel phi m0 Hd) as H0
    end.
    rewrite Hmsg in H0. rewrite H0. reflexivity. }
  split; [apply H|]. split; [unfold make_bool_automaton; apply H|].
  split; [exact Hmsg|]. split.
  - destruct (contains_everywhere phi) eqn:He.
    + destruct (first_refusal_values phi Hmsg) as [->| ->]; auto.
    + left. now apply (first_refusal_message phi).
  - intros He. now apply (first_refusal_message phi).
Qed.

(** ** Accepting states *)

(** The negation of an eventually or an until that has no interval or an
    untimed one. *)
Definition negated_untimed (psi : Expr) : Prop :=
  exists interval,
    ((exists arg, psi = NotOp (EventuallyOp interval arg))
     \/ (exists lhs rhs, psi = NotOp (UntilOp lhs interval rhs)))
    /\ (interval = None \/ exists i, interval = Some i /\ is_untimed i = true).

Lemma _is_accepting_spec (init psi : Expr) :
  _is_accepting init psi = true <-> psi = init \/ negated_untimed psi.
Proof.
  unfold _is_accepting, negated_untimed. rewrite orb_true_iff. split.
  - intros [H|H].
    + right. destruct psi; try discriminate. destruct psi; try discriminate;
        exists interval; (split; [eauto|]);
        (destruct interval as [i|]; [right; eauto | now left]).
    + left. destruct (Expr_dec psi init); [assumption|discriminate].
  - intros [->|(interval & [[arg ->]|(lhs & rhs & ->)] & [->|(i & -> & Hi)])].
    + right. destruct (Expr_dec init init); [reflexivity|contradiction].
    + now left.
    + now left.
    + now left.
    + now left.
Qed.

(** C5: after construction, a state is accepting iff its formula is the
    initial expression or the negation of an eventually or until with no
    interval or an untimed interval. *)
Theorem accepting_states_spec (init : Expr) (ts : Transitions) (vnm : dict string Q)
    (aut : StrelAutomaton) (psi : Expr) (loc : Location) :
  StrelAutomaton_init init ts vnm = Ok aut ->
  In (psi, loc) (states aut) ->
  (In (psi, loc) (accepting_states aut) <-> psi = init \/ negated_untimed psi).
Proof.
  intros H Hin. apply StrelAutomaton_init_Ok in H.
  destruct H as (Hset & Hts & _ & _ & Hacc).
  unfold states in Hin. rewrite Hts in Hin.
  rewrite Hacc, filter_In. cbn [fst]. rewrite _is_accepting_spec.
  pose proof (set_eqb_In _ _ Hset (psi, loc)) as Hk. tauto.
Qed.

(** ** Table consistency *)

(** C6: after a successful compile pass the transitions map and the map of
    the declared variables have the same set of state keys, so the
    assertion of the constructor holds. *)
Theorem table_keys_agree (fuel : nat) (phi : Expr) (max_locs : Z)
    (dist_attr : option string) (m0 m : ExprMapper) :
  ExprMapper_init max_locs dist_attr = Ok m0 ->
  visit fuel phi m0 = Ok m ->
  (forall q : Q,
      In q (dict_keys (transitions (_transitions m)))
      <-> In q (dict_keys (const_mapping (_transitions m))))
  /\ set_eqb (dict_keys (transitions (_transitions m)))
             (dict_keys (const_mapping (_transitions m))) = true.
Proof.
  intros Hinit Hvisit.
  apply ExprMapper_init_invariants in Hinit. destruct Hinit as (Hk & _ & _).
  apply (@visit_same_keys _ _ _ _ Hvisit) in Hk. unfold same_keys in Hk.
  rewrite Hk. split; [tauto | apply set_eqb_refl].
Qed.

(** ** What a compiled table holds *)

Lemma dict_get_In (K V : Type) (K_dec : forall x y : K, {x = y} + {x <> y}) (k : K)
    (d : dict K V) :
  In k (dict_keys d) -> exists v, dict_get K_dec k d = Some v.
Proof.
  intros H. apply (proj2 (dict_mem_In K_dec _ _)) in H. unfold dict_mem in H.
  destruct (dict_get K_dec k d) as [v|]; [eauto | discriminate].
Qed.

Lemma dict_get_not_In (K V : Type) (K_dec : forall x y : K, {x = y} + {x <> y}) (k : K)
    (d : dict K V) :
  ~ In k (dict_keys d) -> dict_get K_dec k d = None.
Proof.
  intros H. destruct (dict_get K_dec k d) as [v|] eqn:E; [|reflexivity].
  exfalso. apply H. apply (proj1 (dict_mem_In K_dec _ _)). unfold dict_mem. now rewrite E.
Qed.

Lemma canonical_reach (a : string) (psi lhs rhs : Expr) (d1 d2 : W) (attr : string) :
  canonical a psi = Some (LamReach lhs rhs d1 d2 attr) ->
  attr = a
  /\ exists interval,
      psi = ReachOp lhs interval rhs
      /\ d1 = py_or (d_start interval) w0
      /\ d2 = py_or (d_end interval) winf.
Proof.
  destruct psi; simpl;
    repeat match goal with
           | |- context [match ?x with _ => _ end] => destruct x
           end;
    intros H; try discriminate.
  injection H as <- <- <- <- <-. eauto.
Qed.

(** What [from_strel_expr] guarantees about its result. *)
Lemma from_strel_expr_invariants (fuel : nat) (phi : Expr) (n : Z) (attr : option string)
    (aut : StrelAutomaton) :
  from_strel_expr fuel phi n attr = Ok aut ->
  exists m,
    aut_transitions aut = _transitions m
    /\ initial_expr aut = phi
    /\ max_locs m = n
    /\ dist_attr m = match attr with
                     | Some s => if string_dec s EmptyString then "weight"%string else s
                     | None => "weight"%string
                     end
    /\ same_keys m /\ table_canonical m /\ aliases_derived m
    /\ exists m0, ExprMapper_init n attr = Ok m0 /\ visit fuel phi m0 = Ok m.
Proof.
  intros H. apply from_strel_expr_Ok in H. destruct H as (m0 & m & Hinit & Hvisit & Haut).
  exists m. apply StrelAutomaton_init_Ok in Haut. destruct Haut as (_ & Hts & Hi & _ & _).
  pose proof (ExprMapper_init_invariants _ _ Hinit) as (Hk & Hc & Ha).
  pose proof (ExprMapper_init_Ok _ _ Hinit) as (_ & Hn & Hattr & _).
  split; [exact Hts|]. split; [exact Hi|].
  split; [rewrite (@visit_max_locs _ _ _ _ Hvisit); exact Hn|].
  split; [rewrite (@visit_dist_attr _ _ _ _ Hvisit); exact Hattr|].
  split; [exact (@visit_same_keys _ _ _ _ Hvisit Hk)|].
  split; [exact (@visit_table_canonical _ _ _ _ Hvisit Hc)|].
  split; [exact (@visit_aliases_derived _ _ _ _ Hvisit Ha)|].
  eauto.
Qed.

Lemma compiled_reach_attr (fuel : nat) (phi : Expr) (n : Z) (a : option string)
    (aut : StrelAutomaton) (q : Q) (lhs rhs : Expr) (d1 d2 : W) (attr : string)
    (loc : Location) :
  from_strel_expr fuel phi n a = Ok aut ->
  dict_get Q_dec q (transitions (aut_transitions aut))
  = Some (LamReach lhs rhs d1 d2 attr, loc) ->
  attr = match a with
         | Some s => if string_dec s EmptyString then "weight"%string else s
         | None => "weight"%string
         end.
Proof.
  intros H Hq. apply from_strel_expr_invariants in H.
  destruct H as (m & Hts & _ & _ & Hattr & _ & Hc & _).
  rewrite Hts in Hq. apply Hc in Hq. destruct Hq as [Hq _]. cbn [fst] in Hq.
  apply canonical_reach in Hq. destruct Hq as [-> _]. exact Hattr.
Qed.

(** C8, as amended: [from_strel_expr] called without a distance attribute
    (or with the empty string) makes every reach transition read edge
    distances under ["weight"]; [make_bool_automaton] called without one makes
    them read ["hop"]; a non-empty attribute given by the caller is used as
    it is. *)
Theorem dist_attr_defaults (fuel : nat) (phi : Expr) (max_locs : Z) (aut : StrelAutomaton)
    (q : Q) (lhs rhs : Expr) (d1 d2 : W) (attr : string) (loc : Location) :
  dict_get Q_dec q (transitions (aut_transitions aut))
  = Some (LamReach lhs rhs d1 d2 attr, loc) ->
  (from_strel_expr fuel phi max_locs None = Ok aut -> attr = "weight"%string)
  /\ (from_strel_expr fuel phi max_locs (Some EmptyString) = Ok aut -> attr = "weight"%string)
  /\ (make_bool_automaton fuel phi max_locs None = Ok aut -> attr = "hop"%string)
  /\ (forall s, s <> EmptyString ->
                (from_strel_expr fuel phi max_locs (Some s) = Ok aut -> attr = s)
                /\ (make_bool_automaton fuel phi max_locs (Some s) = Ok aut -> attr = s)).
Proof.
  intros Hq. repeat split.
  - intros H. exact (@compiled_reach_attr _ _ _ _ _ _ _ _ _ _ _ _ H Hq).
  - intros H. exact (@compiled_reach_attr _ _ _ _ _ _ _ _ _ _ _ _ H Hq).
  - unfold make_bool_automaton. intros H. exact (@compiled_reach_attr _ _ _ _ _ _ _ _ _ _ _ _ H Hq).
  - intros H'. pose proof (@compiled_reach_attr _ _ _ _ _ _ _ _ _ _ _ _ H' Hq) as E.
    revert E. cbv beta iota. destruct (string_dec s EmptyString); [contradiction | auto].
  - unfold make_bool_automaton. intros H'.
    pose proof (@compiled_reach_attr _ _ _ _ _ _ _ _ _ _ _ _ H' Hq) as E.
    revert E. cbv beta iota. destruct (string_dec s EmptyString); [contradiction | auto].
Qed.


(** ** Next with a step count below one *)

Lemma py_range_down_nil (start stop : Z) :
  (start <= stop)%Z -> py_range_down start stop = [].
Proof.
  intros H. unfold py_range_down.
  replace (Z.to_nat (start - stop)) with 0 by lia. reflexivity.
Qed.

Lemma StrelAutomaton_init_total (init : Expr) (m : ExprMapper) :
  same_keys m ->
  const_mapping (_transitions m) <> [] ->
  exists aut, StrelAutomaton_init init (_transitions m) (var_node_map m) = Ok aut.
Proof.
  intros Hk Hne. unfold StrelAutomaton_init. unfold same_keys in Hk.
  rewrite Hk, set_eqb_refl.
  destruct (const_mapping (_transitions m)) as [|[q p] d]; [contradiction|].
  simpl. eauto.
Qed.

(** C7, as amended: compiling [NextOp(n, a)] with [n <= 0] raises nothing:
    when [a] compiles, an automaton is returned that has the states of
    [NextOp(1, a)] and none for [NextOp(n, a)] itself, so that asking for its
    initial polynomial raises [KeyError]. *)
Theorem next_nonpositive_steps_compiles (fuel : nat) (steps : Z) (arg : Expr) (n : Z)
    (a : option string) :
  (steps <= 0)%Z ->
  first_refusal arg = None ->
  visit_depth (NextOp (Some steps) arg) <= fuel ->
  (0 < n)%Z ->
  exists aut,
    from_strel_expr fuel (NextOp (Some steps) arg) n a = Ok aut
    /\ (forall loc, (Z.of_nat loc < n)%Z -> In (NextOp (Some 1%Z) arg, loc) (states aut))
    /\ (forall loc, ~ In (NextOp (Some steps) arg, loc) (states aut))
    /\ (forall loc, initial_at aut loc = Raise KeyError).
Proof.
  intros Hsteps Harg Hd Hn.
  destruct fuel as [|fuel]; [simpl in Hd; lia|].
  assert (Ha : visit_depth arg <= fuel) by (simpl in Hd; lia).
  destruct (ExprMapper_init n a) as [m0|e] eqn:Hinit;
    [|unfold ExprMapper_init in Hinit; destruct (Z.ltb_spec 0 n); [discriminate | lia]].
  pose proof (@visit_outcome fuel arg m0 Ha) as H1. rewrite Harg in H1.
  destruct H1 as [m1 H1].
  set (phi := NextOp (Some steps) arg).
  set (m := _add_transition (NextOp (Some 1%Z) arg) (LamVar arg) m1).
  assert (Hvisit : visit (S fuel) phi m0 = Ok m).
  { unfold phi. rewrite visit_S, H1. cbn [bind]. unfold _expand_add_next.
    rewrite py_range_down_nil by lia. reflexivity. }
  pose proof (ExprMapper_init_invariants _ _ Hinit) as (Hk0 & Hc0 & Ha0).
  pose proof (ExprMapper_init_Ok _ _ Hinit) as (_ & Hn0 & _).
  pose proof (@visit_same_keys _ _ _ _ Hvisit Hk0) as Hk.
  pose proof (@visit_table_canonical _ _ _ _ Hvisit Hc0) as Hc.
  pose proof (@visit_aliases_derived _ _ _ _ Hvisit Ha0) as Hal.
  assert (Hone : forall loc, (Z.of_nat loc < n)%Z ->
                             In (NextOp (Some 1%Z) arg, loc)
                                (dict_keys (const_mapping (_transitions m)))).
  { intros loc Hloc. unfold m. apply add_transition_keys.
    rewrite (@visit_max_locs _ _ _ _ H1). lia. }
  assert (Hnone : forall loc, ~ In (phi, loc) (dict_keys (const_mapping (_transitions m)))).
  { intros loc Hin. unfold same_keys in Hk. rewrite <- Hk in Hin.
    apply (dict_get_In Q_dec) in Hin. destruct Hin as [fn Hget].
    apply Hc in Hget. destruct Hget as [Hcan _]. unfold phi in Hcan. simpl in Hcan.
    destruct (Z.ltb_spec 1 steps); [lia|].
    destruct (Z.eqb_spec steps 1); [lia | discriminate]. }
  destruct (@StrelAutomaton_init_total phi m Hk) as [aut Haut].
  { intros Hnil. specialize (Hone 0%nat ltac:(lia)). rewrite Hnil in Hone. exact Hone. }
  exists aut.
  pose proof (StrelAutomaton_init_Ok _ _ _ Haut) as (_ & Hts & Hi & _ & _).
  split; [|split; [|split]].
  - unfold from_strel_expr. rewrite Hinit. cbn [bind]. fold phi. rewrite Hvisit. exact Haut.
  - intros loc Hloc. unfold states. rewrite Hts. now apply Hone.
  - intros loc. unfold states. rewrite Hts. apply Hnone.
  - intros loc. unfold initial_at, get_var, chase_alias. rewrite Hts, Hi. cbn [fst snd].
    rewrite (@dict_get_not_In _ _ Expr_dec phi (aliases (_transitions m))).
    + cbn [fst]. unfold phi at 1. cbv iota. fold phi.
      rewrite (@dict_get_not_In _ _ Q_dec (phi, loc) (const_mapping (_transitions m)));
        [reflexivity | apply Hnone].
    + intros Hin. apply Hal in Hin. discriminate.
Qed.

(** * The tables in detail *)

(** The rewrite that the visitor records for a derived operator, read off
    the expansion that handles it ([_expand_add_globally],
    [_expand_add_eventually], [_expand_add_until], [_expand_add_somewhere],
    [_expand_add_everywhere]). *)
Definition alias_of (phi : Expr) : option Expr :=
  match phi with
  | GloballyOp interval arg => Some (invert (EventuallyOp interval (invert arg)))
  | EventuallyOp (Some {| t_start := Some t1; t_end := e |}) arg =>
    match t1, e with
    | 0%Z, _ => None
    | _, None => Some (NextOp (Some t1) (EventuallyOp None arg))
    | _, Some t2 =>
      Some (NextOp (Some t1)
              (EventuallyOp (Some {| t_start := Some 0%Z; t_end := Some (t2 - t1)%Z |}) arg))
    end
  | UntilOp lhs (Some {| t_start := Some t1; t_end := e |}) rhs =>
    match t1, e with
    | 0%Z, None => None
    | _, None =>
      Some (invert (EventuallyOp (Some {| t_start := Some 0%Z; t_end := Some t1 |})
                                 (invert (UntilOp lhs None rhs))))
    | _, Some _ =>
      Some (AndOp (EventuallyOp (Some {| t_start := Some t1; t_end := e |}) rhs)
                  (UntilOp lhs (Some {| t_start := Some t1; t_end := None |}) rhs))
    end
  | SomewhereOp interval arg => Some (ReachOp strel_true interval arg)
  | EverywhereOp interval arg => Some (invert (SomewhereOp interval (invert arg)))
  | _ => None
  end.

(** Every recorded alias is the rewrite of its key. *)
Definition aliases_exact (m : ExprMapper) : Prop :=
  forall phi e, dict_get Expr_dec phi (aliases (_transitions m)) = Some e -> alias_of phi = Some e.

(** A formula that gets a transition of its own is never rewritten. *)
Lemma canonical_not_aliased (attr : string) (phi : Expr) (c : Closure) :
  canonical attr phi = Some c -> alias_of phi = None.
Proof.
  destruct phi; simpl; try discriminate; try reflexivity;
    destruct interval as [[[[|t1|t1]|] [t2|]]|]; simpl; try discriminate; reflexivity.
Qed.

(** A rewrite is never itself rewritten. *)
Lemma alias_of_target (phi e : Expr) : alias_of phi = Some e -> alias_of e = None.
Proof.
  destruct phi; simpl; try discriminate.
  - destruct interval as [[[[|t1|t1]|] [t2|]]|]; intros [= <-]; reflexivity.
  - intros [= <-]. reflexivity.
  - destruct interval as [[[[|t1|t1]|] [t2|]]|]; intros [= <-]; reflexivity.
  - intros [= <-]. reflexivity.
  - intros [= <-]. reflexivity.
Qed.

Section Installs.
(** A property of the mapper that is kept by every call of [_add_transition]
    with the function of its key and by every call of [_add_expr_alias] with
    the rewrite of its key. *)
Variable P : ExprMapper -> Prop.
Hypothesis P_transition :
  forall phi c m, canonical (dist_attr m) phi = Some c -> P m -> P (_add_transition phi c m).
Hypothesis P_alias :
  forall phi e m, alias_of phi = Some e -> P m -> P (_add_expr_alias phi e m).

Lemma installs_expand_add_next (steps : option Z) (arg : Expr) (m : ExprMapper) :
  P m -> P (_expand_add_next steps arg m).
Proof.
  intros Hm. unfold _expand_add_next.
  apply P_transition; [reflexivity|].
  apply (@P_fold_Z P); [|exact Hm].
  intros m' i Hi Hm'. apply py_range_down_In in Hi.
  apply P_transition; [|exact Hm'].
  simpl. destruct (Z.ltb_spec 1 i); [reflexivity | lia].
Qed.

Section InstallsWithVisit.
Variable vis : Expr -> ExprMapper -> result ExprMapper.
Hypothesis vis_P : forall phi m m', vis phi m = Ok m' -> P m -> P m'.

Lemma installs_expand_add_eventually interval arg m m' :
  _expand_add_eventually vis interval arg m = Ok m' -> P m -> P m'.
Proof.
  intros H Hm.
  assert (Hb : forall t2 m0, P m0 ->
    P (fold_left
         (fun m i =>
            let expr := EventuallyOp (Some {| t_start := Some 0%Z; t_end := Some i |}) arg in
            let sub_expr :=
              if (1 <? i)%Z
              then EventuallyOp (Some {| t_start := Some 0%Z; t_end := Some (i - 1)%Z |}) arg
              else arg in
            _add_transition expr (LamEventually arg sub_expr) m)
         (py_range_down t2 0) m0)).
  { intros t2 m0 Hm0. apply (@P_fold_Z P); [|exact Hm0].
    intros m1 i Hi Hm1. apply py_range_down_In in Hi. cbv zeta.
    apply P_transition; [|exact Hm1]. simpl.
    destruct (Z.ltb_spec 1 i); [reflexivity|].
    destruct (Z.eqb_spec i 1); [reflexivity | lia]. }
  unfold _expand_add_eventually in H.
  destruct interval as [[[[|t1|t1]|] [t2|]]|]; cbv zeta in H; inv_bind;
    try (apply Hb; exact Hm);
    try (apply P_transition; [reflexivity | exact Hm]);
    try (apply P_alias; [reflexivity | eapply vis_P; eassumption]).
Qed.

Lemma installs_expand_add_globally interval arg m m' :
  _expand_add_globally vis interval arg m = Ok m' -> P m -> P m'.
Proof.
  unfold _expand_add_globally. cbv zeta. intros H Hm. inv_bind.
  apply P_alias; [reflexivity | eapply vis_P; eassumption].
Qed.

Lemma installs_expand_add_until lhs interval rhs m m' :
  _expand_add_until vis lhs interval rhs m = Ok m' -> P m -> P m'.
Proof.
  intros H Hm. unfold _expand_add_until in H.
  destruct interval as [[[[|t1|t1]|] [t2|]]|]; cbv zeta in H; inv_bind;
    try exact Hm;
    try (apply P_transition; [reflexivity | exact Hm]);
    try (apply P_alias; [reflexivity | eapply vis_P; eassumption]).
Qed.

Lemma installs_expand_add_somewhere interval arg m m' :
  _expand_add_somewhere vis interval arg m = Ok m' -> P m -> P m'.
Proof.
  unfold _expand_add_somewhere. cbv zeta. intros H Hm. inv_bind.
  apply P_alias; [reflexivity | eapply vis_P; eassumption].
Qed.

End InstallsWithVisit.

(** The visitor keeps the property. *)
Lemma visit_installs (fuel : nat) :
  forall phi m m', visit fuel phi m = Ok m' -> P m -> P m'.
Proof.
  induction fuel as [|fuel IH]; intros phi m m' H Hm; [discriminate|].
  rewrite visit_S in H.
  destruct phi; inv_bind;
    repeat match goal with
           | E : visit fuel _ _ = Ok _ |- _ => apply IH in E; [|assumption]
           end;
    try exact Hm;
    try (apply P_transition; [reflexivity | assumption]).
  all: first [ now apply installs_expand_add_next
             | eapply installs_expand_add_eventually; now eauto
             | eapply installs_expand_add_globally; now eauto
             | eapply installs_expand_add_until; now eauto
             | eapply installs_expand_add_somewhere; now eauto ].
Qed.

End Installs.

(** ** Instances: aliases, locations, names *)

(** The rounds of the loop of [_add_transition] run over the locations below
    [max_locs]. *)
Lemma add_transition_rounds (R : ExprMapper -> Prop) (phi : Expr) (c : Closure)
    (m : ExprMapper) :
  (forall m' loc,
      max_locs m' = max_locs m -> dist_attr m' = dist_attr m ->
      (Z.of_nat loc < max_locs m)%Z ->
      R m' -> R (add_transition_at phi c m' loc)) ->
  R m -> R (_add_transition phi c m).
Proof.
  intros Hstep Hm. unfold _add_transition.
  assert (Hlocs : forall loc, In loc (py_range (max_locs m)) -> (Z.of_nat loc < max_locs m)%Z).
  { intros loc Hin. apply in_seq in Hin. lia. }
  revert Hlocs. generalize (py_range (max_locs m)) as locs. intros locs.
  assert (Hgen : forall m', max_locs m' = max_locs m -> dist_attr m' = dist_attr m -> R m' ->
                            (forall loc, In loc locs -> (Z.of_nat loc < max_locs m)%Z) ->
                            R (fold_left (add_transition_at phi c) locs m')).
  { induction locs as [|loc locs IH]; intros m' Hn Ha Hm' Hlocs; simpl; [exact Hm'|].
    apply IH; try assumption.
    - apply Hstep; try assumption. apply Hlocs. now left.
    - intros l Hl. apply Hlocs. now right. }
  intros Hlocs. now apply Hgen.
Qed.

Lemma add_expr_alias_rounds (R : ExprMapper -> Prop) (phi e : Expr) (m : ExprMapper) :
  (forall m' loc, R m' -> R (add_expr_alias_at phi e m' loc)) ->
  R m -> R (_add_expr_alias phi e m).
Proof.
  intros Hstep. unfold _add_expr_alias. generalize (py_range (max_locs m)) as locs.
  intros locs. revert m. induction locs as [|loc locs IH]; intros m Hm; simpl; [exact Hm|].
  apply IH. now apply Hstep.
Qed.

Ltac case_mem :=
  match goal with
  | |- context [if ?b then _ else _] =>
    lazymatch b with
    | dict_mem _ _ _ => destruct b eqn:?; cbv iota
    end
  end.

Lemma add_transition_max_locs (phi : Expr) (c : Closure) (m : ExprMapper) :
  max_locs (_add_transition phi c m) = max_locs m.
Proof. now apply (@add_transition_rounds (fun x => max_locs x = max_locs m)). Qed.

Lemma add_expr_alias_max_locs (phi e : Expr) (m : ExprMapper) :
  max_locs (_add_expr_alias phi e m) = max_locs m.
Proof. now apply (@add_expr_alias_rounds (fun x => max_locs x = max_locs m)). Qed.

Lemma visit_aliases_exact (fuel : nat) (phi : Expr) (m m' : ExprMapper) :
  visit fuel phi m = Ok m' -> aliases_exact m -> aliases_exact m'.
Proof.
  apply visit_installs.
  - intros psi c m0 _. apply add_transition_rounds. intros m1 loc _ _ _ H. exact H.
  - intros psi e m0 He. apply add_expr_alias_rounds. intros m1 loc H chi e'.
    cbn [add_expr_alias_at _transitions aliases]. rewrite setdefault_get.
    destruct (dict_get Expr_dec chi _) eqn:E.
    + intros [= <-]. now apply H.
    + destruct (Expr_dec chi psi) as [->|]; [|discriminate]. intros [= <-]. exact He.
Qed.

(** Every state sits at a location below [max_locs]. *)
Definition states_in_range (m : ExprMapper) : Prop :=
  forall q, In q (dict_keys (const_mapping (_transitions m))) ->
            (Z.of_nat (snd q) < max_locs m)%Z.

Lemma visit_states_in_range (fuel : nat) (phi : Expr) (m m' : ExprMapper) :
  visit fuel phi m = Ok m' -> states_in_range m -> states_in_range m'.
Proof.
  apply visit_installs.
  - intros psi c m0 _ H0.
    apply (@add_transition_rounds
             (fun x => max_locs x = max_locs m0 /\ states_in_range x)); [|now split].
    intros m1 loc Hn _ Hloc [_ H]. split; [exact Hn|]. intros q.
    unfold states_in_range in H.
    cbn [add_transition_at _transitions const_mapping max_locs]. rewrite setdefault_keys.
    case_mem; [apply H|].
    intros Hin. apply in_app_or in Hin. destruct Hin as [Hin|[<-|[]]]; [now apply H|].
    cbn [snd]. lia.
  - intros psi e m0 _. apply add_expr_alias_rounds. intros m1 loc H. exact H.
Qed.

(** The variable declared for a state is the one named after it. *)
Definition vars_named (m : ExprMapper) : Prop :=
  forall q p, dict_get Q_dec q (const_mapping (_transitions m)) = Some p ->
              p = PVar (_make_q_str q).

Lemma visit_vars_named (fuel : nat) (phi : Expr) (m m' : ExprMapper) :
  visit fuel phi m = Ok m' -> vars_named m -> vars_named m'.
Proof.
  apply visit_invariant.
  - intros psi c m0 loc _ H q p0. unfold vars_named in H.
    cbn [add_transition_at _transitions const_mapping]. rewrite setdefault_get.
    destruct (dict_get Q_dec q _) eqn:E.
    + intros [= <-]. now apply H.
    + destruct (Q_dec q (psi, loc)) as [->|]; [|discriminate]. intros [= <-]. reflexivity.
  - intros psi e m0 loc _ H. exact H.
Qed.

(** [var_node_map] sends a name to a state that prints to this name, and has
    the name of every state. *)
Definition names_resolve (m : ExprMapper) : Prop :=
  (forall name q0, dict_get string_dec name (var_node_map m) = Some q0 -> _make_q_str q0 = name)
  /\ (forall q, In q (dict_keys (const_mapping (_transitions m))) ->
                In (_make_q_str q) (dict_keys (var_node_map m))).

Lemma visit_names_resolve (fuel : nat) (phi : Expr) (m m' : ExprMapper) :
  visit fuel phi m = Ok m' -> names_resolve m -> names_resolve m'.
Proof.
  apply visit_invariant.
  - intros psi c m0 loc _ [H1 H2]. split.
    + intros name q0. cbn [add_transition_at var_node_map]. rewrite setdefault_get.
      destruct (dict_get string_dec name _) eqn:E.
      * intros [= <-]. now apply H1.
      * destruct (string_dec name _) as [->|]; [|discriminate]. intros [= <-]. reflexivity.
    + intros q. cbn [add_transition_at _transitions const_mapping var_node_map].
      rewrite !setdefault_keys. intros Hin.
      assert (Hq : In q (dict_keys (const_mapping (_transitions m0))) \/ q = (psi, loc)).
      { revert Hin. case_mem; intros Hin; [now left|].
        apply in_app_or in Hin. destruct Hin as [Hin|[<-|[]]]; auto. }
      clear Hin. case_mem.
      * destruct Hq as [Hq| ->]; [now apply H2|].
        match goal with E : dict_mem _ _ _ = true |- _ =>
          apply (proj1 (dict_mem_In _ _ _)) in E; exact E end.
      * apply in_or_app. destruct Hq as [Hq| ->]; [left; now apply H2 | right; now left].
  - intros psi e m0 loc _ [H1 H2]. split.
    + intros name q0. cbn [add_expr_alias_at var_node_map]. rewrite setdefault_get.
      destruct (dict_get string_dec name _) eqn:E.
      * intros [= <-]. now apply H1.
      * destruct (string_dec name _) as [->|]; [|discriminate]. intros [= <-]. reflexivity.
    + intros q Hq. cbn [add_expr_alias_at _transitions const_mapping var_node_map] in *.
      rewrite setdefault_keys. apply H2 in Hq.
      case_mem; [exact Hq|].
      apply in_or_app. now left.
Qed.

(** The states of a formula come as a full row: one for each location below
    [max_locs]. *)
Definition rows_complete (m : ExprMapper) : Prop :=
  forall psi loc loc',
    In (psi, loc) (dict_keys (const_mapping (_transitions m))) ->
    (Z.of_nat loc' < max_locs m)%Z ->
    In (psi, loc') (dict_keys (const_mapping (_transitions m))).

Lemma add_transition_keys_inv (phi : Expr) (c : Closure) (m : ExprMapper) (q : Q) :
  In q (dict_keys (const_mapping (_transitions (_add_transition phi c m)))) ->
  In q (dict_keys (const_mapping (_transitions m))) \/ fst q = phi.
Proof.
  revert q.
  apply (@add_transition_rounds
           (fun x => forall q, In q (dict_keys (const_mapping (_transitions x))) ->
                               In q (dict_keys (const_mapping (_transitions m))) \/ fst q = phi));
    [|auto].
  intros m1 loc _ _ _ H q.
  cbn [add_transition_at _transitions const_mapping]. rewrite setdefault_keys.
  case_mem; [apply H|].
  intros Hin. apply in_app_or in Hin. destruct Hin as [Hin|[<-|[]]]; [now apply H | now right].
Qed.

Lemma add_transition_keeps (phi : Expr) (c : Closure) (m : ExprMapper) (q : Q) :
  In q (dict_keys (const_mapping (_transitions m))) ->
  In q (dict_keys (const_mapping (_transitions (_add_transition phi c m)))).
Proof. apply fold_add_transition_keeps. Qed.

Lemma add_expr_alias_const_mapping (phi e : Expr) (m : ExprMapper) :
  const_mapping (_transitions (_add_expr_alias phi e m)) = const_mapping (_transitions m).
Proof.
  now apply (@add_expr_alias_rounds
               (fun x => const_mapping (_transitions x) = const_mapping (_transitions m))).
Qed.

Lemma visit_rows_complete (fuel : nat) (phi : Expr) (m m' : ExprMapper) :
  visit fuel phi m = Ok m' -> rows_complete m -> rows_complete m'.
Proof.
  apply visit_installs.
  - intros psi c m0 _ H chi loc loc' Hin Hloc'.
    rewrite add_transition_max_locs in Hloc'.
    apply add_transition_keys_inv in Hin. destruct Hin as [Hin|Heq].
    + apply add_transition_keeps. now apply (H chi loc loc').
    + cbn [fst] in Heq. subst chi. now apply add_transition_keys.
  - intros psi e m0 _ H chi loc loc'.
    rewrite add_expr_alias_max_locs, add_expr_alias_const_mapping. apply H.
Qed.

(** ** Registering a formula twice *)

(** The entries of a formula at a location are there. *)
Definition present (phi : Expr) (loc : Location) (m : ExprMapper) : Prop :=
  dict_mem Q_dec (phi, loc) (transitions (_transitions m)) = true
  /\ dict_mem Q_dec (phi, loc) (const_mapping (_transitions m)) = true
  /\ dict_mem string_dec (py_str_tuple (Expr_str phi) loc) (var_node_map m) = true.

Lemma setdefault_mem (K V : Type) (K_dec : forall x y : K, {x = y} + {x <> y}) (k k' : K)
    (v : V) (d : dict K V) :
  dict_mem K_dec k' d = true \/ k' = k -> dict_mem K_dec k' (setdefault K_dec k v d) = true.
Proof.
  intros H. apply dict_mem_In. rewrite setdefault_keys.
  destruct (dict_mem K_dec k d) eqn:E.
  - destruct H as [H| ->]; [apply (proj1 (dict_mem_In K_dec _ _) H)|].
    apply (proj1 (dict_mem_In K_dec _ _) E).
  - apply in_or_app. destruct H as [H| ->]; [left | right; now left].
    apply (proj1 (dict_mem_In K_dec _ _) H).
Qed.

Lemma setdefault_same (K V : Type) (K_dec : forall x y : K, {x = y} + {x <> y}) (k : K)
    (v : V) (d : dict K V) :
  dict_mem K_dec k d = true -> setdefault K_dec k v d = d.
Proof. intros H. unfold setdefault. now rewrite H. Qed.

Lemma add_transition_at_present (phi : Expr) (c : Closure) (m : ExprMapper)
    (loc loc' : Location) :
  present phi loc' m \/ loc' = loc -> present phi loc' (add_transition_at phi c m loc).
Proof.
  unfold present. cbn [add_transition_at _transitions transitions const_mapping var_node_map].
  intros [(H1 & H2 & H3)| ->]; repeat split; apply setdefault_mem; auto.
Qed.

Lemma fold_add_transition_present (phi : Expr) (c : Closure) (locs : list Location) :
  forall m loc,
    present phi loc m \/ In loc locs ->
    present phi loc (fold_left (add_transition_at phi c) locs m).
Proof.
  induction locs as [|l locs IH]; intros m loc H; cbn [fold_left].
  - destruct H as [H|[]]. exact H.
  - apply IH. destruct H as [H|[<-|H]]; [| |now right]; left; apply add_transition_at_present;
      auto.
Qed.

(** X15: registering a formula a second time.  A second call of
    [_add_transition] for the same formula, with whatever function, leaves
    the transition table, the map of the declared variables, [var_node_map]
    and the alias map as the first call left them (the first function stays);
    only [declare] is called once more for every location. *)
Theorem add_transition_twice (phi : Expr) (c c' : Closure) (m : ExprMapper) :
  transitions (_transitions (_add_transition phi c' (_add_transition phi c m)))
  = transitions (_transitions (_add_transition phi c m))
  /\ const_mapping (_transitions (_add_transition phi c' (_add_transition phi c m)))
     = const_mapping (_transitions (_add_transition phi c m))
  /\ var_node_map (_add_transition phi c' (_add_transition phi c m))
     = var_node_map (_add_transition phi c m)
  /\ aliases (_transitions (_add_transition phi c' (_add_transition phi c m)))
     = aliases (_transitions (_add_transition phi c m))
  /\ manager (_transitions (_add_transition phi c' (_add_transition phi c m)))
     = manager (_transitions (_add_transition phi c m))
       ++ map (py_str_tuple (Expr_str phi)) (py_range (max_locs m)).
Proof.
  set (m1 := _add_transition phi c m).
  assert (Hpresent : forall loc, In loc (py_range (max_locs m)) -> present phi loc m1).
  { intros loc Hloc. unfold m1, _add_transition. apply fold_add_transition_present. now right. }
  unfold _add_transition.
  replace (max_locs m1) with (max_locs m) by (symmetry; apply add_transition_max_locs).
  revert Hpresent. generalize (py_range (max_locs m)) as locs. intros locs Hpresent.
  assert (Hgen : forall x,
             transitions (_transitions x) = transitions (_transitions m1) ->
             const_mapping (_transitions x) = const_mapping (_transitions m1) ->
             var_node_map x = var_node_map m1 ->
             aliases (_transitions x) = aliases (_transitions m1) ->
             let y := fold_left (add_transition_at phi c') locs x in
             transitions (_transitions y) = transitions (_transitions m1)
             /\ const_mapping (_transitions y) = const_mapping (_transitions m1)
             /\ var_node_map y = var_node_map m1
             /\ aliases (_transitions y) = aliases (_transitions m1)
             /\ manager (_transitions y)
                = manager (_transitions x) ++ map (py_str_tuple (Expr_str phi)) locs).
  { induction locs as [|loc locs IH]; intros x H1 H2 H3 H4; cbn [fold_left map].
    - cbv zeta. rewrite app_nil_r. auto.
    - destruct (Hpresent loc (or_introl eq_refl)) as (P1 & P2 & P3).
      assert (Hlocs : forall l, In l locs -> present phi l m1)
        by (intros l Hl; apply Hpresent; now right).
      specialize (IH Hlocs (add_transition_at phi c' x loc)). cbv zeta in IH.
      destruct IH as (I1 & I2 & I3 & I4 & I5).
      + cbn [add_transition_at _transitions transitions]. rewrite H1.
        apply setdefault_same. exact P1.
      + cbn [add_transition_at _transitions const_mapping]. rewrite H2.
        apply setdefault_same. exact P2.
      + cbn [add_transition_at var_node_map]. rewrite H3.
        apply setdefault_same. exact P3.
      + exact H4.
      + cbv zeta. repeat split; try assumption.
        rewrite I5. cbn [add_transition_at _transitions manager]. now rewrite <- app_assoc. }
  now apply Hgen.
Qed.

(** ** The outcome of a compilation *)

(** Whether the visit of a formula adds a state to the tables: a constant
    adds none, an eventually over [[0, t2]] with [t2 <= 0] and an until
    whose interval has an end and no start add none of their own. *)
Fixpoint adds_state (phi : Expr) : bool :=
  match phi with
  | Constant _ => false
  | EventuallyOp interval arg =>
    adds_state arg
    || match interval with
       | Some {| t_start := None; t_end := Some t2 |} => (0 <? t2)%Z
       | Some {| t_start := Some 0%Z; t_end := Some t2 |} => (0 <? t2)%Z
       | _ => true
       end
  | UntilOp lhs interval rhs =>
    adds_state lhs || adds_state rhs
    || match interval with
       | Some {| t_start := None; t_end := Some _ |} => false
       | _ => true
       end
  | _ => true
  end.

Definition has_state (m : ExprMapper) : Prop :=
  exists q, In q (dict_keys (const_mapping (_transitions m))).

Lemma visit_has_state_kept (fuel : nat) (phi : Expr) (m m' : ExprMapper) :
  visit fuel phi m = Ok m' -> has_state m -> has_state m'.
Proof.
  intros H [q Hq]. exists q. exact (@visit_keeps_key _ _ _ _ q H Hq).
Qed.

Lemma add_transition_has_state (phi : Expr) (c : Closure) (m : ExprMapper) :
  (0 < max_locs m)%Z -> has_state (_add_transition phi c m).
Proof.
  intros H. exists (phi, 0). apply add_transition_keys. simpl. exact H.
Qed.

Lemma add_expr_alias_has_state (phi e : Expr) (m : ExprMapper) :
  has_state m -> has_state (_add_expr_alias phi e m).
Proof. unfold has_state. now rewrite add_expr_alias_const_mapping. Qed.

Lemma fold_Z_max_locs (f : ExprMapper -> Z -> ExprMapper) (l : list Z) (m : ExprMapper) :
  (forall x i, max_locs (f x i) = max_locs x) ->
  max_locs (fold_left f l m) = max_locs m.
Proof.
  intros Hf. revert m. induction l as [|i l IH]; intros m; simpl; [reflexivity|].
  now rewrite IH, Hf.
Qed.

Lemma fold_Z_has_state (f : ExprMapper -> Z -> ExprMapper) (l : list Z) (m : ExprMapper) :
  (forall x i, has_state x -> has_state (f x i)) ->
  has_state m -> has_state (fold_left f l m).
Proof.
  intros Hf. revert m. induction l as [|i l IH]; intros m Hm; simpl; [exact Hm|].
  apply IH. now apply Hf.
Qed.

Lemma add_transition_has_state_kept (phi : Expr) (c : Closure) (m : ExprMapper) :
  has_state m -> has_state (_add_transition phi c m).
Proof. intros [q Hq]. exists q. now apply add_transition_keeps. Qed.

Lemma py_range_down_cons (start stop : Z) :
  (stop < start)%Z -> py_range_down start stop = start :: py_range_down (start - 1) stop.
Proof.
  intros H. unfold py_range_down.
  replace (Z.to_nat (start - stop)) with (S (Z.to_nat (start - 1 - stop))) by lia.
  cbn [seq map]. f_equal; [lia|].
  rewrite <- seq_shift, map_map. apply map_ext. intros k. lia.
Qed.

(** A formula that adds no state leaves the mapper as it was. *)
Lemma visit_adds_nothing (fuel : nat) :
  forall phi m m', visit fuel phi m = Ok m' -> adds_state phi = false -> m' = m.
Proof.
  induction fuel as [|fuel IH]; intros phi m m' H Hadd; [discriminate|].
  rewrite visit_S in H.
  destruct phi; cbn [adds_state] in Hadd; try discriminate.
  - now injection H as <-.
  - apply orb_false_iff in Hadd. destruct Hadd as [Harg Hint].
    inv_bind. apply (IH _ _ _ E) in Harg. subst m0.
    unfold _expand_add_eventually in H.
    destruct interval as [[[[|t1|t1]|] [t2|]]|]; try discriminate; cbv zeta in H;
      (rewrite py_range_down_nil in H by (apply Z.ltb_ge in Hint; lia));
      now injection H as <-.
  - apply orb_false_iff in Hadd. destruct Hadd as [Hadd Hint].
    apply orb_false_iff in Hadd. destruct Hadd as [Hl Hr].
    inv_bind. apply (IH _ _ _ E) in Hl. subst m0. apply (IH _ _ _ E0) in Hr. subst m1.
    unfold _expand_add_until in H.
    destruct interval as [[[[|t1|t1]|] [t2|]]|]; try discriminate.
    now injection H as <-.
Qed.

Ltac keep_max_locs :=
  repeat match goal with
         | Hv : visit _ _ ?x = Ok ?y |- context [max_locs ?y] =>
           rewrite (@visit_max_locs _ _ _ _ Hv)
         end.

(** A formula that adds a state leaves the tables with one, as soon as there
    is a location. *)
Lemma visit_adds_state (fuel : nat) :
  forall phi m m',
    visit fuel phi m = Ok m' -> (0 < max_locs m)%Z -> adds_state phi = true -> has_state m'.
Proof.
  induction fuel as [|fuel IH]; intros phi m m' H Hn Hadd; [discriminate|].
  rewrite visit_S in H.
  destruct phi; cbn [adds_state] in Hadd; try discriminate; inv_bind;
    try (apply add_transition_has_state; keep_max_locs; exact Hn).
  - (* NextOp *)
    unfold _expand_add_next. apply add_transition_has_state.
    rewrite fold_Z_max_locs; [keep_max_locs; exact Hn|].
    intros x i. apply add_transition_max_locs.
  - (* EventuallyOp *)
    assert (Hn0 : (0 < max_locs m0)%Z) by (keep_max_locs; exact Hn).
    assert (Hb : forall t2,
               (adds_state phi || (0 <? t2)%Z = true) ->
               has_state
                 (fold_left
                    (fun m i =>
                       let expr :=
                         EventuallyOp (Some {| t_start := Some 0%Z; t_end := Some i |}) phi in
                       let sub_expr :=
                         if (1 <? i)%Z
                         then EventuallyOp
                                (Some {| t_start := Some 0%Z; t_end := Some (i - 1)%Z |}) phi
                         else phi in
                       _add_transition expr (LamEventually phi sub_expr) m)
                    (py_range_down t2 0) m0)).
    { intros t2 Ht2. destruct (Z.ltb_spec 0 t2) as [Hpos|Hle].
      - rewrite py_range_down_cons by lia. cbn [fold_left].
        apply fold_Z_has_state.
        + intros x i. cbv zeta. apply add_transition_has_state_kept.
        + cbv zeta. now apply add_transition_has_state.
      - rewrite py_range_down_nil by lia. cbn [fold_left].
        rewrite orb_false_r in Ht2. exact (IH _ _ _ E Hn Ht2). }
    unfold _expand_add_eventually in H.
    destruct interval as [[[[|t1|t1]|] [t2|]]|]; cbv zeta in H; inv_bind;
      try (apply add_transition_has_state; exact Hn0);
      try (apply Hb; exact Hadd);
      try (apply add_expr_alias_has_state; eapply IH; [eassumption | exact Hn0 | reflexivity]).
  - (* GloballyOp *)
    unfold _expand_add_globally in H. cbv zeta in H. inv_bind.
    apply add_expr_alias_has_state. eapply IH; [eassumption | keep_max_locs; exact Hn |].
    reflexivity.
  - (* UntilOp *)
    assert (Hn1 : (0 < max_locs m1)%Z) by (keep_max_locs; exact Hn).
    unfold _expand_add_until in H.
    destruct interval as [[[[|t1|t1]|] [t2|]]|]; cbv zeta in H; inv_bind;
      try (apply add_transition_has_state; exact Hn1);
      try (apply add_expr_alias_has_state; eapply IH; [eassumption | exact Hn1 | reflexivity]).
    rewrite orb_false_r in Hadd. apply orb_true_iff in Hadd. destruct Hadd as [Hl|Hr].
    + eapply visit_has_state_kept; [eassumption|]. exact (IH _ _ _ E Hn Hl).
    + eapply IH; [eassumption | keep_max_locs; exact Hn | exact Hr].
  - (* SomewhereOp *)
    unfold _expand_add_somewhere in H. cbv zeta in H. inv_bind.
    apply add_expr_alias_has_state. eapply IH; [eassumption | keep_max_locs; exact Hn |].
    reflexivity.
Qed.

(** X5: what [from_strel_expr] returns, for every formula and every number
    of locations: the assertion on [max_locs] fails first; then the first
    refused operator raises [NotImplementedError]; then a formula that adds
    no state (a constant, for one) makes the constructor take
    [next(iter(...))] of an empty dictionary, which raises [StopIteration];
    every other formula gives an automaton. *)
Theorem from_strel_expr_outcome (fuel : nat) (phi : Expr) (n : Z) (attr : option string) :
  visit_depth phi <= fuel ->
  ((n <= 0)%Z ->
   from_strel_expr fuel phi n attr
   = Raise (AssertionError (Some "STREL graphs should have at least 1 location"%string)))
  /\ ((0 < n)%Z ->
      forall msg, first_refusal phi = Some msg ->
                  from_strel_expr fuel phi n attr = Raise (NotImplementedError msg))
  /\ ((0 < n)%Z -> first_refusal phi = None -> adds_state phi = false ->
      from_strel_expr fuel phi n attr = Raise StopIteration)
  /\ ((0 < n)%Z -> first_refusal phi = None -> adds_state phi = true ->
      exists aut, from_strel_expr fuel phi n attr = Ok aut).
Proof.
  intros Hd. unfold from_strel_expr, ExprMapper_init.
  split; [|split; [|split]].
  - intros Hn. destruct (Z.ltb_spec 0 n); [lia | reflexivity].
  - intros Hn msg Hmsg. destruct (Z.ltb_spec 0 n); [|lia]. cbn [bind].
    match goal with
    | |- context [visit fuel phi ?m0] => pose proof (@visit_outcome fuel phi m0 Hd) as H0
    end.
    rewrite Hmsg in H0. now rewrite H0.
  - intros Hn Hr Hadd. destruct (Z.ltb_spec 0 n); [|lia]. cbn [bind].
    match goal with
    | |- context [visit fuel phi ?m0] => pose proof (@visit_outcome fuel phi m0 Hd) as H0
    end.
    rewrite Hr in H0. destruct H0 as [m' H0]. rewrite H0. cbn [bind].
    apply (@visit_adds_nothing _ _ _ _ H0) in Hadd. subst m'. reflexivity.
  - intros Hn Hr Hadd. destruct (Z.ltb_spec 0 n); [|lia]. cbn [bind].
    match goal with
    | |- context [visit fuel phi ?m0] =>
      pose proof (@visit_outcome fuel phi m0 Hd) as H0;
      pose proof (@visit_same_keys fuel phi m0) as Hk;
      pose proof (@visit_adds_state fuel phi m0) as Hs
    end.
    rewrite Hr in H0. destruct H0 as [m' H0]. rewrite H0. cbn [bind].
    apply StrelAutomaton_init_total.
    + apply (Hk _ H0). reflexivity.
    + destruct (Hs _ H0 Hn Hadd) as [q0 Hq0]. intros Hnil. now rewrite Hnil in Hq0.
Qed.

(** ** The countdown chains *)

(** The second loop of the case [F[0, t2]] of [_expand_add_eventually]. *)
Definition eventually_countdown (arg : Expr) (t2 : Z) (m : ExprMapper) : ExprMapper :=
  fold_left
    (fun m i =>
       let expr := EventuallyOp (Some {| t_start := Some 0%Z; t_end := Some i |}) arg in
       let sub_expr :=
         if (1 <? i)%Z
         then EventuallyOp (Some {| t_start := Some 0%Z; t_end := Some (i - 1)%Z |}) arg
         else arg in
       _add_transition expr (LamEventually arg sub_expr) m)
    (py_range_down t2 0) m.

(** The formulas whose states are installed by a loop that counts down. *)
Definition is_countdown (phi : Expr) : bool :=
  match phi with
  | NextOp _ _ => true
  | EventuallyOp (Some {| t_start := Some 0%Z; t_end := Some _ |}) _ => true
  | _ => false
  end.

Section Expansions.
(** A property of the mapper that is kept by each expansion as a whole. *)
Variable P : ExprMapper -> Prop.
Hypothesis E_transition :
  forall phi c m,
    canonical (dist_attr m) phi = Some c -> is_countdown phi = false ->
    P m -> P (_add_transition phi c m).
Hypothesis E_next : forall steps arg m, P m -> P (_expand_add_next steps arg m).
Hypothesis E_countdown : forall arg t2 m, P m -> P (eventually_countdown arg t2 m).
Hypothesis E_alias :
  forall phi e m, alias_of phi = Some e -> P m -> P (_add_expr_alias phi e m).

Lemma visit_expansions (fuel : nat) :
  forall phi m m', visit fuel phi m = Ok m' -> P m -> P m'.
Proof.
  induction fuel as [|fuel IH]; intros phi m m' H Hm; [discriminate|].
  rewrite visit_S in H.
  destruct phi; inv_bind;
    repeat match goal with
           | E : visit fuel _ _ = Ok _ |- _ => apply IH in E; [|assumption]
           end;
    try exact Hm;
    try (apply E_transition; [reflexivity | reflexivity | assumption]).
  - now apply E_next.
  - unfold _expand_add_eventually in H.
    destruct interval as [[[[|t1|t1]|] [t2|]]|]; cbv zeta in H; inv_bind;
      try (apply E_transition; [reflexivity | reflexivity | assumption]);
      try (apply E_alias; [reflexivity | eapply IH; eassumption]);
      now apply (E_countdown phi t2).
  - unfold _expand_add_globally in H. cbv zeta in H. inv_bind.
    apply E_alias; [reflexivity | eapply IH; eassumption].
  - unfold _expand_add_until in H.
    destruct interval as [[[[|t1|t1]|] [t2|]]|]; cbv zeta in H; inv_bind;
      try assumption;
      try (apply E_transition; [reflexivity | reflexivity | assumption]);
      try (apply E_alias; [reflexivity | eapply IH; eassumption]).
  - unfold _expand_add_somewhere in H. cbv zeta in H. inv_bind.
    apply E_alias; [reflexivity | eapply IH; eassumption].
Qed.

End Expansions.

(** The states after [_add_transition]: the old ones and the row of [phi]. *)
Lemma add_transition_keys_iff (phi : Expr) (c : Closure) (m : ExprMapper) (q : Q) :
  In q (dict_keys (const_mapping (_transitions (_add_transition phi c m))))
  <-> In q (dict_keys (const_mapping (_transitions m)))
      \/ (fst q = phi /\ (Z.of_nat (snd q) < max_locs m)%Z).
Proof.
  split.
  - revert q.
    apply (@add_transition_rounds
             (fun x => forall q, In q (dict_keys (const_mapping (_transitions x))) ->
                                 In q (dict_keys (const_mapping (_transitions m)))
                                 \/ (fst q = phi /\ (Z.of_nat (snd q) < max_locs m)%Z)));
      [|auto].
    intros m1 loc _ _ Hloc H q.
    cbn [add_transition_at _transitions const_mapping]. rewrite setdefault_keys.
    case_mem; [apply H|].
    intros Hin. apply in_app_or in Hin.
    destruct Hin as [Hin|[<-|[]]]; [now apply H | right; split; [reflexivity | exact Hloc]].
  - intros [Hin|[Hphi Hloc]].
    + now apply add_transition_keeps.
    + destruct q as [psi loc]. cbn [fst snd] in *. subst psi. now apply add_transition_keys.
Qed.

(** The states after a loop of [_add_transition] over a list of integers. *)
Lemma fold_add_transition_keys_iff (g : Z -> Expr) (c : Z -> Closure) (l : list Z) :
  forall (m : ExprMapper) (q : Q),
    In q (dict_keys (const_mapping (_transitions
            (fold_left (fun m i => _add_transition (g i) (c i) m) l m))))
    <-> In q (dict_keys (const_mapping (_transitions m)))
        \/ (exists i, In i l /\ fst q = g i /\ (Z.of_nat (snd q) < max_locs m)%Z).
Proof.
  induction l as [|i l IH]; intros m q; cbn [fold_left].
  - split; [now left | intros [H|(i & [] & _)]; exact H].
  - rewrite IH, add_transition_keys_iff, add_transition_max_locs. split.
    + intros [[H|[H1 H2]]|(j & Hj & H1 & H2)].
      * now left.
      * right. exists i. split; [now left | auto].
      * right. exists j. split; [now right | auto].
    + intros [H|(j & [<-|Hj] & H1 & H2)].
      * left. now left.
      * left. right. auto.
      * right. exists j. auto.
Qed.

Lemma expand_add_next_max_locs (steps : option Z) (arg : Expr) (m : ExprMapper) :
  max_locs (_expand_add_next steps arg m) = max_locs m.
Proof.
  unfold _expand_add_next. rewrite add_transition_max_locs.
  apply fold_Z_max_locs. intros x i. apply add_transition_max_locs.
Qed.

Lemma eventually_countdown_max_locs (arg : Expr) (t2 : Z) (m : ExprMapper) :
  max_locs (eventually_countdown arg t2 m) = max_locs m.
Proof.
  unfold eventually_countdown. apply fold_Z_max_locs. intros x i. apply add_transition_max_locs.
Qed.

(** [_expand_add_next] adds the rows of [X[j] arg] for [j] from the step
    count down to 1. *)
Lemma expand_add_next_keys (steps : option Z) (arg : Expr) (m : ExprMapper) (q : Q) :
  In q (dict_keys (const_mapping (_transitions (_expand_add_next steps arg m))))
  <-> In q (dict_keys (const_mapping (_transitions m)))
      \/ (exists j, (j = 1 \/ 1 < j <= match steps with Some s => s | None => 1 end)%Z
                    /\ fst q = NextOp (Some j) arg
                    /\ (Z.of_nat (snd q) < max_locs m)%Z).
Proof.
  unfold _expand_add_next. rewrite add_transition_keys_iff.
  rewrite (fold_add_transition_keys_iff
             (fun i => NextOp (Some i) arg) (fun i => LamVar (NextOp (Some (i - 1)%Z) arg))).
  rewrite fold_Z_max_locs by (intros x i; apply add_transition_max_locs).
  split.
  - intros [[H|(j & Hj & H1 & H2)]|[H1 H2]].
    + now left.
    + right. exists j. apply py_range_down_In in Hj. auto.
    + right. exists 1%Z. auto.
  - intros [H|(j & [->|Hj] & H1 & H2)].
    + left. now left.
    + right. auto.
    + left. right. exists j. split; [now apply py_range_down_In | auto].
Qed.

(** The countdown of [F[0, t2]] adds the rows of [F[0, j] arg] for [j] from
    [t2] down to 1. *)
Lemma eventually_countdown_keys (arg : Expr) (t2 : Z) (m : ExprMapper) (q : Q) :
  In q (dict_keys (const_mapping (_transitions (eventually_countdown arg t2 m))))
  <-> In q (dict_keys (const_mapping (_transitions m)))
      \/ (exists j, (0 < j <= t2)%Z
                    /\ fst q = EventuallyOp (Some {| t_start := Some 0%Z; t_end := Some j |}) arg
                    /\ (Z.of_nat (snd q) < max_locs m)%Z).
Proof.
  unfold eventually_countdown. cbv zeta.
  rewrite (fold_add_transition_keys_iff
             (fun i => EventuallyOp (Some {| t_start := Some 0%Z; t_end := Some i |}) arg)
             (fun i => LamEventually arg
                         (if (1 <? i)%Z
                          then EventuallyOp
                                 (Some {| t_start := Some 0%Z; t_end := Some (i - 1)%Z |}) arg
                          else arg))).
  split.
  - intros [H|(j & Hj & H)]; [now left|]. right. exists j. apply py_range_down_In in Hj. auto.
  - intros [H|(j & Hj & H)]; [now left|]. right. exists j.
    split; [now apply py_range_down_In | exact H].
Qed.

(** Every state of a countdown above 1 comes with the state of its
    predecessor. *)
Definition chains_closed (m : ExprMapper) : Prop :=
  (states_in_range m)
  /\ (forall i arg loc,
         (1 < i)%Z ->
         In (NextOp (Some i) arg, loc) (dict_keys (const_mapping (_transitions m))) ->
         In (NextOp (Some (i - 1)%Z) arg, loc) (dict_keys (const_mapping (_transitions m))))
  /\ (forall i arg loc,
         (1 < i)%Z ->
         In (EventuallyOp (Some {| t_start := Some 0%Z; t_end := Some i |}) arg, loc)
            (dict_keys (const_mapping (_transitions m))) ->
         In (EventuallyOp (Some {| t_start := Some 0%Z; t_end := Some (i - 1)%Z |}) arg, loc)
            (dict_keys (const_mapping (_transitions m)))).

Lemma visit_chains_closed (fuel : nat) (phi : Expr) (m m' : ExprMapper) :
  visit fuel phi m = Ok m' -> chains_closed m -> chains_closed m'.
Proof.
  apply visit_expansions.
  - intros psi c m0 Hc Hcd (Hr & Hn & He). split; [|split].
    + intros q Hq. rewrite add_transition_max_locs.
      apply add_transition_keys_iff in Hq. destruct Hq as [Hq|[_ Hq]]; [now apply Hr | exact Hq].
    + intros i arg loc Hi Hq. apply add_transition_keys_iff.
      apply add_transition_keys_iff in Hq. cbn [fst snd] in Hq.
      destruct Hq as [Hq|[<- _]]; [left; now apply Hn | discriminate].
    + intros i arg loc Hi Hq. apply add_transition_keys_iff.
      apply add_transition_keys_iff in Hq. cbn [fst snd] in Hq.
      destruct Hq as [Hq|[<- _]]; [left; now apply He | discriminate].
  - intros steps arg m0 (Hr & Hn & He). split; [|split].
    + intros q Hq. rewrite expand_add_next_max_locs.
      apply expand_add_next_keys in Hq.
      destruct Hq as [Hq|(j & _ & _ & Hq)]; [now apply Hr | exact Hq].
    + intros i arg' loc Hi Hq. apply expand_add_next_keys.
      apply expand_add_next_keys in Hq. cbn [fst snd] in *.
      destruct Hq as [Hq|(j & Hj & [= -> ->] & Hloc)]; [left; now apply Hn|].
      right. exists (j - 1)%Z. split; [lia | auto].
    + intros i arg' loc Hi Hq. apply expand_add_next_keys.
      apply expand_add_next_keys in Hq. cbn [fst snd] in *.
      destruct Hq as [Hq|(j & _ & Hj & _)]; [left; now apply He | discriminate].
  - intros arg t2 m0 (Hr & Hn & He). split; [|split].
    + intros q Hq. rewrite eventually_countdown_max_locs.
      apply eventually_countdown_keys in Hq.
      destruct Hq as [Hq|(j & _ & _ & Hq)]; [now apply Hr | exact Hq].
    + intros i arg' loc Hi Hq. apply eventually_countdown_keys.
      apply eventually_countdown_keys in Hq. cbn [fst snd] in *.
      destruct Hq as [Hq|(j & _ & Hj & _)]; [left; now apply Hn | discriminate].
    + intros i arg' loc Hi Hq. apply eventually_countdown_keys.
      apply eventually_countdown_keys in Hq. cbn [fst snd] in *.
      destruct Hq as [Hq|(j & Hj & [= -> ->] & Hloc)]; [left; now apply He|].
      right. exists (j - 1)%Z. split; [lia | auto].
  - intros psi e m0 _ (Hr & Hn & He).
    unfold chains_closed, states_in_range.
    rewrite add_expr_alias_const_mapping, add_expr_alias_max_locs. auto.
Qed.

(** What the tables of a compiled automaton satisfy, in terms of the mapper
    that built them. *)
Record compiled_from (phi : Expr) (n : Z) (attr : option string) (aut : StrelAutomaton)
    (m : ExprMapper) : Prop := {
  cf_transitions : aut_transitions aut = _transitions m;
  cf_var_node_map : aut_var_node_map aut = var_node_map m;
  cf_initial : initial_expr aut = phi;
  cf_accepting :
    accepting_states aut
    = filter (fun q : Q => _is_accepting phi (fst q)) (dict_keys (transitions (_transitions m)));
  cf_max_locs : max_locs m = n;
  cf_positive : (0 < n)%Z;
  cf_dist_attr :
    dist_attr m = match attr with
                  | Some s => if string_dec s EmptyString then "weight"%string else s
                  | None => "weight"%string
                  end;
  cf_same_keys : same_keys m;
  cf_canonical : table_canonical m;
  cf_aliases : aliases_exact m;
  cf_in_range : states_in_range m;
  cf_vars : vars_named m;
  cf_names : names_resolve m;
  cf_rows : rows_complete m;
  cf_chains : chains_closed m;
  cf_nonempty : has_state m;
  cf_visit : exists fuel m0, ExprMapper_init n attr = Ok m0 /\ visit fuel phi m0 = Ok m
}.

Lemma compiled_tables (fuel : nat) (phi : Expr) (n : Z) (attr : option string)
    (aut : StrelAutomaton) :
  from_strel_expr fuel phi n attr = Ok aut ->
  exists m, compiled_from phi n attr aut m.
Proof.
  intros H. apply from_strel_expr_Ok in H. destruct H as (m0 & m & Hinit & Hvisit & Haut).
  exists m.
  assert (Hne : has_state m).
  { unfold StrelAutomaton_init in Haut. destruct (set_eqb _ _); [|discriminate].
    unfold has_state. destruct (const_mapping (_transitions m)) as [|[q0 v0] d]; [discriminate|].
    exists q0. now left. }
  apply StrelAutomaton_init_Ok in Haut. destruct Haut as (_ & Hts & Hi & Hv & Hacc).
  pose proof (ExprMapper_init_invariants _ _ Hinit) as (Hk & Hc & _).
  pose proof (ExprMapper_init_Ok _ _ Hinit) as (Hpos & Hn & Hattr & Ht0).
  assert (Hv0 : var_node_map m0 = []).
  { unfold ExprMapper_init in Hinit. destruct (0 <? n)%Z; [|discriminate].
    injection Hinit as <-. reflexivity. }
  split; try assumption.
  - rewrite (@visit_max_locs _ _ _ _ Hvisit). exact Hn.
  - rewrite (@visit_dist_attr _ _ _ _ Hvisit). exact Hattr.
  - exact (@visit_same_keys _ _ _ _ Hvisit Hk).
  - exact (@visit_table_canonical _ _ _ _ Hvisit Hc).
  - apply (@visit_aliases_exact _ _ _ _ Hvisit). unfold aliases_exact. rewrite Ht0.
    discriminate.
  - apply (@visit_states_in_range _ _ _ _ Hvisit). unfold states_in_range. rewrite Ht0.
    intros q [].
  - apply (@visit_vars_named _ _ _ _ Hvisit). unfold vars_named. rewrite Ht0. discriminate.
  - apply (@visit_names_resolve _ _ _ _ Hvisit). unfold names_resolve. rewrite Ht0, Hv0.
    split; [discriminate | intros q []].
  - apply (@visit_rows_complete _ _ _ _ Hvisit). unfold rows_complete. rewrite Ht0.
    intros psi loc loc' [].
  - apply (@visit_chains_closed _ _ _ _ Hvisit). unfold chains_closed, states_in_range.
    rewrite Ht0. repeat split; intros; contradiction.
  - eauto.
Qed.

(** ** Entries are only ever added *)

Lemma setdefault_keeps (K V : Type) (K_dec : forall x y : K, {x = y} + {x <> y}) (k k' : K)
    (v x : V) (d : dict K V) :
  dict_get K_dec k' d = Some x -> dict_get K_dec k' (setdefault K_dec k v d) = Some x.
Proof. intros H. now rewrite setdefault_get, H. Qed.

(** X1: a visit only adds entries.  Every entry that the transition table,
    the map of the declared variables, [var_node_map] or the alias map holds
    before a visit is still there, unchanged, after it ([setdefault] never
    overwrites), and the log of the declared names only grows at its end. *)
Theorem visit_keeps_entries (fuel : nat) (phi : Expr) (m m' : ExprMapper) :
  visit fuel phi m = Ok m' ->
  (forall q fn, dict_get Q_dec q (transitions (_transitions m)) = Some fn ->
                dict_get Q_dec q (transitions (_transitions m')) = Some fn)
  /\ (forall q v, dict_get Q_dec q (const_mapping (_transitions m)) = Some v ->
                  dict_get Q_dec q (const_mapping (_transitions m')) = Some v)
  /\ (forall name q, dict_get string_dec name (var_node_map m) = Some q ->
                     dict_get string_dec name (var_node_map m') = Some q)
  /\ (forall psi e, dict_get Expr_dec psi (aliases (_transitions m)) = Some e ->
                    dict_get Expr_dec psi (aliases (_transitions m')) = Some e)
  /\ exists declared, manager (_transitions m') = manager (_transitions m) ++ declared.
Proof.
  intros H.
  refine (@visit_invariant
            (fun x =>
               (forall q fn, dict_get Q_dec q (transitions (_transitions m)) = Some fn ->
                             dict_get Q_dec q (transitions (_transitions x)) = Some fn)
               /\ (forall q v, dict_get Q_dec q (const_mapping (_transitions m)) = Some v ->
                               dict_get Q_dec q (const_mapping (_transitions x)) = Some v)
               /\ (forall name q, dict_get string_dec name (var_node_map m) = Some q ->
                                  dict_get string_dec name (var_node_map x) = Some q)
               /\ (forall psi e, dict_get Expr_dec psi (aliases (_transitions m)) = Some e ->
                                 dict_get Expr_dec psi (aliases (_transitions x)) = Some e)
               /\ exists declared,
                   manager (_transitions x) = manager (_transitions m) ++ declared)
            _ _ fuel phi m m' H _).
  - intros psi c m0 loc _ (H1 & H2 & H3 & H4 & declared & H5).
    cbn [add_transition_at _transitions transitions const_mapping aliases manager var_node_map].
    split; [|split; [|split; [|split]]].
    + intros q fn Hq. apply setdefault_keeps. now apply H1.
    + intros q v Hq. apply setdefault_keeps. now apply H2.
    + intros name q Hq. apply setdefault_keeps. now apply H3.
    + exact H4.
    + eexists. rewrite H5, <- app_assoc. reflexivity.
  - intros psi e m0 loc _ (H1 & H2 & H3 & H4 & H5).
    cbn [add_expr_alias_at _transitions transitions const_mapping aliases manager var_node_map].
    split; [|split; [|split; [|split]]]; try assumption.
    + intros name q Hq. apply setdefault_keeps. now apply H3.
    + intros chi e' Hq. apply setdefault_keeps. now apply H4.
  - repeat split; auto. exists []. now rewrite app_nil_r.
Qed.

(** ** Aliases *)

(** X2: in a compiled automaton every alias maps a derived operator to the
    rewrite that its expansion builds; the aliased formula has no state of
    its own, and the rewrite is not itself aliased, so that the single alias
    step of [__call__] and [get_var] ends on a formula that is not aliased:
    the transition and the variable of the derived operator are those of its
    rewrite. *)
Theorem compiled_aliases_resolve (fuel : nat) (phi : Expr) (n : Z) (attr : option string)
    (aut : StrelAutomaton) (psi e : Expr) :
  from_strel_expr fuel phi n attr = Ok aut ->
  dict_get Expr_dec psi (aliases (aut_transitions aut)) = Some e ->
  alias_of psi = Some e
  /\ dict_get Expr_dec e (aliases (aut_transitions aut)) = None
  /\ (forall loc, ~ In (psi, loc) (states aut))
  /\ (forall loc f input,
         Transitions_call f (aut_transitions aut) input (psi, loc)
         = Transitions_call f (aut_transitions aut) input (e, loc))
  /\ (forall loc,
         get_var (aut_transitions aut) (psi, loc) = get_var (aut_transitions aut) (e, loc)).
Proof.
  intros H Hget. apply compiled_tables in H. destruct H as [m Hm].
  rewrite (cf_transitions Hm) in *.
  assert (Hal : alias_of psi = Some e) by (apply (cf_aliases Hm); exact Hget).
  assert (He : dict_get Expr_dec e (aliases (_transitions m)) = None).
  { destruct (dict_get Expr_dec e (aliases (_transitions m))) as [e'|] eqn:E; [|reflexivity].
    apply (cf_aliases Hm) in E. apply alias_of_target in Hal. congruence. }
  assert (Hch : forall loc,
             chase_alias (_transitions m) (psi, loc) = chase_alias (_transitions m) (e, loc)).
  { intros loc. unfold chase_alias. cbn [fst snd]. now rewrite Hget, He. }
  split; [exact Hal|]. split; [exact He|]. split; [|split].
  - intros loc Hin. unfold states in Hin. rewrite (cf_transitions Hm) in Hin.
    pose proof (cf_same_keys Hm) as Hk. unfold same_keys in Hk. rewrite <- Hk in Hin.
    apply (dict_get_In Q_dec) in Hin. destruct Hin as [fn Hfn].
    apply (cf_canonical Hm) in Hfn. destruct Hfn as [Hc _]. cbn [fst] in Hc.
    apply canonical_not_aliased in Hc. congruence.
  - intros loc f input. destruct f as [|f]; [reflexivity|].
    cbn [Transitions_call]. now rewrite Hch.
  - intros loc. unfold get_var. now rewrite Hch.
Qed.

(** ** States *)

(** X3: the states of a compiled automaton come in full rows: a state sits
    at a location below [max_locs], and its formula has a state at every
    location below [max_locs]. *)
Theorem compiled_states_rows (fuel : nat) (phi : Expr) (n : Z) (attr : option string)
    (aut : StrelAutomaton) (psi : Expr) (loc : Location) :
  from_strel_expr fuel phi n attr = Ok aut ->
  In (psi, loc) (states aut) ->
  (Z.of_nat loc < n)%Z
  /\ forall loc', (Z.of_nat loc' < n)%Z -> In (psi, loc') (states aut).
Proof.
  intros H Hin. apply compiled_tables in H. destruct H as [m Hm].
  unfold states in *. rewrite (cf_transitions Hm) in *. split.
  - apply (cf_in_range Hm) in Hin. cbn [snd] in Hin. now rewrite (cf_max_locs Hm) in Hin.
  - intros loc' Hloc'. rewrite <- (cf_max_locs Hm) in Hloc'.
    eapply (cf_rows Hm); eassumption.
Qed.

(** X4: in a compiled automaton the variable of a state is the one named by
    [_make_q_str], and [var_node_map] has an entry under this name, for a
    state that prints to the same name: the names that [next] reads in the
    support of a polynomial resolve. *)
Theorem compiled_names_round_trip (fuel : nat) (phi : Expr) (n : Z) (attr : option string)
    (aut : StrelAutomaton) (q : Q) :
  from_strel_expr fuel phi n attr = Ok aut ->
  In q (states aut) ->
  dict_get Q_dec q (const_mapping (aut_transitions aut)) = Some (PVar (_make_q_str q))
  /\ exists q0,
      dict_get string_dec (_make_q_str q) (aut_var_node_map aut) = Some q0
      /\ _make_q_str q0 = _make_q_str q.
Proof.
  intros H Hin. apply compiled_tables in H. destruct H as [m Hm].
  unfold states in *. rewrite (cf_transitions Hm), (cf_var_node_map Hm) in *. split.
  - apply (dict_get_In Q_dec) in Hin. destruct Hin as [v Hv].
    pose proof Hv as Hn. apply (cf_vars Hm) in Hn. now rewrite <- Hn.
  - destruct (cf_names Hm) as [H1 H2]. apply H2 in Hin.
    apply (dict_get_In string_dec) in Hin. destruct Hin as [q0 Hq0].
    exists q0. split; [exact Hq0|].
    now apply H1.
Qed.

(** ** Calling a state of a compiled automaton *)

(** Whether a formula gets states of its own when it is visited. *)
Definition gets_state (psi : Expr) : bool :=
  match canonical EmptyString psi with
  | Some _ => true
  | None => false
  end.

(** The formula that stands for [phi] after the alias step. *)
Definition root_of (phi : Expr) : Expr :=
  match alias_of phi with
  | Some e => e
  | None => phi
  end.

Lemma gets_state_canonical (attr : string) (psi : Expr) :
  gets_state psi = true <-> exists c, canonical attr psi = Some c.
Proof.
  unfold gets_state. destruct psi; simpl;
    repeat match goal with
           | |- context [match ?x with _ => _ end] => destruct x
           end;
    split; intros H; try discriminate; try reflexivity; eauto;
    destruct H as [c H]; discriminate.
Qed.

Lemma compiled_state (phi : Expr) (n : Z) (attr : option string) (aut : StrelAutomaton)
    (m : ExprMapper) (psi : Expr) (loc : Location) :
  compiled_from phi n attr aut m ->
  In (psi, loc) (states aut) ->
  exists c,
    canonical (dist_attr m) psi = Some c
    /\ dict_get Q_dec (psi, loc) (transitions (aut_transitions aut)) = Some (c, loc)
    /\ dict_get Q_dec (psi, loc) (const_mapping (aut_transitions aut))
       = Some (PVar (_make_q_str (psi, loc)))
    /\ chase_alias (aut_transitions aut) (psi, loc) = (psi, loc).
Proof.
  intros Hm Hin. unfold states in Hin. rewrite (cf_transitions Hm) in *.
  pose proof Hin as Hin'.
  pose proof (cf_same_keys Hm) as Hk. unfold same_keys in Hk. rewrite <- Hk in Hin'.
  apply (dict_get_In Q_dec) in Hin'. destruct Hin' as [[c l] Hfn].
  pose proof Hfn as Hc. apply (cf_canonical Hm) in Hc. cbn [fst snd] in Hc.
  destruct Hc as [Hc ->]. exists c. split; [exact Hc|]. split; [exact Hfn|]. split.
  - apply (dict_get_In Q_dec) in Hin. destruct Hin as [v Hv].
    pose proof Hv as Hn. apply (cf_vars Hm) in Hn. now rewrite <- Hn.
  - unfold chase_alias. cbn [fst snd].
    destruct (dict_get Expr_dec psi (aliases (_transitions m))) as [e|] eqn:E; [|reflexivity].
    apply (cf_aliases Hm) in E. apply canonical_not_aliased in Hc. congruence.
Qed.

Lemma compiled_state_not_constant (phi : Expr) (n : Z) (attr : option string)
    (aut : StrelAutomaton) (m : ExprMapper) (psi : Expr) (loc : Location) :
  compiled_from phi n attr aut m ->
  In (psi, loc) (states aut) ->
  forall value, psi <> Constant value.
Proof.
  intros Hm Hin value ->. destruct (compiled_state _ _ Hm Hin) as (c & Hc & _). discriminate.
Qed.

(** The variable of a state. *)
Lemma compiled_get_var (phi : Expr) (n : Z) (attr : option string) (aut : StrelAutomaton)
    (m : ExprMapper) (q : Q) :
  compiled_from phi n attr aut m ->
  In q (states aut) ->
  get_var (aut_transitions aut) q = Ok (PVar (_make_q_str q)).
Proof.
  intros Hm Hin. destruct q as [psi loc].
  destruct (compiled_state _ _ Hm Hin) as (c & Hc & _ & Hv & Hch).
  unfold get_var. rewrite Hch. cbn [fst].
  destruct psi; try discriminate; now rewrite Hv.
Qed.

(** Asking for the variable of a formula that is neither a constant nor
    aliased and has no state. *)
Lemma compiled_get_var_missing (phi : Expr) (n : Z) (attr : option string)
    (aut : StrelAutomaton) (m : ExprMapper) (psi : Expr) (loc : Location) :
  compiled_from phi n attr aut m ->
  alias_of psi = None ->
  (forall value, psi <> Constant value) ->
  ~ In (psi, loc) (states aut) ->
  get_var (aut_transitions aut) (psi, loc) = Raise KeyError.
Proof.
  intros Hm Hal Hconst Hin. unfold get_var, chase_alias. cbn [fst snd].
  unfold states in Hin. rewrite (cf_transitions Hm) in *.
  destruct (dict_get Expr_dec psi (aliases (_transitions m))) as [e|] eqn:E.
  { apply (cf_aliases Hm) in E. congruence. }
  cbn [fst]. rewrite (@dict_get_not_In _ _ Q_dec _ _ Hin).
  destruct psi; try reflexivity. now destruct (Hconst value).
Qed.

(** ** The state of the compiled formula *)

Lemma fold_add_expr_alias_mem (phi e : Expr) (locs : list Location) :
  forall m,
    dict_mem Expr_dec phi (aliases (_transitions m)) = true ->
    dict_mem Expr_dec phi
             (aliases (_transitions (fold_left (add_expr_alias_at phi e) locs m))) = true.
Proof.
  induction locs as [|l locs IH]; intros m H; simpl; [exact H|].
  apply IH. cbn [add_expr_alias_at _transitions aliases].
  apply dict_mem_In. rewrite setdefault_keys. rewrite H. now apply dict_mem_In in H.
Qed.

Lemma add_expr_alias_sets (phi e : Expr) (m : ExprMapper) :
  (0 < max_locs m)%Z ->
  dict_mem Expr_dec phi (aliases (_transitions (_add_expr_alias phi e m))) = true.
Proof.
  intros H. unfold _add_expr_alias, py_range.
  replace (Z.to_nat (max_locs m)) with (S (Z.to_nat (max_locs m) - 1)) by lia.
  cbn [seq fold_left]. apply fold_add_expr_alias_mem.
  cbn [add_expr_alias_at _transitions aliases].
  apply dict_mem_In. rewrite setdefault_keys.
  destruct (dict_mem Expr_dec phi (aliases (_transitions m))) eqn:E.
  - now apply dict_mem_In in E.
  - apply in_or_app. right. now left.
Qed.

(** The visit of a derived operator records its alias. *)
Lemma visit_sets_alias (fuel : nat) (phi e : Expr) (m m' : ExprMapper) :
  visit fuel phi m = Ok m' ->
  alias_of phi = Some e ->
  (0 < max_locs m)%Z ->
  dict_mem Expr_dec phi (aliases (_transitions m')) = true.
Proof.
  intros H Hal Hn. destruct fuel as [|fuel]; [discriminate|].
  rewrite visit_S in H.
  destruct phi; try discriminate; inv_bind.
  - unfold _expand_add_eventually in H.
    destruct interval as [[[[|t1|t1]|] [t2|]]|]; try discriminate; cbv zeta in H; inv_bind;
      apply add_expr_alias_sets; keep_max_locs; exact Hn.
  - unfold _expand_add_globally in H. cbv zeta in H. inv_bind.
    apply add_expr_alias_sets. keep_max_locs. exact Hn.
  - unfold _expand_add_until in H.
    destruct interval as [[[[|t1|t1]|] [t2|]]|]; try discriminate; cbv zeta in H; inv_bind;
      apply add_expr_alias_sets; keep_max_locs; exact Hn.
  - unfold _expand_add_somewhere in H. cbv zeta in H. inv_bind.
    apply add_expr_alias_sets. keep_max_locs. exact Hn.
Qed.




(** The visit of a formula that gets states installs its row. *)
Lemma visit_installs_canonical (fuel : nat) (phi : Expr) (m m' : ExprMapper) (loc : Location) :
  visit fuel phi m = Ok m' ->
  gets_state phi = true ->
  (Z.of_nat loc < max_locs m)%Z ->
  In (phi, loc) (dict_keys (const_mapping (_transitions m'))).
Proof.
  intros H Hg Hloc. destruct fuel as [|fuel]; [discriminate|].
  rewrite visit_S in H. unfold gets_state in Hg.
  destruct phi; try discriminate; inv_bind;
    try (apply add_transition_keys; keep_max_locs; exact Hloc).
  - (* NextOp *)
    apply expand_add_next_keys. right. cbn [fst snd].
    destruct steps as [i|]; [|discriminate]. exists i. simpl in Hg.
    split; [|split; [reflexivity | keep_max_locs; exact Hloc]].
    destruct (Z.ltb_spec 1 i); [right; lia|].
    destruct (Z.eqb_spec i 1); [now left | discriminate].
  - (* EventuallyOp *)
    unfold _expand_add_eventually in H.
    destruct interval as [[[[|t1|t1]|] [t2|]]|]; try discriminate; cbv zeta in H; inv_bind;
      try (apply add_transition_keys; keep_max_locs; exact Hloc).
    apply (proj2 (eventually_countdown_keys phi t2 m0 _)). right. cbn [fst snd].
    exists t2. simpl in Hg.
    split; [|split; [reflexivity | keep_max_locs; exact Hloc]].
    destruct (Z.ltb_spec 1 t2); [lia|].
    destruct (Z.eqb_spec t2 1); [lia | discriminate].
  - (* UntilOp *)
    unfold _expand_add_until in H.
    destruct interval as [[[[|t1|t1]|] [t2|]]|]; try discriminate; cbv zeta in H; inv_bind;
      apply add_transition_keys; keep_max_locs; exact Hloc.
Qed.

Lemma alias_of_gets_state (phi e : Expr) : alias_of phi = Some e -> canonical EmptyString phi = None.
Proof.
  intros H. destruct (canonical EmptyString phi) as [c|] eqn:E; [|reflexivity].
  apply canonical_not_aliased in E. congruence.
Qed.

(** The visit of a formula installs the row of the formula that stands for
    it, when this one gets states. *)
Lemma visit_installs_root (fuel : nat) (phi : Expr) (m m' : ExprMapper) (loc : Location) :
  visit fuel phi m = Ok m' ->
  gets_state (root_of phi) = true ->
  (Z.of_nat loc < max_locs m)%Z ->
  In (root_of phi, loc) (dict_keys (const_mapping (_transitions m'))).
Proof.
  intros H Hg Hloc. unfold root_of in *.
  destruct (alias_of phi) as [e|] eqn:Hal; [|now apply (@visit_installs_canonical fuel phi m)].
  destruct fuel as [|fuel]; [discriminate|].
  rewrite visit_S in H.
  assert (Hgen : forall m1 m2 : ExprMapper,
             max_locs m1 = max_locs m ->
             visit fuel e m1 = Ok m2 ->
             In (e, loc) (dict_keys (const_mapping (_transitions (_add_expr_alias phi e m2))))).
  { intros m1 m2 Hn Hv. rewrite add_expr_alias_const_mapping.
    apply (@visit_installs_canonical fuel e m1); [exact Hv | exact Hg | now rewrite Hn]. }
  destruct phi; try discriminate; inv_bind.
  - unfold _expand_add_eventually in H.
    destruct interval as [[[[|t1|t1]|] [t2|]]|]; try discriminate; cbv zeta in H; inv_bind;
      injection Hal as <-;
      (eapply Hgen; [|eassumption]); keep_max_locs; reflexivity.
  - unfold _expand_add_globally in H. cbv zeta in H. inv_bind. injection Hal as <-.
    (eapply Hgen; [|eassumption]); keep_max_locs; reflexivity.
  - unfold _expand_add_until in H.
    destruct interval as [[[[|t1|t1]|] [t2|]]|]; try discriminate; cbv zeta in H; inv_bind;
      injection Hal as <-;
      (eapply Hgen; [|eassumption]); keep_max_locs; reflexivity.
  - unfold _expand_add_somewhere in H. cbv zeta in H. inv_bind. injection Hal as <-.
    (eapply Hgen; [|eassumption]); keep_max_locs; reflexivity.
Qed.

Lemma compiled_call (phi : Expr) (n : Z) (attr : option string) (aut : StrelAutomaton)
    (m : ExprMapper) (psi : Expr) (loc : Location) (f : nat) (input : Alph) :
  compiled_from phi n attr aut m ->
  In (psi, loc) (states aut) ->
  (forall name, psi <> Identifier name) ->
  exists c,
    canonical (dist_attr m) psi = Some c
    /\ Transitions_call (S f) (aut_transitions aut) input (psi, loc)
       = apply_closure (Transitions_call f (aut_transitions aut)) (aut_transitions aut) (S f)
                       (c, loc) input.
Proof.
  intros Hm Hin Hid. destruct (compiled_state _ _ Hm Hin) as (c & Hc & Hfn & _ & Hch).
  exists c. split; [exact Hc|]. cbn [Transitions_call]. rewrite Hch. cbn [fst snd].
  destruct psi; try discriminate; try (now rewrite Hfn).
  now destruct (Hid name).
Qed.

Lemma get_var_chased (ts : Transitions) (q q' : Q) :
  chase_alias ts q = chase_alias ts q' -> get_var ts q = get_var ts q'.
Proof. unfold get_var. now intros ->. Qed.

Lemma alias_of_not_constant (phi : Expr) (value : bool) : alias_of phi <> Some (Constant value).
Proof.
  destruct phi; simpl; try discriminate;
    destruct interval as [[[[|t1|t1]|] [t2|]]|]; discriminate.
Qed.

(** One round of the loop of [check_run] in reverse order: the costs of all
    states before an input, from the costs after it. *)
Definition reverse_step (fuel : nat) (aut : StrelAutomaton) (costs : dict string bool)
    (input : Alph) : result (dict string bool) :=
  foldM (fun (new_costs : dict string bool) (q : Q) =>
           p <- Transitions_call fuel (aut_transitions aut) input q ;;
           v <- poly_eval costs p ;;
           Ok (dict_set string_dec (_make_q_str q) v new_costs))
        (states aut) [].

Lemma check_run_reverse (fuel : nat) (aut : StrelAutomaton) (ego : Location)
    (trace : list Alph) :
  check_run fuel aut ego trace true
  = (costs <- final_mapping aut ;;
     costs <- foldM (reverse_step fuel aut) (rev trace) costs ;;
     init <- initial_at aut ego ;;
     poly_eval costs init).
Proof. reflexivity. Qed.

Lemma check_run_forward (fuel : nat) (aut : StrelAutomaton) (ego : Location)
    (trace : list Alph) :
  check_run fuel aut ego trace false
  = (state <- initial_at aut ego ;;
     state <- foldM (fun state input => next fuel aut input state) trace state ;;
     final <- final_mapping aut ;;
     poly_eval final state).
Proof. reflexivity. Qed.

(** The formula that stands for the compiled formula is not aliased, is
    what the alias step gives, and is not a constant. *)
Lemma compiled_root (phi : Expr) (n : Z) (attr : option string) (aut : StrelAutomaton)
    (m : ExprMapper) :
  compiled_from phi n attr aut m ->
  alias_of (root_of phi) = None
  /\ (forall loc, chase_alias (aut_transitions aut) (phi, loc)
                  = chase_alias (aut_transitions aut) (root_of phi, loc))
  /\ forall value, root_of phi <> Constant value.
Proof.
  intros Hm. destruct (cf_visit Hm) as (fuel' & m0 & Hinit & Hvisit).
  pose proof (ExprMapper_init_Ok _ _ Hinit) as (Hpos & Hn0 & _ & Ht0).
  unfold root_of. destruct (alias_of phi) as [e|] eqn:Hal.
  - split; [exact (alias_of_target _ Hal)|]. split.
    + intros loc.
      pose proof (@visit_sets_alias _ _ _ _ _ Hvisit Hal) as Hset.
      rewrite Hn0 in Hset. specialize (Hset Hpos). unfold dict_mem in Hset.
      unfold chase_alias. cbn [fst snd]. rewrite (cf_transitions Hm).
      destruct (dict_get Expr_dec phi (aliases (_transitions m))) as [e'|] eqn:E;
        [|discriminate].
      pose proof E as E'. apply (cf_aliases Hm) in E'.
      assert (e' = e) by congruence. subst e'.
      destruct (dict_get Expr_dec e (aliases (_transitions m))) as [e2|] eqn:E2;
        [|reflexivity].
      apply (cf_aliases Hm) in E2. rewrite (alias_of_target _ Hal) in E2. discriminate.
    + intros value ->. exact (alias_of_not_constant _ Hal).
  - split; [exact Hal|]. split; [reflexivity|].
    intros value ->. destruct fuel' as [|fuel']; [discriminate|].
    rewrite visit_S in Hvisit. injection Hvisit as <-.
    destruct (cf_nonempty Hm) as [q0 Hq0]. rewrite Ht0 in Hq0. exact Hq0.
Qed.

(** The formula that stands for the compiled formula has a state at every
    location, when it is a formula that gets states. *)
Lemma compiled_root_state (phi : Expr) (n : Z) (attr : option string) (aut : StrelAutomaton)
    (m : ExprMapper) (loc : Location) :
  compiled_from phi n attr aut m ->
  gets_state (root_of phi) = true ->
  (Z.of_nat loc < n)%Z ->
  In (root_of phi, loc) (states aut).
Proof.
  intros Hm Hg Hloc. destruct (cf_visit Hm) as (fuel' & m0 & Hinit & Hvisit).
  pose proof (ExprMapper_init_Ok _ _ Hinit) as (_ & Hn0 & _).
  unfold states. rewrite (cf_transitions Hm).
  apply (@visit_installs_root _ _ _ _ _ Hvisit Hg). now rewrite Hn0.
Qed.

(** X6: the initial polynomial of a compiled automaton.  With [root] the
    rewrite of the compiled formula if it is a derived operator and the
    formula itself otherwise, [initial_at] returns the variable of
    [(root, loc)] when [root] is a formula that gets states and [loc] is
    below [max_locs]; in every other case it raises [KeyError], and so does
    [check_run] in forward order, whatever the trace. *)
Theorem compiled_initial_at (fuel : nat) (phi : Expr) (n : Z) (attr : option string)
    (aut : StrelAutomaton) (loc : Location) :
  from_strel_expr fuel phi n attr = Ok aut ->
  initial_at aut loc
  = (if gets_state (root_of phi) && (Z.of_nat loc <? n)%Z
     then Ok (PVar (_make_q_str (root_of phi, loc)))
     else Raise KeyError)
  /\ (gets_state (root_of phi) && (Z.of_nat loc <? n)%Z = false ->
      forall fuel' trace, check_run fuel' aut loc trace false = Raise KeyError).
Proof.
  intros H. apply compiled_tables in H. destruct H as [m Hm].
  assert (Hinit : initial_at aut loc
                  = if gets_state (root_of phi) && (Z.of_nat loc <? n)%Z
                    then Ok (PVar (_make_q_str (root_of phi, loc)))
                    else Raise KeyError).
  { unfold initial_at. rewrite (cf_initial Hm).
    destruct (compiled_root Hm) as (Hal & Hch & Hconst).
    rewrite (get_var_chased _ _ _ (Hch loc)).
    destruct (gets_state (root_of phi) && (Z.of_nat loc <? n)%Z) eqn:Hcase.
    - apply andb_true_iff in Hcase. destruct Hcase as [Hg Hloc]. apply Z.ltb_lt in Hloc.
      apply (compiled_get_var _ Hm). eapply compiled_root_state; eassumption.
    - apply (compiled_get_var_missing _ Hm Hal Hconst). intros Hin.
      destruct (compiled_state _ _ Hm Hin) as (c & Hc & _).
      assert (Hg : gets_state (root_of phi) = true)
        by (apply (gets_state_canonical (dist_attr m)); eauto).
      unfold states in Hin. rewrite (cf_transitions Hm) in Hin.
      apply (cf_in_range Hm) in Hin. cbn [snd] in Hin. rewrite (cf_max_locs Hm) in Hin.
      apply Z.ltb_lt in Hin. rewrite Hg, Hin in Hcase. discriminate. }
  split; [exact Hinit|].
  intros Hcase fuel' trace. rewrite check_run_forward, Hinit, Hcase. reflexivity.
Qed.

(** The transition of a state of a next operator. *)
Lemma compiled_next_call (phi : Expr) (n : Z) (attr : option string) (aut : StrelAutomaton)
    (m : ExprMapper) (i : Z) (arg : Expr) (loc : Location) (f : nat) (input : Alph) :
  compiled_from phi n attr aut m ->
  In (NextOp (Some i) arg, loc) (states aut) ->
  Transitions_call (S f) (aut_transitions aut) input (NextOp (Some i) arg, loc)
  = if (1 <? i)%Z
    then Ok (PVar (_make_q_str (NextOp (Some (i - 1)%Z) arg, loc)))
    else get_var (aut_transitions aut) (arg, loc).
Proof.
  intros Hm Hin.
  destruct (@compiled_call _ _ _ _ _ _ _ f input Hm Hin) as (c & Hc & ->); [discriminate|].
  simpl in Hc. destruct (Z.ltb_spec 1 i) as [Hlt|Hge].
  - injection Hc as <-. cbn [apply_closure]. apply (compiled_get_var _ Hm).
    destruct (cf_chains Hm) as (_ & Hchain & _). unfold states in *.
    rewrite (cf_transitions Hm) in *. now apply Hchain.
  - destruct (Z.eqb_spec i 1); [|discriminate]. injection Hc as <-. reflexivity.
Qed.

(** X7: the countdown of [X[i] a].  In a compiled automaton a state of a
    next operator has a step count [i >= 1]; for [i > 1] its transition is the
    variable of [X[i - 1] a] at the same location, which is declared, and for
    [i = 1] it is what [get_var] gives for [a]. *)
Theorem next_countdown (fuel : nat) (phi : Expr) (n : Z) (attr : option string)
    (aut : StrelAutomaton) (steps : option Z) (arg : Expr) (loc : Location) :
  from_strel_expr fuel phi n attr = Ok aut ->
  In (NextOp steps arg, loc) (states aut) ->
  exists i,
    steps = Some i /\ (1 <= i)%Z
    /\ forall f input,
        Transitions_call (S f) (aut_transitions aut) input (NextOp steps arg, loc)
        = if (1 <? i)%Z
          then Ok (PVar (_make_q_str (NextOp (Some (i - 1)%Z) arg, loc)))
          else get_var (aut_transitions aut) (arg, loc).
Proof.
  intros H Hin. apply compiled_tables in H. destruct H as [m Hm].
  destruct (compiled_state _ _ Hm Hin) as (c0 & Hc0 & _).
  destruct steps as [i|]; [|discriminate]. exists i. split; [reflexivity|].
  assert (Hi : (1 <= i)%Z).
  { simpl in Hc0. destruct (Z.ltb_spec 1 i); [lia|].
    destruct (Z.eqb_spec i 1); [lia | discriminate]. }
  split; [exact Hi|]. intros f input. eapply compiled_next_call; eassumption.
Qed.

(** X8: the countdown of [F[0, i] a].  In a compiled automaton a state of
    an eventually over [[0, i]] has [i >= 1], and its transition is the
    transition of [a] plus, for [i > 1], the variable of [F[0, i - 1] a],
    which is declared, and for [i = 1] what [get_var] gives for [a]. *)
Theorem eventually_countdown_steps (fuel : nat) (phi : Expr) (n : Z) (attr : option string)
    (aut : StrelAutomaton) (i : Z) (arg : Expr) (loc : Location) :
  from_strel_expr fuel phi n attr = Ok aut ->
  In (EventuallyOp (Some {| t_start := Some 0%Z; t_end := Some i |}) arg, loc) (states aut) ->
  (1 <= i)%Z
  /\ forall f input,
      Transitions_call (S f) (aut_transitions aut) input
                       (EventuallyOp (Some {| t_start := Some 0%Z; t_end := Some i |}) arg, loc)
      = (p <- Transitions_call f (aut_transitions aut) input (arg, loc) ;;
         v <- (if (1 <? i)%Z
               then Ok (PVar (_make_q_str
                                (EventuallyOp
                                   (Some {| t_start := Some 0%Z; t_end := Some (i - 1)%Z |})
                                   arg, loc)))
               else get_var (aut_transitions aut) (arg, loc)) ;;
         Ok (PAdd p v)).
Proof.
  intros H Hin. apply compiled_tables in H. destruct H as [m Hm].
  destruct (compiled_state _ _ Hm Hin) as (c0 & Hc0 & _).
  assert (Hi : (1 <= i)%Z).
  { simpl in Hc0. destruct (Z.ltb_spec 1 i); [lia|].
    destruct (Z.eqb_spec i 1); [lia | discriminate]. }
  split; [exact Hi|]. intros f input.
  destruct (@compiled_call _ _ _ _ _ _ _ f input Hm Hin) as (c & Hc & ->); [discriminate|].
  simpl in Hc. destruct (Z.ltb_spec 1 i) as [Hlt|Hge].
  - injection Hc as <-. cbn [apply_closure].
    rewrite (compiled_get_var _ Hm); [reflexivity|].
    destruct (cf_chains Hm) as (_ & _ & Hchain). unfold states in *.
    rewrite (cf_transitions Hm) in *. now apply Hchain.
  - destruct (Z.eqb_spec i 1); [|discriminate]. injection Hc as <-. reflexivity.
Qed.

(** X9: the transitions of the connectives and of the untimed operators in
    a compiled automaton: an identifier gives the constant of its label, a
    negation negates, conjunction and disjunction multiply and add the
    transitions of their arguments, [F a] is the transition of [a] plus its
    own variable, [l U r] is the transition of [r] plus the transition of
    [l] times its own variable, and a reach operator runs [check_reach] with
    the bounds [start or 0.0] and [end or math.inf] and the distance
    attribute of the compilation. *)
Theorem compiled_connectives (fuel : nat) (phi : Expr) (n : Z) (attr : option string)
    (aut : StrelAutomaton) (loc : Location) (f : nat) (input : Alph) :
  from_strel_expr fuel phi n attr = Ok aut ->
  (forall name,
      Transitions_call (S f) (aut_transitions aut) input (Identifier name, loc)
      = Ok (PConst (label_fn input loc name)))
  /\ (forall a,
         In (NotOp a, loc) (states aut) ->
         Transitions_call (S f) (aut_transitions aut) input (NotOp a, loc)
         = (p <- Transitions_call f (aut_transitions aut) input (a, loc) ;; Ok (PNeg p)))
  /\ (forall l r,
         In (AndOp l r, loc) (states aut) ->
         Transitions_call (S f) (aut_transitions aut) input (AndOp l r, loc)
         = (p <- Transitions_call f (aut_transitions aut) input (l, loc) ;;
            q <- Transitions_call f (aut_transitions aut) input (r, loc) ;;
            Ok (PMul p q)))
  /\ (forall l r,
         In (OrOp l r, loc) (states aut) ->
         Transitions_call (S f) (aut_transitions aut) input (OrOp l r, loc)
         = (p <- Transitions_call f (aut_transitions aut) input (l, loc) ;;
            q <- Transitions_call f (aut_transitions aut) input (r, loc) ;;
            Ok (PAdd p q)))
  /\ (forall a,
         In (EventuallyOp None a, loc) (states aut) ->
         Transitions_call (S f) (aut_transitions aut) input (EventuallyOp None a, loc)
         = (p <- Transitions_call f (aut_transitions aut) input (a, loc) ;;
            Ok (PAdd p (PVar (_make_q_str (EventuallyOp None a, loc))))))
  /\ (forall l r,
         In (UntilOp l None r, loc) (states aut) ->
         Transitions_call (S f) (aut_transitions aut) input (UntilOp l None r, loc)
         = (pr <- Transitions_call f (aut_transitions aut) input (r, loc) ;;
            pl <- Transitions_call f (aut_transitions aut) input (l, loc) ;;
            Ok (PAdd pr (PMul pl (PVar (_make_q_str (UntilOp l None r, loc)))))))
  /\ (forall l interval r,
         In (ReachOp l interval r, loc) (states aut) ->
         Transitions_call (S f) (aut_transitions aut) input (ReachOp l interval r, loc)
         = check_reach (Transitions_call f (aut_transitions aut)) (S f) l r loc input
                       (py_or (d_start interval) w0) (py_or (d_end interval) winf)
                       match attr with
                       | Some s => if string_dec s EmptyString then "weight"%string else s
                       | None => "weight"%string
                       end).
Proof.
  intros H. apply compiled_tables in H. destruct H as [m Hm].
  split; [|split; [|split; [|split; [|split; [|split]]]]].
  - intros name. cbn [Transitions_call]. unfold chase_alias. cbn [fst snd].
    rewrite (cf_transitions Hm).
    destruct (dict_get Expr_dec (Identifier name) (aliases (_transitions m))) as [e|] eqn:E;
      [|reflexivity].
    apply (cf_aliases Hm) in E. discriminate.
  - intros a Hin.
    destruct (@compiled_call _ _ _ _ _ _ _ f input Hm Hin) as (c & Hc & ->); [discriminate|].
    injection Hc as <-. reflexivity.
  - intros l r Hin.
    destruct (@compiled_call _ _ _ _ _ _ _ f input Hm Hin) as (c & Hc & ->); [discriminate|].
    injection Hc as <-. reflexivity.
  - intros l r Hin.
    destruct (@compiled_call _ _ _ _ _ _ _ f input Hm Hin) as (c & Hc & ->); [discriminate|].
    injection Hc as <-. reflexivity.
  - intros a Hin.
    destruct (@compiled_call _ _ _ _ _ _ _ f input Hm Hin) as (c & Hc & ->); [discriminate|].
    injection Hc as <-. cbn [apply_closure]. now rewrite (compiled_get_var _ Hm Hin).
  - intros l r Hin.
    destruct (@compiled_call _ _ _ _ _ _ _ f input Hm Hin) as (c & Hc & ->); [discriminate|].
    injection Hc as <-. cbn [apply_closure]. now rewrite (compiled_get_var _ Hm Hin).
  - intros l interval r Hin.
    destruct (@compiled_call _ _ _ _ _ _ _ f input Hm Hin) as (c & Hc & ->); [discriminate|].
    injection Hc as <-. cbn [apply_closure]. now rewrite (cf_dist_attr Hm).
Qed.

(** * Running a compiled automaton *)

(** ** Dictionaries built in a loop *)

Lemma dict_set_get_same (K V : Type) (K_dec : forall x y : K, {x = y} + {x <> y}) (k : K)
    (v : V) (d : dict K V) :
  dict_get K_dec k (dict_set K_dec k v d) = Some v.
Proof.
  induction d as [|[k' v'] d IH]; simpl.
  - destruct (K_dec k k); [reflexivity | contradiction].
  - destruct (K_dec k k') as [->|Hne]; simpl.
    + destruct (K_dec k' k'); [reflexivity | contradiction].
    + destruct (K_dec k k'); [contradiction | exact IH].
Qed.

Lemma dict_set_get_other (K V : Type) (K_dec : forall x y : K, {x = y} + {x <> y}) (k k' : K)
    (v : V) (d : dict K V) :
  k' <> k -> dict_get K_dec k' (dict_set K_dec k v d) = dict_get K_dec k' d.
Proof.
  intros Hne. induction d as [|[k0 v0] d IH]; simpl.
  - destruct (K_dec k' k); [contradiction | reflexivity].
  - destruct (K_dec k k0) as [->|Hk]; simpl.
    + destruct (K_dec k' k0); [contradiction | reflexivity].
    + destruct (K_dec k' k0); [reflexivity | exact IH].
Qed.

Lemma bind_assoc (A B C : Type) (r : result A) (f : A -> result B) (g : B -> result C) :
  bind (bind r f) g = bind r (fun a => bind (f a) g).
Proof. destruct r; reflexivity. Qed.

Lemma foldM_ext (A B : Type) (f g : A -> B -> result A) (l : list B) :
  (forall a b, f a b = g a b) -> forall a, foldM f l a = foldM g l a.
Proof.
  intros H. induction l as [|b l IH]; intros a; simpl; [reflexivity|].
  rewrite H. destruct (g a b); simpl; [apply IH | reflexivity].
Qed.

Lemma foldM_app (A B : Type) (f : A -> B -> result A) (l1 l2 : list B) (a : A) :
  foldM f (l1 ++ l2) a = (a' <- foldM f l1 a ;; foldM f l2 a').
Proof.
  revert a. induction l1 as [|b l1 IH]; intros a; simpl; [reflexivity|].
  destruct (f a b); simpl; [apply IH | reflexivity].
Qed.

Section FoldSet.
Variables (A V : Type) (key : A -> string) (val : A -> result V).

(** One round of a loop that computes a value for an item and stores it
    under the item's key. *)
Definition set_entry (d : dict string V) (a : A) : result (dict string V) :=
  v <- val a ;; Ok (dict_set string_dec (key a) v d).

Lemma foldM_set_entry_Ok (l : list A) :
  forall d0 d,
    foldM set_entry l d0 = Ok d ->
    (forall a, In a l -> exists v, val a = Ok v)
    /\ (forall x,
           (exists a v, In a l /\ key a = x /\ val a = Ok v
                        /\ dict_get string_dec x d = Some v)
           \/ ((forall a, In a l -> key a <> x)
               /\ dict_get string_dec x d = dict_get string_dec x d0)).
Proof.
  induction l as [|a l IH]; intros d0 d H; simpl in H.
  - injection H as <-. split; [intros a [] | intros x; right; split; [intros a [] | reflexivity]].
  - apply bind_Ok in H. destruct H as (d1 & H1 & H).
    unfold set_entry in H1. apply bind_Ok in H1. destruct H1 as (v & Hv & H1).
    injection H1 as <-. destruct (IH _ _ H) as [Hall Hget]. split.
    + intros a' [<-|Hin]; [eauto | now apply Hall].
    + intros x. destruct (Hget x) as [(a' & v' & Hin & Hk & Hv' & Hd)|[Hnone Hd]].
      * left. exists a', v'. repeat split; auto. now right.
      * destruct (string_dec x (key a)) as [->|Hne].
        -- left. exists a, v. repeat split; auto; [now left|].
           rewrite Hd. apply dict_set_get_same.
        -- right. split.
           ++ intros a' [<-|Hin]; [congruence | now apply Hnone].
           ++ rewrite Hd. now apply dict_set_get_other.
Qed.

Lemma foldM_set_entry_total (l : list A) :
  (forall a, In a l -> exists v, val a = Ok v) ->
  forall d0, exists d, foldM set_entry l d0 = Ok d.
Proof.
  induction l as [|a l IH]; intros Hall d0; simpl; [eauto|].
  destruct (Hall a (or_introl eq_refl)) as [v Hv]. unfold set_entry at 1. rewrite Hv.
  cbn [bind]. apply IH. intros a' Hin. apply Hall. now right.
Qed.

End FoldSet.

(** ** Polynomials over the names of the states *)

(** A polynomial whose variables are names of the given states. *)
Definition closed (S : list Q) (p : Poly) : Prop :=
  forall x, In x (poly_support p) -> exists q, In q S /\ _make_q_str q = x.

Lemma closed_binary (S : list Q) (a b : Poly) :
  closed S a -> closed S b -> closed S (PAdd a b) /\ closed S (PMul a b).
Proof.
  intros Ha Hb. split; intros x Hx; cbn [poly_support] in Hx; apply nodup_In in Hx;
    apply in_app_or in Hx; destruct Hx; auto.
Qed.

Lemma closed_add (S : list Q) (a b : Poly) : closed S a -> closed S b -> closed S (PAdd a b).
Proof. intros Ha Hb. now apply closed_binary. Qed.

Lemma closed_mul (S : list Q) (a b : Poly) : closed S a -> closed S b -> closed S (PMul a b).
Proof. intros Ha Hb. now apply closed_binary. Qed.

Lemma closed_ground (S : list Q) (p : Poly) : poly_support p = [] -> closed S p.
Proof. intros H x Hx. rewrite H in Hx. destruct Hx. Qed.

Lemma closed_var (S : list Q) (q : Q) : In q S -> closed S (PVar (_make_q_str q)).
Proof. intros H x [<-|[]]. eauto. Qed.

Lemma poly_let_closed (S : list Q) (tr : dict string Poly) (p : Poly) :
  (forall x, In x (poly_support p) ->
             exists t, dict_get string_dec x tr = Some t /\ closed S t) ->
  closed S (poly_let tr p).
Proof.
  induction p; intros H; cbn [poly_let];
    try (apply closed_ground; reflexivity).
  - destruct (H name (or_introl eq_refl)) as (t & -> & Ht). exact Ht.
  - apply closed_add; [apply IHp1 | apply IHp2]; intros x Hx; apply H;
      cbn [poly_support]; apply nodup_In, in_or_app; auto.
  - apply closed_mul; [apply IHp1 | apply IHp2]; intros x Hx; apply H;
      cbn [poly_support]; apply nodup_In, in_or_app; auto.
  - intros x Hx. cbn [poly_support] in Hx. now apply (IHp H).
Qed.

(** Evaluating after a substitution is evaluating under the values of the
    substituted polynomials. *)
Lemma poly_let_eval (costs costs' : dict string bool) (tr : dict string Poly) (p : Poly) :
  (forall x, In x (poly_support p) ->
             exists t v, dict_get string_dec x tr = Some t
                         /\ dict_get string_dec x costs' = Some v
                         /\ poly_eval costs t = Ok v) ->
  poly_eval costs (poly_let tr p) = poly_eval costs' p.
Proof.
  induction p; intros H; cbn [poly_let poly_eval]; try reflexivity.
  - destruct (H name (or_introl eq_refl)) as (t & v & -> & -> & Ht). exact Ht.
  - rewrite IHp1, IHp2; [reflexivity| |]; intros x Hx; apply H;
      cbn [poly_support]; apply nodup_In, in_or_app; auto.
  - rewrite IHp1, IHp2; [reflexivity| |]; intros x Hx; apply H;
      cbn [poly_support]; apply nodup_In, in_or_app; auto.
  - rewrite IHp; [reflexivity | exact H].
Qed.

(** ** The polynomials of a compiled table *)

Lemma dict_get_values (K V : Type) (K_dec : forall x y : K, {x = y} + {x <> y}) (k : K)
    (v : V) (d : dict K V) :
  dict_get K_dec k d = Some v -> In v (dict_values d).
Proof.
  induction d as [|[k' v'] d IH]; simpl; [discriminate|].
  destruct (K_dec k k'); [intros [= <-]; now left | intros H; right; now apply IH].
Qed.

Lemma dict_get_keys (K V : Type) (K_dec : forall x y : K, {x = y} + {x <> y}) (k : K)
    (v : V) (d : dict K V) :
  dict_get K_dec k d = Some v -> In k (dict_keys d).
Proof. intros H. apply (dict_mem_In K_dec). unfold dict_mem. now rewrite H. Qed.

(** No two states print to the same name, and no entry of [var_node_map]
    prints to the name of another state. *)
Definition names_distinctb (aut : StrelAutomaton) : bool :=
  forallb
    (fun q =>
       forallb
         (fun q' =>
            if string_dec (_make_q_str q) (_make_q_str q')
            then if Q_dec q q' then true else false
            else true)
         (states aut))
    (states aut ++ dict_values (aut_var_node_map aut)).

Lemma names_distinct_spec (aut : StrelAutomaton) (q q' : Q) :
  names_distinctb aut = true ->
  In q (states aut ++ dict_values (aut_var_node_map aut)) ->
  In q' (states aut) ->
  _make_q_str q = _make_q_str q' ->
  q = q'.
Proof.
  unfold names_distinctb. intros H Hq Hq' Heq.
  rewrite forallb_forall in H. specialize (H q Hq).
  rewrite forallb_forall in H. specialize (H q' Hq').
  destruct (string_dec (_make_q_str q) (_make_q_str q')); [|contradiction].
  destruct (Q_dec q q'); [assumption | discriminate].
Qed.

Section CompiledRun.
Variables (phi : Expr) (n : Z) (attr : option string) (aut : StrelAutomaton) (m : ExprMapper).
Hypothesis Hm : compiled_from phi n attr aut m.

Lemma get_var_closed (q : Q) (p : Poly) :
  get_var (aut_transitions aut) q = Ok p -> closed (states aut) p.
Proof.
  unfold get_var. generalize (chase_alias (aut_transitions aut) q) as s. intros s.
  assert (Hlook : match dict_get Q_dec s (const_mapping (aut_transitions aut)) with
                  | Some p0 => Ok p0
                  | None => Raise KeyError
                  end = Ok p -> closed (states aut) p).
  { destruct (dict_get Q_dec s (const_mapping (aut_transitions aut))) as [p0|] eqn:E;
      [|discriminate].
    intros [= <-]. pose proof E as Hn. rewrite (cf_transitions Hm) in Hn.
    apply (cf_vars Hm) in Hn. subst p0. apply closed_var. unfold states.
    now apply dict_get_keys in E. }
  destruct (fst s); try exact Hlook.
  intros [= <-]. destruct value; apply closed_ground; reflexivity.
Qed.

Section CallBack.
Variable call : Alph -> Q -> result Poly.
Hypothesis call_closed : forall input q p, call input q = Ok p -> closed (states aut) p.

Lemma fold_mul_closed (lhs : Expr) (input : Alph) (l : list Location) :
  forall pe0 pe,
    closed (states aut) pe0 ->
    foldM (fun pe l_p => t <- call input (lhs, l_p) ;; Ok (PMul pe t)) l pe0 = Ok pe ->
    closed (states aut) pe.
Proof.
  induction l as [|x l IH]; intros pe0 pe H0 H; simpl in H.
  - now injection H as <-.
  - apply bind_Ok in H. destruct H as (pe1 & H1 & H).
    apply bind_Ok in H1. destruct H1 as (t & Ht & H1). injection H1 as <-.
    eapply IH; [|exact H]. apply closed_mul; [exact H0 | eapply call_closed; exact Ht].
Qed.

Lemma check_reach_loop_closed (lhs rhs : Expr) (loc : Location) (input : Alph)
    (ending : Ending) (paths : list (list (option Edge))) :
  forall expr p,
    closed (states aut) expr ->
    check_reach_loop call lhs rhs loc input paths ending expr = Ok p ->
    closed (states aut) p.
Proof.
  induction paths as [|edge_path paths IH]; intros expr p He H; cbn [check_reach_loop] in H.
  - destruct ending; try discriminate. now injection H as <-.
  - apply bind_Ok in H. destruct H as (nodes & _ & H).
    apply bind_Ok in H. destruct H as (pe0 & H0 & H).
    apply bind_Ok in H. destruct H as (pe & Hpe & H).
    assert (Hc : closed (states aut) (PAdd expr pe)).
    { apply closed_add; [exact He|].
      eapply fold_mul_closed; [|exact Hpe]. eapply call_closed; exact H0. }
    destruct (poly_is_top (PAdd expr pe)).
    + now injection H as <-.
    + eapply IH; eassumption.
Qed.

Lemma apply_closure_closed (steps : nat) (fn : Partial) (input : Alph) (p : Poly) :
  apply_closure call (aut_transitions aut) steps fn input = Ok p -> closed (states aut) p.
Proof.
  destruct fn as [c loc]. destruct c; cbn [apply_closure]; intros H.
  - eapply call_closed; exact H.
  - apply bind_Ok in H. destruct H as (a & Ha & H). injection H as <-.
    intros x Hx. eapply call_closed; [exact Ha | exact Hx].
  - apply bind_Ok in H. destruct H as (a & Ha & H).
    apply bind_Ok in H. destruct H as (b & Hb & H). injection H as <-.
    apply closed_mul; eapply call_closed; eassumption.
  - apply bind_Ok in H. destruct H as (a & Ha & H).
    apply bind_Ok in H. destruct H as (b & Hb & H). injection H as <-.
    apply closed_add; eapply call_closed; eassumption.
  - eapply get_var_closed; exact H.
  - apply bind_Ok in H. destruct H as (a & Ha & H).
    apply bind_Ok in H. destruct H as (b & Hb & H). injection H as <-.
    apply closed_add; [eapply call_closed; eassumption | eapply get_var_closed; exact Hb].
  - apply bind_Ok in H. destruct H as (a & Ha & H).
    apply bind_Ok in H. destruct H as (b & Hb & H).
    apply bind_Ok in H. destruct H as (v & Hv & H). injection H as <-.
    apply closed_add; [eapply call_closed; eassumption|].
    apply closed_mul; [eapply call_closed; eassumption | eapply get_var_closed; exact Hv].
  - unfold check_reach in H.
    destruct (_all_reach_edge_paths steps input loc d1 d2 dist_attr0) as [paths ending].
    eapply check_reach_loop_closed; [|exact H]. apply closed_ground. reflexivity.
Qed.

End CallBack.

(** The variables of a transition are names of states. *)
Lemma Transitions_call_closed (fuel : nat) :
  forall input q p,
    Transitions_call fuel (aut_transitions aut) input q = Ok p -> closed (states aut) p.
Proof.
  induction fuel as [|fuel IH]; intros input q p H; [discriminate|].
  cbn [Transitions_call] in H.
  assert (Hlook : match dict_get Q_dec (chase_alias (aut_transitions aut) q)
                                 (transitions (aut_transitions aut)) with
                  | Some fn =>
                    apply_closure (Transitions_call fuel (aut_transitions aut))
                                  (aut_transitions aut) (S fuel) fn input
                  | None => Raise KeyError
                  end = Ok p -> closed (states aut) p).
  { destruct (dict_get Q_dec _ _) as [fn|]; [|discriminate].
    apply apply_closure_closed. exact IH. }
  destruct (fst (chase_alias (aut_transitions aut) q)); try exact (Hlook H).
  - injection H as <-. destruct value; apply closed_ground; reflexivity.
  - injection H as <-. apply closed_ground. reflexivity.
Qed.

Hypothesis Hnames : names_distinctb aut = true.

(** A name in the support resolves, through [var_node_map], to its state. *)
Lemma name_resolves (q : Q) :
  In q (states aut) ->
  dict_get string_dec (_make_q_str q) (aut_var_node_map aut) = Some q.
Proof.
  intros Hin. destruct (cf_names Hm) as [H1 H2].
  pose proof Hin as Hk. unfold states in Hk. rewrite (cf_transitions Hm) in Hk.
  apply H2 in Hk. apply (dict_get_In string_dec) in Hk. destruct Hk as [q0 Hq0].
  rewrite (cf_var_node_map Hm). rewrite Hq0. f_equal.
  eapply names_distinct_spec; [exact Hnames | | exact Hin | now apply H1].
  apply in_or_app. right. rewrite (cf_var_node_map Hm). now apply dict_get_values in Hq0.
Qed.

(** One step forward against one step in reverse. *)
Lemma one_step (fuel : nat) (costs costs' : dict string bool) (input : Alph) (p : Poly) :
  reverse_step fuel aut costs input = Ok costs' ->
  closed (states aut) p ->
  exists p',
    next fuel aut input p = Ok p'
    /\ closed (states aut) p'
    /\ poly_eval costs p' = poly_eval costs' p.
Proof.
  intros Hrev Hp. unfold reverse_step in Hrev.
  rewrite (foldM_ext _
             (set_entry _make_q_str
                        (fun q => p0 <- Transitions_call fuel (aut_transitions aut) input q ;;
                                  poly_eval costs p0))) in Hrev
    by (intros d q; unfold set_entry; now rewrite bind_assoc).
  apply foldM_set_entry_Ok in Hrev. destruct Hrev as [Hall Hget].
  assert (F1 : forall q, In q (states aut) ->
                         exists t v,
                           Transitions_call fuel (aut_transitions aut) input q = Ok t
                           /\ poly_eval costs t = Ok v
                           /\ dict_get string_dec (_make_q_str q) costs' = Some v).
  { intros q Hq. destruct (Hget (_make_q_str q)) as [(a & v & Ha & Hk & Hv & Hd)|[Hnone _]].
    - assert (a = q).
      { eapply names_distinct_spec; [exact Hnames | | exact Hq | exact Hk].
        apply in_or_app. now left. }
      subst a. apply bind_Ok in Hv. destruct Hv as (t & Ht & Hv). eauto.
    - now destruct (Hnone q Hq). }
  unfold next.
  rewrite (foldM_ext _
             (set_entry (fun var : string => var)
                        (fun var =>
                           q <- match dict_get string_dec var (aut_var_node_map aut) with
                                | Some q => Ok q
                                | None => Raise KeyError
                                end ;;
                           Transitions_call fuel (aut_transitions aut) input q)))
    by (intros d var; unfold set_entry; now rewrite bind_assoc).
  assert (F2 : forall x, In x (poly_support p) ->
                         exists q t v,
                           In q (states aut) /\ _make_q_str q = x
                           /\ (q0 <- match dict_get string_dec x (aut_var_node_map aut) with
                                     | Some q => Ok q
                                     | None => Raise KeyError
                                     end ;;
                               Transitions_call fuel (aut_transitions aut) input q0) = Ok t
                           /\ poly_eval costs t = Ok v
                           /\ dict_get string_dec x costs' = Some v).
  { intros x Hx. destruct (Hp x Hx) as (q & Hq & <-).
    destruct (F1 q Hq) as (t & v & Ht & Hv & Hd).
    exists q, t, v. rewrite name_resolves by exact Hq. cbn [bind]. auto. }
  assert (Htot : forall x, In x (poly_support p) ->
                           exists t,
                             (q0 <- match dict_get string_dec x (aut_var_node_map aut) with
                                    | Some q => Ok q
                                    | None => Raise KeyError
                                    end ;;
                              Transitions_call fuel (aut_transitions aut) input q0) = Ok t).
  { intros x Hx. destruct (F2 x Hx) as (q & t & v & _ & _ & Ht & _). eauto. }
  destruct (@foldM_set_entry_total string Poly (fun var : string => var) _ (poly_support p)
                                   Htot [])
    as [tr Htr].
  rewrite Htr. cbn [bind]. eexists. split; [reflexivity|].
  apply foldM_set_entry_Ok in Htr. destruct Htr as [_ Htr].
  assert (F3 : forall x, In x (poly_support p) ->
                         exists t v,
                           dict_get string_dec x tr = Some t
                           /\ dict_get string_dec x costs' = Some v
                           /\ poly_eval costs t = Ok v
                           /\ closed (states aut) t).
  { intros x Hx. destruct (F2 x Hx) as (q & t & v & Hq & Hname & Ht & Hv & Hd).
    destruct (Htr x) as [(a & t' & Ha & Hk & Ht' & Hd')|[Hnone _]].
    - subst a. rewrite Ht in Ht'. injection Ht' as <-.
      exists t, v. repeat split; auto.
      apply bind_Ok in Ht. destruct Ht as (q0 & _ & Ht).
      eapply Transitions_call_closed; exact Ht.
    - now destruct (Hnone x Hx). }
  split.
  - apply poly_let_closed. intros x Hx. destruct (F3 x Hx) as (t & v & H1 & _ & _ & H4). eauto.
  - apply poly_let_eval. intros x Hx. destruct (F3 x Hx) as (t & v & H1 & H2 & H3 & _). eauto.
Qed.

(** The forward run against the reverse run, from any polynomial over the
    names of the states. *)
Lemma forward_against_reverse (fuel : nat) (trace : list Alph) :
  forall (costs0 costsN : dict string bool) (p : Poly),
    foldM (reverse_step fuel aut) (rev trace) costs0 = Ok costsN ->
    closed (states aut) p ->
    exists pN,
      foldM (fun state input => next fuel aut input state) trace p = Ok pN
      /\ poly_eval costs0 pN = poly_eval costsN p.
Proof.
  induction trace as [|input trace IH]; intros costs0 costsN p Hrev Hp.
  - simpl in Hrev. injection Hrev as <-. exists p. split; reflexivity.
  - cbn [rev] in Hrev. rewrite foldM_app in Hrev.
    apply bind_Ok in Hrev. destruct Hrev as (c1 & Hc1 & Hrev).
    cbn [foldM] in Hrev. apply bind_Ok in Hrev. destruct Hrev as (c2 & Hstep & Hrev).
    injection Hrev as <-.
    edestruct one_step as (p' & Hnext & Hp' & Heval); [exact Hstep | exact Hp |].
    destruct (IH _ _ _ Hc1 Hp') as (pN & HpN & HevalN).
    exists pN. split.
    + cbn [foldM]. rewrite Hnext. cbn [bind]. exact HpN.
    + now rewrite HevalN.
Qed.

End CompiledRun.

(** ** The final mapping *)

(** [final_mapping] never raises, and gives every state whose name no other
    state shares the Boolean of its membership in [accepting_states]. *)
Lemma final_mapping_Ok (aut : StrelAutomaton) :
  exists d,
    final_mapping aut = Ok d
    /\ forall q,
        In q (states aut) ->
        (forall q', In q' (states aut) -> _make_q_str q' = _make_q_str q -> q' = q) ->
        dict_get string_dec (_make_q_str q) d
        = Some (if in_dec Q_dec q (accepting_states aut) then true else false).
Proof.
  unfold final_mapping.
  rewrite (foldM_ext _
             (set_entry _make_q_str
                        (fun q : Q => if in_dec Q_dec q (accepting_states aut)
                                      then poly_eval [] PTop
                                      else poly_eval [] PBot)))
    by reflexivity.
  assert (Htot : forall q, In q (states aut) ->
                           exists v, (if in_dec Q_dec q (accepting_states aut)
                                      then poly_eval [] PTop
                                      else poly_eval [] PBot) = Ok v).
  { intros q _. destruct (in_dec Q_dec q (accepting_states aut)); simpl; eauto. }
  destruct (@foldM_set_entry_total Q bool _make_q_str _ (states aut) Htot []) as [d Hd].
  exists d. split; [exact Hd|].
  apply foldM_set_entry_Ok in Hd. destruct Hd as [_ Hget].
  intros q Hq Huniq.
  destruct (Hget (_make_q_str q)) as [(a & v & Ha & Hk & Hv & Hd)|[Hnone _]].
  - apply Huniq in Hk; [|exact Ha]. subst a. rewrite Hd. f_equal.
    destruct (in_dec Q_dec q (accepting_states aut)); simpl in Hv; congruence.
  - now destruct (Hnone q Hq).
Qed.

(** ** Forward and reverse evaluation *)

(** X10: on a compiled automaton whose states print to distinct names,
    whenever [check_run] in reverse order returns a verdict, [check_run] in
    forward order returns the same verdict, for every ego location and every
    trace. *)
Theorem reverse_run_agrees (fuel0 : nat) (phi : Expr) (n : Z) (attr : option string)
    (aut : StrelAutomaton) (fuel : nat) (ego : Location) (trace : list Alph) (v : bool) :
  from_strel_expr fuel0 phi n attr = Ok aut ->
  names_distinctb aut = true ->
  check_run fuel aut ego trace true = Ok v ->
  check_run fuel aut ego trace false = Ok v.
Proof.
  intros H Hnames Hrev. apply compiled_tables in H. destruct H as [m Hm].
  rewrite check_run_reverse in Hrev.
  apply bind_Ok in Hrev. destruct Hrev as (costs0 & Hfinal & Hrev).
  apply bind_Ok in Hrev. destruct Hrev as (costsN & Hloop & Hrev).
  apply bind_Ok in Hrev. destruct Hrev as (init & Hinit & Hrev).
  assert (Hclosed : closed (states aut) init).
  { unfold initial_at in Hinit. eapply get_var_closed; eassumption. }
  edestruct forward_against_reverse as (pN & HpN & Heval);
    [exact Hm | exact Hnames | exact Hloop | exact Hclosed |].
  rewrite check_run_forward, Hinit. cbn [bind]. rewrite HpN. cbn [bind].
  rewrite Hfinal. cbn [bind]. now rewrite Heval.
Qed.

(** X11: in a compiled automaton the variables of every polynomial that the
    transition function returns are names of states, each the declared
    variable of its state. *)
Theorem transitions_support_closed (fuel0 : nat) (phi : Expr) (n : Z) (attr : option string)
    (aut : StrelAutomaton) (fuel : nat) (input : Alph) (q : Q) (p : Poly) (x : string) :
  from_strel_expr fuel0 phi n attr = Ok aut ->
  Transitions_call fuel (aut_transitions aut) input q = Ok p ->
  In x (poly_support p) ->
  exists q',
    In q' (states aut)
    /\ _make_q_str q' = x
    /\ dict_get Q_dec q' (const_mapping (aut_transitions aut)) = Some (PVar x).
Proof.
  intros H Hcall Hx. apply compiled_tables in H. destruct H as [m Hm].
  edestruct Transitions_call_closed as (q' & Hq' & Hname); [exact Hm | exact Hcall | exact Hx |].
  exists q'. split; [exact Hq'|]. split; [exact Hname|].
  destruct q' as [psi loc]. destruct (compiled_state _ _ Hm Hq') as (_ & _ & _ & Hv & _).
  now rewrite <- Hname.
Qed.

(** X12: the empty trace.  On a compiled automaton whose states print to
    distinct names, for an ego location below [max_locs] and a formula that
    stands for a formula with states, [check_run] on the empty trace returns,
    in both orders, whether the state of this formula is accepting: [True]
    for every formula that is not a derived operator. *)
Theorem check_run_empty_trace (fuel0 : nat) (phi : Expr) (n : Z) (attr : option string)
    (aut : StrelAutomaton) (fuel : nat) (ego : Location) (reverse_order : bool) :
  from_strel_expr fuel0 phi n attr = Ok aut ->
  names_distinctb aut = true ->
  gets_state (root_of phi) = true ->
  (Z.of_nat ego < n)%Z ->
  check_run fuel aut ego [] reverse_order = Ok (_is_accepting phi (root_of phi))
  /\ (alias_of phi = None -> _is_accepting phi (root_of phi) = true).
Proof.
  intros H Hnames Hg Hego. apply compiled_tables in H. destruct H as [m Hm].
  split.
  - assert (Hin : In (root_of phi, ego) (states aut))
      by (eapply compiled_root_state; eassumption).
    assert (Hinit : initial_at aut ego = Ok (PVar (_make_q_str (root_of phi, ego)))).
    { unfold initial_at. rewrite (cf_initial Hm).
      destruct (compiled_root Hm) as (_ & Hch & _).
      rewrite (get_var_chased _ _ _ (Hch ego)). now apply (compiled_get_var _ Hm). }
    destruct (final_mapping_Ok aut) as (d & Hd & Hget).
    assert (Hval : poly_eval d (PVar (_make_q_str (root_of phi, ego)))
                   = Ok (_is_accepting phi (root_of phi))).
    { cbn [poly_eval]. rewrite (Hget _ Hin).
      - f_equal. rewrite (cf_accepting Hm).
        destruct (in_dec Q_dec _ _) as [Hacc|Hacc].
        + apply filter_In in Hacc. destruct Hacc as [_ Hacc]. cbn [fst] in Hacc.
          now rewrite Hacc.
        + destruct (_is_accepting phi (root_of phi)) eqn:E; [|reflexivity].
          exfalso. apply Hacc. apply filter_In. split; [|exact E].
          pose proof (cf_same_keys Hm) as Hk. unfold same_keys in Hk. rewrite Hk.
          unfold states in Hin. now rewrite (cf_transitions Hm) in Hin.
      - intros q' Hq' Heq. eapply names_distinct_spec; [exact Hnames | | exact Hin | exact Heq].
        apply in_or_app. now left. }
    destruct reverse_order.
    + rewrite check_run_reverse, Hd. cbn [bind rev foldM]. now rewrite Hinit.
    + rewrite check_run_forward, Hinit. cbn [bind foldM]. now rewrite Hd.
  - intros Hal. unfold root_of. rewrite Hal. unfold _is_accepting.
    destruct (Expr_dec phi phi); [apply orb_true_r | contradiction].
Qed.

(** ** Running a propositional formula *)

(** The formulas without temporal and spatial operators. *)
Fixpoint propositional (phi : Expr) : bool :=
  match phi with
  | Constant _ | Identifier _ => true
  | NotOp arg => propositional arg
  | AndOp lhs rhs | OrOp lhs rhs => propositional lhs && propositional rhs
  | _ => false
  end.

(** The truth value of a propositional formula at a location of a graph. *)
Fixpoint prop_value (input : Alph) (loc : Location) (phi : Expr) : bool :=
  match phi with
  | Constant value => value
  | Identifier name => label_fn input loc name
  | NotOp arg => negb (prop_value input loc arg)
  | AndOp lhs rhs => prop_value input loc lhs && prop_value input loc rhs
  | OrOp lhs rhs => prop_value input loc lhs || prop_value input loc rhs
  | _ => false
  end.

(** The connectives of a propositional formula have their states at a
    location. *)
Fixpoint installed_at (keys : list Q) (loc : Location) (phi : Expr) : Prop :=
  match phi with
  | NotOp arg => In (phi, loc) keys /\ installed_at keys loc arg
  | AndOp lhs rhs | OrOp lhs rhs =>
    In (phi, loc) keys /\ installed_at keys loc lhs /\ installed_at keys loc rhs
  | _ => True
  end.

Lemma installed_at_mono (keys keys' : list Q) (loc : Location) (phi : Expr) :
  (forall q, In q keys -> In q keys') ->
  installed_at keys loc phi -> installed_at keys' loc phi.
Proof.
  intros Hsub. induction phi; cbn [installed_at]; try tauto.
  - intros [H1 H2]. auto.
  - intros (H1 & H2 & H3). auto.
  - intros (H1 & H2 & H3). auto.
Qed.

(** Every state is a propositional formula of depth at most [d] whose
    connectives have their states at the same location. *)
Definition prop_table (d : nat) (m : ExprMapper) : Prop :=
  forall psi loc,
    In (psi, loc) (dict_keys (const_mapping (_transitions m))) ->
    propositional psi = true
    /\ visit_depth psi <= d
    /\ installed_at (dict_keys (const_mapping (_transitions m))) loc psi.

Lemma add_transition_prop_table (d : nat) (phi : Expr) (c : Closure) (m : ExprMapper) :
  propositional phi = true ->
  visit_depth phi <= d ->
  prop_table d m ->
  (forall loc, (Z.of_nat loc < max_locs m)%Z ->
               installed_at (dict_keys (const_mapping (_transitions (_add_transition phi c m))))
                            loc phi) ->
  prop_table d (_add_transition phi c m).
Proof.
  intros Hp Hd Hm Hnew psi loc Hin. apply add_transition_keys_iff in Hin. cbn [fst snd] in Hin.
  destruct Hin as [Hin|[-> Hloc]].
  - destruct (Hm _ _ Hin) as (H1 & H2 & H3). split; [exact H1|]. split; [exact H2|].
    eapply installed_at_mono; [|exact H3]. intros q. apply add_transition_keeps.
  - split; [exact Hp|]. split; [exact Hd | now apply Hnew].
Qed.

Lemma visit_propositional (d fuel : nat) :
  forall phi m m',
    propositional phi = true ->
    visit_depth phi <= d ->
    visit fuel phi m = Ok m' ->
    prop_table d m ->
    prop_table d m'
    /\ forall loc, (Z.of_nat loc < max_locs m)%Z ->
                   installed_at (dict_keys (const_mapping (_transitions m'))) loc phi.
Proof.
  induction fuel as [|fuel IH]; intros phi m m' Hp Hd H Hm; [discriminate|].
  rewrite visit_S in H.
  destruct phi; try discriminate; cbn [propositional] in Hp; inv_bind.
  - split; [exact Hm | intros; exact I].
  - split; [|intros; exact I].
    apply add_transition_prop_table; [reflexivity | exact Hd | exact Hm | intros; exact I].
  - assert (Hd0 : visit_depth phi <= d) by (cbn [visit_depth] in Hd; lia).
    destruct (IH _ _ _ Hp Hd0 E Hm) as [Hm0 Hinst].
    assert (Hnew : forall loc,
               (Z.of_nat loc < max_locs m0)%Z ->
               installed_at
                 (dict_keys (const_mapping
                               (_transitions (_add_transition (NotOp phi) (LamNot phi) m0))))
                 loc (NotOp phi)).
    { intros loc Hloc. cbn [installed_at]. split; [now apply add_transition_keys|].
      eapply installed_at_mono; [intros q; apply add_transition_keeps|].
      apply Hinst. now rewrite <- (@visit_max_locs _ _ _ _ E). }
    split; [now apply add_transition_prop_table|].
    intros loc Hloc. apply Hnew. now rewrite (@visit_max_locs _ _ _ _ E).
  - apply andb_true_iff in Hp. destruct Hp as [Hp1 Hp2].
    assert (Hd1 : visit_depth phi1 <= d) by (cbn [visit_depth] in Hd; lia).
    assert (Hd2 : visit_depth phi2 <= d) by (cbn [visit_depth] in Hd; lia).
    destruct (IH _ _ _ Hp1 Hd1 E Hm) as [Hm0 Hinst1].
    destruct (IH _ _ _ Hp2 Hd2 E0 Hm0) as [Hm1 Hinst2].
    assert (Hnew : forall loc,
               (Z.of_nat loc < max_locs m1)%Z ->
               installed_at
                 (dict_keys (const_mapping
                               (_transitions (_add_transition (AndOp phi1 phi2)
                                                              (LamAnd phi1 phi2) m1))))
                 loc (AndOp phi1 phi2)).
    { intros loc Hloc. cbn [installed_at]. split; [now apply add_transition_keys|].
      rewrite (@visit_max_locs _ _ _ _ E0) in Hloc.
      split; (eapply installed_at_mono; [intros q; apply add_transition_keeps|]).
      - eapply installed_at_mono; [intros q; apply (@visit_keeps_key _ _ _ _ q E0)|].
        apply Hinst1. now rewrite <- (@visit_max_locs _ _ _ _ E).
      - now apply Hinst2. }
    split; [apply add_transition_prop_table;
            [cbn; now rewrite Hp1, Hp2 | exact Hd | exact Hm1 | exact Hnew]|].
    intros loc Hloc. apply Hnew.
    now rewrite (@visit_max_locs _ _ _ _ E0), (@visit_max_locs _ _ _ _ E).
  - apply andb_true_iff in Hp. destruct Hp as [Hp1 Hp2].
    assert (Hd1 : visit_depth phi1 <= d) by (cbn [visit_depth] in Hd; lia).
    assert (Hd2 : visit_depth phi2 <= d) by (cbn [visit_depth] in Hd; lia).
    destruct (IH _ _ _ Hp1 Hd1 E Hm) as [Hm0 Hinst1].
    destruct (IH _ _ _ Hp2 Hd2 E0 Hm0) as [Hm1 Hinst2].
    assert (Hnew : forall loc,
               (Z.of_nat loc < max_locs m1)%Z ->
               installed_at
                 (dict_keys (const_mapping
                               (_transitions (_add_transition (OrOp phi1 phi2)
                                                              (LamOr phi1 phi2) m1))))
                 loc (OrOp phi1 phi2)).
    { intros loc Hloc. cbn [installed_at]. split; [now apply add_transition_keys|].
      rewrite (@visit_max_locs _ _ _ _ E0) in Hloc.
      split; (eapply installed_at_mono; [intros q; apply add_transition_keeps|]).
      - eapply installed_at_mono; [intros q; apply (@visit_keeps_key _ _ _ _ q E0)|].
        apply Hinst1. now rewrite <- (@visit_max_locs _ _ _ _ E).
      - now apply Hinst2. }
    split; [apply add_transition_prop_table;
            [cbn; now rewrite Hp1, Hp2 | exact Hd | exact Hm1 | exact Hnew]|].
    intros loc Hloc. apply Hnew.
    now rewrite (@visit_max_locs _ _ _ _ E0), (@visit_max_locs _ _ _ _ E).
Qed.

Lemma propositional_not_aliased (psi : Expr) : propositional psi = true -> alias_of psi = None.
Proof. destruct psi; simpl; intros H; try discriminate; reflexivity. Qed.

(** The transition of a propositional formula whose connectives have their
    states is a polynomial without variables that evaluates to the truth
    value of the formula. *)
Lemma propositional_call (phi : Expr) (n : Z) (attr : option string) (aut : StrelAutomaton)
    (m : ExprMapper) (input : Alph) (loc : Location) (fuel : nat) :
  compiled_from phi n attr aut m ->
  forall psi,
    propositional psi = true ->
    installed_at (states aut) loc psi ->
    visit_depth psi <= fuel ->
    exists p,
      Transitions_call fuel (aut_transitions aut) input (psi, loc) = Ok p
      /\ poly_support p = []
      /\ forall costs, poly_eval costs p = Ok (prop_value input loc psi).
Proof.
  intros Hm. induction fuel as [|fuel IH]; intros psi Hp Hinst Hd.
  { pose proof (visit_depth_pos psi). lia. }
  assert (Hch : chase_alias (aut_transitions aut) (psi, loc) = (psi, loc)).
  { unfold chase_alias. cbn [fst snd]. rewrite (cf_transitions Hm).
    destruct (dict_get Expr_dec psi (aliases (_transitions m))) as [e|] eqn:E; [|reflexivity].
    apply (cf_aliases Hm) in E. rewrite (propositional_not_aliased _ Hp) in E. discriminate. }
  destruct psi; try discriminate; cbn [propositional] in Hp; cbn [installed_at] in Hinst;
    cbn [visit_depth] in Hd.
  - cbn [Transitions_call]. rewrite Hch. cbn [fst]. eexists. split; [reflexivity|].
    split; [now destruct value | intros costs; now destruct value].
  - cbn [Transitions_call]. rewrite Hch. cbn [fst snd]. eexists. split; [reflexivity|].
    split; reflexivity.
  - destruct Hinst as [Hin Hinst].
    destruct (@compiled_call _ _ _ _ _ _ _ fuel input Hm Hin) as (c & Hc & ->); [discriminate|].
    injection Hc as <-. cbn [apply_closure].
    destruct (IH _ Hp Hinst) as (p & -> & Hs & He); [lia|]. cbn [bind].
    eexists. split; [reflexivity|]. split; [exact Hs|].
    intros costs. cbn [poly_eval]. now rewrite He.
  - destruct Hinst as (Hin & Hinst1 & Hinst2). apply andb_true_iff in Hp. destruct Hp as [Hp1 Hp2].
    destruct (@compiled_call _ _ _ _ _ _ _ fuel input Hm Hin) as (c & Hc & ->); [discriminate|].
    injection Hc as <-. cbn [apply_closure].
    destruct (IH _ Hp1 Hinst1) as (p1 & -> & Hs1 & He1); [lia|].
    destruct (IH _ Hp2 Hinst2) as (p2 & -> & Hs2 & He2); [lia|]. cbn [bind].
    eexists. split; [reflexivity|]. split; [cbn [poly_support]; now rewrite Hs1, Hs2|].
    intros costs. cbn [poly_eval]. now rewrite He1, He2.
  - destruct Hinst as (Hin & Hinst1 & Hinst2). apply andb_true_iff in Hp. destruct Hp as [Hp1 Hp2].
    destruct (@compiled_call _ _ _ _ _ _ _ fuel input Hm Hin) as (c & Hc & ->); [discriminate|].
    injection Hc as <-. cbn [apply_closure].
    destruct (IH _ Hp1 Hinst1) as (p1 & -> & Hs1 & He1); [lia|].
    destruct (IH _ Hp2 Hinst2) as (p2 & -> & Hs2 & He2); [lia|]. cbn [bind].
    eexists. split; [reflexivity|]. split; [cbn [poly_support]; now rewrite Hs1, Hs2|].
    intros costs. cbn [poly_eval]. now rewrite He1, He2.
Qed.

(** X17: running a propositional formula.  For a formula built from
    constants, identifiers, negation, conjunction and disjunction, compiled
    with distinct names, [check_run] on a trace that is not empty returns, in
    forward and in reverse order, the truth value of the formula at the ego
    location on the first graph of the trace; the rest of the trace does not
    matter. *)
Theorem check_run_propositional (fuel0 : nat) (phi : Expr) (n : Z) (attr : option string)
    (aut : StrelAutomaton) (fuel : nat) (ego : Location) (input : Alph) (rest : list Alph)
    (reverse_order : bool) :
  from_strel_expr fuel0 phi n attr = Ok aut ->
  names_distinctb aut = true ->
  propositional phi = true ->
  (Z.of_nat ego < n)%Z ->
  visit_depth phi <= fuel ->
  check_run fuel aut ego (input :: rest) reverse_order = Ok (prop_value input ego phi).
Proof.
  intros H Hnames Hp Hego Hfuel. apply compiled_tables in H. destruct H as [m Hm].
  destruct (cf_visit Hm) as (fuel' & m0 & Hinit0 & Hvisit).
  pose proof (ExprMapper_init_Ok _ _ Hinit0) as (_ & _ & _ & Ht0).
  assert (Htable : prop_table (visit_depth phi) m).
  { eapply visit_propositional; [exact Hp | apply Nat.le_refl | exact Hvisit |].
    unfold prop_table. rewrite Ht0. intros psi loc []. }
  (* the initial polynomial *)
  destruct (compiled_root Hm) as (_ & _ & Hconst).
  assert (Hroot : root_of phi = phi)
    by (unfold root_of; now rewrite (propositional_not_aliased _ Hp)).
  rewrite Hroot in Hconst.
  assert (Hg : gets_state phi = true).
  { destruct phi; try discriminate; try reflexivity. now destruct (Hconst value). }
  assert (Hin : In (phi, ego) (states aut)).
  { rewrite <- Hroot. eapply compiled_root_state; [exact Hm | now rewrite Hroot | exact Hego]. }
  assert (Hinit : initial_at aut ego = Ok (PVar (_make_q_str (phi, ego)))).
  { unfold initial_at. rewrite (cf_initial Hm). now apply (compiled_get_var _ Hm). }
  (* one step in reverse *)
  assert (Hstep : forall costs inp,
             exists costs',
               reverse_step fuel aut costs inp = Ok costs'
               /\ forall q, In q (states aut) ->
                            dict_get string_dec (_make_q_str q) costs'
                            = Some (prop_value inp (snd q) (fst q))).
  { intros costs inp.
    assert (Hval : forall q, In q (states aut) ->
                             (p0 <- Transitions_call fuel (aut_transitions aut) inp q ;;
                              poly_eval costs p0) = Ok (prop_value inp (snd q) (fst q))).
    { intros [psi loc] Hq. pose proof Hq as Hq'. unfold states in Hq'.
      rewrite (cf_transitions Hm) in Hq'. destruct (Htable _ _ Hq') as (Hpp & Hpd & Hpi).
      edestruct (@propositional_call _ _ _ _ _ inp loc fuel Hm psi Hpp)
        as (p0 & Hcall & _ & Heval).
      - unfold states. rewrite (cf_transitions Hm). exact Hpi.
      - lia.
      - rewrite Hcall. cbn [bind fst snd]. apply Heval. }
    unfold reverse_step.
    rewrite (foldM_ext _
               (set_entry _make_q_str
                          (fun q => p0 <- Transitions_call fuel (aut_transitions aut) inp q ;;
                                    poly_eval costs p0)))
      by (intros d q; unfold set_entry; now rewrite bind_assoc).
    assert (Htot : forall q, In q (states aut) ->
                             exists v,
                               (p0 <- Transitions_call fuel (aut_transitions aut) inp q ;;
                                poly_eval costs p0) = Ok v) by (intros q Hq; eauto).
    destruct (@foldM_set_entry_total Q bool _make_q_str _ (states aut) Htot []) as [costs' Hc].
    exists costs'. split; [exact Hc|].
    apply foldM_set_entry_Ok in Hc. destruct Hc as [_ Hget]. intros q Hq.
    destruct (Hget (_make_q_str q)) as [(a & v & Ha & Hk & Hv & Hd)|[Hnone _]].
    - assert (a = q).
      { eapply names_distinct_spec; [exact Hnames | | exact Hq | exact Hk].
        apply in_or_app. now left. }
      subst a. rewrite (Hval _ Hq) in Hv. now injection Hv as <-.
    - now destruct (Hnone q Hq). }
  assert (Hsteps : forall l costs, exists costs', foldM (reverse_step fuel aut) l costs = Ok costs').
  { induction l as [|inp l IHl]; intros costs; cbn [foldM]; [eauto|].
    destruct (Hstep costs inp) as (c1 & -> & _). cbn [bind]. apply IHl. }
  (* the run in reverse *)
  destruct (final_mapping_Ok aut) as (d0 & Hd0 & _).
  destruct (Hsteps (rev rest) d0) as [c1 Hc1].
  destruct (Hstep c1 input) as (costsN & HcN & HgetN).
  assert (Hrev : foldM (reverse_step fuel aut) (rev (input :: rest)) d0 = Ok costsN).
  { cbn [rev]. rewrite foldM_app, Hc1. cbn [bind foldM]. now rewrite HcN. }
  assert (Hval : poly_eval costsN (PVar (_make_q_str (phi, ego)))
                 = Ok (prop_value input ego phi)).
  { cbn [poly_eval]. now rewrite (HgetN _ Hin). }
  destruct reverse_order.
  - rewrite check_run_reverse, Hd0. cbn [bind]. rewrite Hrev. cbn [bind].
    now rewrite Hinit.
  - edestruct forward_against_reverse as (pN & HpN & Heval);
      [exact Hm | exact Hnames | exact Hrev | apply (closed_var _ _ Hin) |].
    rewrite check_run_forward, Hinit. cbn [bind]. rewrite HpN. cbn [bind].
    rewrite Hd0. cbn [bind]. now rewrite Heval.
Qed.

(** ** Forward steps *)

Lemma poly_let_nil (p : Poly) : poly_let [] p = p.
Proof. induction p; cbn [poly_let dict_get]; congruence. Qed.

Section ForwardRun.
Variables (phi : Expr) (n : Z) (attr : option string) (aut : StrelAutomaton) (m : ExprMapper).
Hypothesis Hm : compiled_from phi n attr aut m.
Hypothesis Hnames : names_distinctb aut = true.

(** A step from the variable of a state gives the transition of the state. *)
Lemma next_on_var (fuel : nat) (input : Alph) (q : Q) (p : Poly) :
  In q (states aut) ->
  Transitions_call fuel (aut_transitions aut) input q = Ok p ->
  next fuel aut input (PVar (_make_q_str q)) = Ok p.
Proof.
  intros Hq Hcall. unfold next. cbn [poly_support foldM].
  rewrite (name_resolves Hm Hnames _ Hq). cbn [bind]. rewrite Hcall. cbn [bind poly_let dict_set dict_get].
  destruct (string_dec (_make_q_str q) (_make_q_str q)); [reflexivity | contradiction].
Qed.

(** A step from a polynomial without variables changes nothing. *)
Lemma next_on_ground (fuel : nat) (input : Alph) (p : Poly) :
  poly_support p = [] -> next fuel aut input p = Ok p.
Proof. intros H. unfold next. rewrite H. cbn [foldM bind]. now rewrite poly_let_nil. Qed.

Lemma run_on_ground (fuel : nat) (trace : list Alph) (p : Poly) :
  poly_support p = [] ->
  foldM (fun state input => next fuel aut input state) trace p = Ok p.
Proof.
  intros H. induction trace as [|input trace IH]; cbn [foldM]; [reflexivity|].
  rewrite next_on_ground by exact H. exact IH.
Qed.

(** The final mapping gives a state whether its formula is accepting. *)
Lemma final_value :
  exists d,
    final_mapping aut = Ok d
    /\ forall q, In q (states aut) ->
                 dict_get string_dec (_make_q_str q) d = Some (_is_accepting phi (fst q)).
Proof.
  destruct (final_mapping_Ok aut) as (d & Hd & Hget). exists d. split; [exact Hd|].
  intros q Hq. rewrite (Hget q Hq).
  - f_equal. rewrite (cf_accepting Hm).
    destruct (in_dec Q_dec _ _) as [Hacc|Hacc].
    + apply filter_In in Hacc. destruct Hacc as [_ Hacc]. now rewrite Hacc.
    + destruct (_is_accepting phi (fst q)) eqn:E; [|reflexivity].
      exfalso. apply Hacc. apply filter_In. split; [|exact E].
      pose proof (cf_same_keys Hm) as Hk. unfold same_keys in Hk. rewrite Hk.
      unfold states in Hq. now rewrite (cf_transitions Hm) in Hq.
  - intros q' Hq' Heq. eapply names_distinct_spec; [exact Hnames | | exact Hq | exact Heq].
    apply in_or_app. now left.
Qed.

End ForwardRun.

(** ** Running a next operator *)

Lemma propositional_gets_state (a : Expr) :
  propositional a = true -> (forall value, a <> Constant value) -> gets_state a = true.
Proof.
  intros Hp Hc. destruct a; try discriminate; try reflexivity. now destruct (Hc value).
Qed.

Lemma propositional_not_accepting (init a : Expr) :
  propositional a = true -> propositional init = false -> _is_accepting init a = false.
Proof.
  intros Hp Hi. unfold _is_accepting.
  destruct (Expr_dec a init) as [->|_]; [congruence|].
  destruct a; try reflexivity. destruct a; try reflexivity; discriminate.
Qed.

(** X18: running [X[k] a] for a propositional [a] that is not a constant.
    In forward order [check_run] returns the truth value of [a] at the ego
    location on the graph at index [k] of the trace; on a trace that is too
    short for that it returns [False], except on the empty trace, where it
    returns [True]. *)
Theorem check_run_next (fuel0 : nat) (k : Z) (a : Expr) (n : Z) (attr : option string)
    (aut : StrelAutomaton) (fuel : nat) (ego : Location) (trace : list Alph) :
  from_strel_expr fuel0 (NextOp (Some k) a) n attr = Ok aut ->
  names_distinctb aut = true ->
  propositional a = true ->
  (forall value, a <> Constant value) ->
  (1 <= k)%Z ->
  (Z.of_nat ego < n)%Z ->
  visit_depth a <= fuel ->
  check_run fuel aut ego trace false
  = Ok match nth_error trace (Z.to_nat k) with
       | Some input => prop_value input ego a
       | None => match trace with [] => true | _ => false end
       end.
Proof.
  intros H Hnames Hp Hconst Hk Hego Hfuel. apply compiled_tables in H. destruct H as [m Hm].
  set (phi := NextOp (Some k) a) in *.
  destruct (cf_visit Hm) as (fuel' & m0 & Hinit0 & Hvisit).
  pose proof (ExprMapper_init_Ok _ _ Hinit0) as (_ & Hn0 & _ & Ht0).
  destruct fuel' as [|fuel']; [discriminate|].
  unfold phi in Hvisit. rewrite visit_S in Hvisit.
  apply bind_Ok in Hvisit. destruct Hvisit as (m1 & Ea & Hvisit). injection Hvisit as Hmeq.
  assert (Hn1 : max_locs m1 = n) by (rewrite (@visit_max_locs _ _ _ _ Ea); exact Hn0).
  assert (Hkeys : forall q, In q (states aut)
                            <-> In q (dict_keys (const_mapping (_transitions m1)))
                                \/ (exists j, (j = 1 \/ 1 < j <= k)%Z
                                              /\ fst q = NextOp (Some j) a
                                              /\ (Z.of_nat (snd q) < n)%Z)).
  { intros q0. unfold states. rewrite (cf_transitions Hm), <- Hmeq, expand_add_next_keys, Hn1.
    reflexivity. }
  assert (Fa : In (a, ego) (states aut)).
  { apply Hkeys. left. apply (@visit_installs_canonical _ _ _ _ _ Ea).
    - now apply propositional_gets_state.
    - now rewrite Hn0. }
  assert (Finst : installed_at (states aut) ego a).
  { eapply installed_at_mono; [intros q0 Hq0; apply Hkeys; left; exact Hq0|].
    eapply (@visit_propositional (visit_depth a)); [exact Hp | apply Nat.le_refl | exact Ea | |].
    - unfold prop_table. rewrite Ht0. intros psi loc [].
    - now rewrite Hn0. }
  assert (Fchain : forall i, (1 <= i <= k)%Z -> In (NextOp (Some i) a, ego) (states aut)).
  { intros i Hi. apply Hkeys. right. exists i. cbn [fst snd]. repeat split; auto. lia. }
  destruct fuel as [|f]; [pose proof (visit_depth_pos a); lia|].
  destruct (@final_value _ _ _ _ _ Hm Hnames) as (d & Hd & Hfinal).
  (* from the variable of the argument *)
  assert (Hrun_a : forall rest,
             exists pN,
               foldM (fun state input => next (S f) aut input state) rest
                     (PVar (_make_q_str (a, ego))) = Ok pN
               /\ poly_eval d pN
                  = Ok match rest with [] => false | input :: _ => prop_value input ego a end).
  { intros [|input rest].
    - eexists. split; [reflexivity|]. cbn [poly_eval]. rewrite (Hfinal _ Fa). cbn [fst].
      rewrite propositional_not_accepting; [reflexivity | exact Hp | reflexivity].
    - edestruct (@propositional_call _ _ _ _ _ input ego (S f) Hm a Hp Finst Hfuel)
        as (p0 & Hcall & Hground & Heval).
      exists p0. split; [|apply Heval].
      cbn [foldM]. rewrite (@next_on_var _ _ _ _ _ Hm Hnames _ _ _ _ Fa Hcall). cbn [bind].
      apply run_on_ground. exact Hground. }
  (* from the variable of a next operator *)
  assert (Hrun : forall trace0 i,
             (1 <= i <= k)%Z ->
             exists pN,
               foldM (fun state input => next (S f) aut input state) trace0
                     (PVar (_make_q_str (NextOp (Some i) a, ego))) = Ok pN
               /\ poly_eval d pN
                  = Ok match nth_error trace0 (Z.to_nat i) with
                       | Some input => prop_value input ego a
                       | None => match trace0 with [] => (i =? k)%Z | _ => false end
                       end).
  { induction trace0 as [|input rest IH]; intros i Hi.
    - eexists. split; [reflexivity|]. cbn [poly_eval]. rewrite (Hfinal _ (Fchain i Hi)).
      cbn [fst]. replace (nth_error [] (Z.to_nat i)) with (@None Alph) by (now destruct (Z.to_nat i)).
      f_equal. f_equal. unfold _is_accepting, phi. cbn [orb].
      destruct (Expr_dec (NextOp (Some i) a) (NextOp (Some k) a)) as [Heq|Hne].
      + injection Heq as ->. now rewrite Z.eqb_refl.
      + destruct (Z.eqb_spec i k) as [->|]; [now destruct Hne | reflexivity].
    - pose proof (@compiled_next_call _ _ _ _ _ i a ego f input Hm (Fchain i Hi)) as Hcall.
      replace (Z.to_nat i) with (S (Z.to_nat (i - 1))) by lia. cbn [nth_error foldM].
      destruct (Z.ltb_spec 1 i) as [Hlt|Hge].
      + rewrite (@next_on_var _ _ _ _ _ Hm Hnames _ _ _ _ (Fchain i Hi) Hcall). cbn [bind].
        destruct (IH (i - 1)%Z ltac:(lia)) as (pN & HpN & Heval).
        exists pN. split; [exact HpN|]. rewrite Heval. f_equal.
        destruct (nth_error rest (Z.to_nat (i - 1))); [reflexivity|].
        destruct rest; [|reflexivity]. apply Z.eqb_neq. lia.
      + assert (i = 1%Z) by lia. subst i.
        rewrite (compiled_get_var _ Hm Fa) in Hcall.
        rewrite (@next_on_var _ _ _ _ _ Hm Hnames _ _ _ _ (Fchain 1%Z Hi) Hcall). cbn [bind].
        destruct (Hrun_a rest) as (pN & HpN & Heval).
        exists pN. split; [exact HpN|]. rewrite Heval. now destruct rest. }
  assert (Hinit : initial_at aut ego = Ok (PVar (_make_q_str (phi, ego)))).
  { unfold initial_at. rewrite (cf_initial Hm). apply (compiled_get_var _ Hm).
    apply Fchain. lia. }
  destruct (Hrun trace k ltac:(lia)) as (pN & HpN & Heval).
  rewrite check_run_forward, Hinit. cbn [bind]. fold phi in HpN. rewrite HpN. cbn [bind].
  rewrite Hd. cbn [bind]. rewrite Heval. f_equal.
  destruct (nth_error trace (Z.to_nat k)); [reflexivity|].
  destruct trace; [apply Z.eqb_refl | reflexivity].
Qed.

(** * Properties of the reach-path enumerator *)

(** The node that an edge enters. *)
Definition tgt (e : Edge) : Location := snd (fst e).

Fixpoint nodupb (l : list Location) : bool :=
  match l with
  | [] => true
  | x :: l' => negb (existsb (Nat.eqb x) l') && nodupb l'
  end.

(** A well-formed input graph for a distance attribute: every node has its
    adjacency entry, whose neighbours are distinct nodes of the graph at
    non-negative distances. *)
Definition graph_wfb (graph : Alph) (dist_attr : string) : bool :=
  forallb
    (fun u =>
       match graph_edges graph u dist_attr with
       | Raise _ => false
       | Ok es =>
         nodupb (map tgt es)
         && forallb (fun e : Edge =>
                       existsb (Nat.eqb (tgt e)) (graph_nodes graph) && wleb w0 (snd e))
                    es
       end)
    (graph_nodes graph).

(** [current_path] when the path has been entered through the edges [es]. *)
Definition build (es : list Edge) : PathDict :=
  (None, None) :: map (fun e : Edge => (Some (tgt e), Some e)) es.

Definition prepend (out : list (list (option Edge)))
    (r : list (list (option Edge)) * Ending) : list (list (option Edge)) * Ending :=
  (out ++ fst r, snd r).

Lemma prepend_nil r : prepend [] r = r.
Proof. destruct r; reflexivity. Qed.

Lemma prepend_app out1 out2 r : prepend (out1 ++ out2) r = prepend out1 (prepend out2 r).
Proof. destruct r; unfold prepend; simpl. now rewrite app_assoc. Qed.

Lemma nodupb_NoDup (l : list Location) : nodupb l = true -> NoDup l.
Proof.
  induction l as [|x l IH]; simpl; intros H; constructor;
    apply andb_true_iff in H; destruct H as [Hx Hl].
  - intros Hin. apply negb_true_iff in Hx.
    assert (existsb (Nat.eqb x) l = true); [|congruence].
    apply existsb_exists. exists x. split; [assumption | apply Nat.eqb_refl].
  - now apply IH.
Qed.

Lemma build_mem (v : Location) (es : list Edge) :
  dict_mem option_Location_dec (Some v) (build es) = true <-> In v (map tgt es).
Proof.
  rewrite dict_mem_In. unfold build, dict_keys. simpl. rewrite map_map. simpl.
  split.
  - intros [H|H]; [discriminate|]. apply in_map_iff in H. destruct H as (e & [= <-] & He).
    now apply in_map.
  - intros H. right. apply in_map_iff in H. destruct H as (e & <- & He).
    apply in_map_iff. eauto.
Qed.

Lemma build_mem_false (v : Location) (es : list Edge) :
  ~ In v (map tgt es) -> dict_mem option_Location_dec (Some v) (build es) = false.
Proof.
  intros H. destruct (dict_mem _ _ _) eqn:E; [|reflexivity].
  apply build_mem in E. contradiction.
Qed.

Lemma build_get_last (es : list Edge) (e : Edge) :
  ~ In (tgt e) (map tgt es) ->
  dict_get option_Location_dec (Some (tgt e)) (build (es ++ [e])) = Some (Some e).
Proof.
  intros H. unfold build. cbn [dict_get].
  destruct (option_Location_dec (Some (tgt e)) None); [discriminate|].
  induction es as [|x es IH]; cbn [map app dict_get].
  - destruct (option_Location_dec (Some (tgt e)) (Some (tgt e))) as [_|Hne];
      [reflexivity | now exfalso].
  - destruct (option_Location_dec (Some (tgt e)) (Some (tgt x))) as [[= E]|_].
    + exfalso. apply H. left. now symmetry.
    + apply IH. intros Hin. apply H. now right.
Qed.

Lemma build_set (es : list Edge) (e : Edge) :
  ~ In (tgt e) (map tgt es) ->
  dict_set option_Location_dec (Some (tgt e)) (Some e) (build es) = build (es ++ [e]).
Proof.
  intros H. unfold build. cbn [dict_set].
  destruct (option_Location_dec (Some (tgt e)) None); [discriminate|]. f_equal.
  induction es as [|x es IH]; cbn [map app dict_set]; [reflexivity|].
  destruct (option_Location_dec (Some (tgt e)) (Some (tgt x))) as [[= E]|_].
  - exfalso. apply H. left. now symmetry.
  - f_equal. apply IH. intros Hin. apply H. now right.
Qed.

Lemma build_pop (es : list Edge) (e : Edge) :
  popitem (build (es ++ [e])) = Some (build es).
Proof.
  unfold popitem, build. rewrite map_app. cbn [map].
  rewrite app_comm_cons, removelast_last. reflexivity.
Qed.

Lemma edge_path_nodes_Some (l : list Edge) :
  edge_path_nodes (map Some l) = Ok (map tgt l).
Proof.
  unfold edge_path_nodes. induction l as [|[[p v] w] l IH]; simpl; [reflexivity|].
  rewrite IH. reflexivity.
Qed.

(** The path yielded on entering [e] from the path [e0 :: es]. *)
Lemma yielded_nodes (e0 : Edge) (es : list Edge) (e : Edge) :
  edge_path_nodes (skipn 2 (dict_values (build (e0 :: es)) ++ [Some e]))
  = Ok (map tgt es ++ [tgt e]).
Proof.
  unfold build, dict_values. simpl. rewrite map_map. simpl.
  change (map (fun x : Edge => Some x) es ++ [Some e]) with (map Some es ++ map Some [e]).
  rewrite <- map_app, edge_path_nodes_Some, map_app. reflexivity.
Qed.

Section ReachPaths.
Context {Laws : DistanceLaws D}.
Variables (graph : Alph) (d1 d2 : W) (dist_attr : string).

(** The edges out of a node, as the enumerator reads them. *)
Definition edges_of (u : Location) : list Edge :=
  match graph_edges graph u dist_attr with
  | Ok es => es
  | Raise _ => []
  end.

(** [walk u len vs len']: [vs] lists the nodes of a path of the graph that
    leaves [u], and the cumulative length [len] at [u] has grown to [len'] at
    its end, one edge distance added after the other. *)
Inductive walk : Location -> W -> list Location -> W -> Prop :=
| walk_nil (u : Location) (len : W) : walk u len [] len
| walk_cons (u : Location) (len : W) (v : Location) (w : W) (vs : list Location) (len' : W) :
    In (Some u, v, w) (edges_of u) ->
    walk v (wadd len w) vs len' ->
    walk u len (v :: vs) len'.

(** [d1 <= len <= d2] *)
Definition in_range (len : W) : bool := wleb d1 len && wleb len d2.

(** The simple paths from [loc], given by the nodes after [loc], whose
    cumulative length lies in the range. *)
Definition reach_path (loc : Location) (vs : list Location) : Prop :=
  NoDup (loc :: vs) /\ exists len, walk loc w0 vs len /\ in_range len = true.

(** The paths that extend the current path (at node [u], through the nodes
    [visited], of length [len]) by an edge of [it] and a walk. *)
Definition ext (u : Location) (visited : list Location) (len : W) (it : list Edge)
    (vs : list Location) : Prop :=
  exists v w vs' len',
    vs = v :: vs' /\ In (Some u, v, w) it /\ NoDup (visited ++ vs)
    /\ walk v (wadd len w) vs' len' /\ in_range len' = true.

Definition trail (es : list Edge) : list Location := map tgt (tl es).

Definition unvisited (es : list Edge) : list Location :=
  filter (fun t => negb (dict_mem option_Location_dec (Some t) (build es))) (graph_nodes graph).

Definition has_left (es : list Edge) (v : Location) : bool :=
  negb match targets_left (graph_nodes graph) (build es) v with
       | [] => true
       | _ => false
       end.

Hypothesis graph_ok : graph_wfb graph dist_attr = true.

Lemma wf_edges (u : Location) :
  In u (graph_nodes graph) ->
  exists es,
    graph_edges graph u dist_attr = Ok es
    /\ edges_of u = es
    /\ NoDup (map tgt es)
    /\ forall e, In e es ->
                 fst (fst e) = Some u /\ In (tgt e) (graph_nodes graph)
                 /\ wleb w0 (snd e) = true.
Proof.
  intros Hu. unfold graph_wfb in graph_ok. rewrite forallb_forall in graph_ok.
  specialize (graph_ok u Hu). unfold edges_of.
  destruct (graph_edges graph u dist_attr) as [es|] eqn:E; [|discriminate].
  apply andb_true_iff in graph_ok. destruct graph_ok as [Hnd Hall].
  exists es. repeat split; try reflexivity.
  - now apply nodupb_NoDup.
  - unfold graph_edges in E. destruct (dict_get Nat.eq_dec u (_adj graph)); [|discriminate].
    injection E as <-. apply in_map_iff in H. destruct H as (nd & <- & _). reflexivity.
  - rewrite forallb_forall in Hall. specialize (Hall e H).
    apply andb_true_iff in Hall. destruct Hall as [Hin _].
    apply existsb_exists in Hin. destruct Hin as (x & Hx & Heq).
    apply Nat.eqb_eq in Heq. now rewrite Heq.
  - rewrite forallb_forall in Hall. specialize (Hall e H).
    apply andb_true_iff in Hall. now destruct Hall.
Qed.

Lemma walk_bound (u : Location) (len : W) (vs : list Location) (len' : W) :
  walk u len vs len' ->
  In u (graph_nodes graph) ->
  wleb len' d2 = true ->
  wleb len d2 = true.
Proof.
  induction 1 as [u len | u len v w vs len' Hin Hwalk IH]; intros Hu Hle; [exact Hle|].
  destruct (@wf_edges _ Hu) as (es & _ & Hes & _ & Hall).
  rewrite Hes in Hin. destruct (Hall _ Hin) as (_ & Hv & Hw). cbn in Hv, Hw.
  eapply wleb_trans; [apply wadd_mono; exact Hw | now apply IH].
Qed.

Lemma ext_cons_iff (u : Location) (visited : list Location) (len : W) (v : Location) (w : W)
    (it : list Edge) (vs : list Location) :
  ~ In v visited ->
  NoDup visited ->
  ~ In v (map tgt it) ->
  ext u visited len ((Some u, v, w) :: it) vs
  <-> (vs = [v] /\ in_range (wadd len w) = true)
      \/ (exists vs', vs = v :: vs' /\ ext v (visited ++ [v]) (wadd len w) (edges_of v) vs')
      \/ ext u visited len it vs.
Proof.
  intros Hv Hnd Hit. split.
  - intros (v1 & w1 & vs' & len' & -> & [Heq|Hin] & Hnd' & Hwalk & Hr).
    + injection Heq as <- <-. inversion Hwalk; subst.
      * left. auto.
      * right. left. eexists. split; [reflexivity|].
        do 4 eexists. split; [reflexivity|]. split; [eassumption|].
        split; [|split; eassumption].
        rewrite <- app_assoc. exact Hnd'.
    + right. right. exists v1, w1, vs', len'. auto.
  - intros [[-> Hr] | [(vs' & -> & v2 & w2 & vs3 & len' & -> & Hin & Hnd' & Hwalk & Hr) | H]].
    + exists v, w, [], (wadd len w). repeat split; auto.
      * now left.
      * apply NoDup_app; [assumption | repeat constructor; intros [] |].
        intros a Ha [<-|[]]. contradiction.
      * constructor.
    + exists v, w, (v2 :: vs3), len'. repeat split; auto.
      * now left.
      * rewrite <- app_assoc in Hnd'. exact Hnd'.
      * econstructor; eassumption.
    + destruct H as (v1 & w1 & vs' & len' & -> & Hin & Hnd' & Hwalk & Hr).
      exists v1, w1, vs', len'. repeat split; auto. now right.
Qed.

(** A path cannot go on through [v] when the enumerator does not expand [v]. *)
Lemma ext_expands (es : list Edge) (v : Location) (len : W) (vs : list Location) :
  ext v (map tgt es ++ [v]) len (edges_of v) vs ->
  In v (graph_nodes graph) ->
  wleb len d2 && has_left es v = true.
Proof.
  intros (v2 & w2 & vs3 & len' & -> & Hin & Hnd & Hwalk & Hr) Hv.
  destruct (@wf_edges _ Hv) as (esv & _ & Hes & _ & Hall).
  rewrite Hes in Hin. destruct (Hall _ Hin) as (_ & Hv2 & Hw2). cbn in Hv2, Hw2.
  apply andb_true_iff. split.
  - unfold in_range in Hr. apply andb_true_iff in Hr. destruct Hr as [_ Hr].
    eapply wleb_trans; [apply wadd_mono; exact Hw2|].
    eapply walk_bound; eassumption.
  - unfold has_left.
    assert (Hl : In v2 (targets_left (graph_nodes graph) (build es) v)).
    { unfold targets_left. apply filter_In. split; [assumption|].
      apply NoDup_remove_2 in Hnd. rewrite in_app_iff in Hnd.
      apply andb_true_iff. split; apply negb_true_iff.
      - apply build_mem_false. intros Hin2. apply Hnd. left. apply in_or_app. now left.
      - apply Nat.eqb_neq. intros ->. apply Hnd. left. apply in_or_app. right. now left. }
    destruct (targets_left _ _ _); [contradiction | reflexivity].
Qed.

Local Notation "'loop'" := (reach_loop graph d1 d2 dist_attr).

Lemma loop_S (s : nat) (top : list Edge) (below : list (list Edge)) (cp : PathDict) :
  loop (S s) (top :: below) cp =
  match next_unvisited top cp with
  | None =>
    match popitem cp with
    | None => ([], Raised KeyError)
    | Some cp' => loop s below cp'
    end
  | Some ((p, v, w), top') =>
    match new_path_len cp p w with
    | Raise e => ([], Raised e)
    | Ok len =>
      let yielded :=
        if in_range len then [skipn 2 (dict_values cp ++ [Some (p, v, w)])] else [] in
      if wleb len d2
         && negb match targets_left (graph_nodes graph) cp v with
                 | [] => true
                 | _ => false
                 end
      then
        match graph_edges graph v dist_attr with
        | Raise e => (yielded, Raised e)
        | Ok edges =>
          prepend yielded
                  (loop s (edges :: top' :: below)
                        (dict_set option_Location_dec (Some v) (Some (p, v, len)) cp))
        end
      else prepend yielded (loop s (top' :: below) cp)
    end
  end.
Proof.
  cbn [reach_loop].
  destruct (next_unvisited top cp) as [[[[p v] w] top']|]; [|reflexivity].
  destruct (new_path_len cp p w) as [len|e]; [|reflexivity].
  unfold in_range. cbv zeta.
  destruct (wleb len d2 && _).
  - destruct (graph_edges graph v dist_attr); [|reflexivity].
    destruct (reach_loop _ _ _ _ _ _ _). reflexivity.
  - destruct (reach_loop _ _ _ _ _ _ _). reflexivity.
Qed.

Lemma loop_skip (s : nat) (e : Edge) (it : list Edge) (below : list (list Edge))
    (cp : PathDict) :
  dict_mem option_Location_dec (Some (tgt e)) cp = true ->
  loop s ((e :: it) :: below) cp = loop s (it :: below) cp.
Proof.
  intros H. destruct s as [|s]; [reflexivity|].
  rewrite !loop_S. cbn [next_unvisited]. unfold tgt in H. rewrite H. reflexivity.
Qed.

Lemma unvisited_shrinks (es : list Edge) (e : Edge) :
  In (tgt e) (graph_nodes graph) ->
  ~ In (tgt e) (map tgt es) ->
  List.length (unvisited (es ++ [e])) < List.length (unvisited es).
Proof.
  intros Hn Hv. unfold unvisited.
  induction (graph_nodes graph) as [|t l IH]; [contradiction|].
  assert (Hmono : forall l',
             List.length (filter (fun t => negb (dict_mem option_Location_dec (Some t)
                                                     (build (es ++ [e])))) l')
             <= List.length (filter (fun t => negb (dict_mem option_Location_dec (Some t)
                                                        (build es))) l')).
  { induction l' as [|x l' IHl]; simpl; [lia|].
    destruct (dict_mem option_Location_dec (Some x) (build es)) eqn:E.
    - apply build_mem in E.
      rewrite (proj2 (build_mem x (es ++ [e]))); [simpl; exact IHl|].
      rewrite map_app. apply in_or_app. now left.
    - simpl. destruct (dict_mem option_Location_dec (Some x) (build (es ++ [e])));
        simpl; lia. }
  simpl. destruct Hn as [->|Hn].
  - rewrite (@build_mem_false _ _ Hv).
    rewrite (proj2 (build_mem (tgt e) (es ++ [e]))).
    + simpl. specialize (Hmono l). lia.
    + rewrite map_app. apply in_or_app. right. now left.
  - specialize (IH Hn).
    destruct (dict_mem option_Location_dec (Some t) (build es)) eqn:E.
    + apply build_mem in E.
      rewrite (proj2 (build_mem t (es ++ [e]))); [simpl; exact IH|].
      rewrite map_app. apply in_or_app. now left.
    + simpl. destruct (dict_mem option_Location_dec (Some t) (build (es ++ [e])));
        simpl; lia.
Qed.

Lemma yielded_trail (es0 : list Edge) (x e : Edge) :
  edge_path_nodes (skipn 2 (dict_values (build (es0 ++ [x])) ++ [Some e]))
  = Ok (trail (es0 ++ [x]) ++ [tgt e]).
Proof.
  unfold trail. destruct es0 as [|e0 es0]; cbn [app tl]; apply yielded_nodes.
Qed.

Lemma trail_snoc (es0 : list Edge) (x e : Edge) :
  trail ((es0 ++ [x]) ++ [e]) = trail (es0 ++ [x]) ++ [tgt e].
Proof.
  unfold trail. destruct es0 as [|e0 es0]; cbn [app tl]; [reflexivity|].
  now rewrite map_app.
Qed.

Lemma NoDup_map_cons (v : Location) (l : list (list Location)) :
  NoDup l -> NoDup (map (cons v) l).
Proof.
  induction 1 as [|x l Hx Hl IH]; simpl; constructor; [|assumption].
  intros Hin. apply in_map_iff in Hin. destruct Hin as (y & [= <-] & Hy). contradiction.
Qed.

(** One round of the loop on an edge into a node that the path has not
    visited. *)
Lemma loop_enter (s : nat) (es0 : list Edge) (p0 : option Location) (u : Location) (len : W)
    (v : Location) (w : W) (it : list Edge) (rest : list (list Edge)) :
  ~ In u (map tgt es0) ->
  ~ In v (map tgt (es0 ++ [(p0, u, len)])) ->
  loop (S s) (((Some u, v, w) :: it) :: rest) (build (es0 ++ [(p0, u, len)])) =
  let yielded :=
    if in_range (wadd len w)
    then [skipn 2 (dict_values (build (es0 ++ [(p0, u, len)])) ++ [Some (Some u, v, w)])]
    else [] in
  if wleb (wadd len w) d2 && has_left (es0 ++ [(p0, u, len)]) v
  then
    match graph_edges graph v dist_attr with
    | Raise e => (yielded, Raised e)
    | Ok edges =>
      prepend yielded
              (loop s (edges :: it :: rest)
                    (build ((es0 ++ [(p0, u, len)]) ++ [(Some u, v, wadd len w)])))
    end
  else prepend yielded (loop s (it :: rest) (build (es0 ++ [(p0, u, len)]))).
Proof.
  intros Hu Hv. rewrite loop_S. cbn [next_unvisited fst snd].
  rewrite (@build_mem_false v _ Hv).
  unfold new_path_len.
  pose proof (@build_get_last es0 (p0, u, len) Hu) as Hget.
  unfold tgt in Hget. cbn [fst snd] in Hget.
  pose proof (@build_set (es0 ++ [(p0, u, len)]) (Some u, v, wadd len w) Hv) as Hset.
  unfold tgt at 1 in Hset. cbn [fst snd] in Hset.
  unfold Edge, PathDict in *. rewrite Hget, Hset.
  reflexivity.
Qed.

Definition yielded_at (es : list Edge) (e : Edge) (len : W) : list (list (option Edge)) :=
  if in_range len then [skipn 2 (dict_values (build es) ++ [Some e])] else [].

Lemma loop_enter_expand (s : nat) (es0 : list Edge) (p0 : option Location) (u : Location)
    (len : W) (v : Location) (w : W) (it : list Edge) (rest : list (list Edge))
    (edges : list Edge) :
  ~ In u (map tgt es0) ->
  ~ In v (map tgt (es0 ++ [(p0, u, len)])) ->
  wleb (wadd len w) d2 && has_left (es0 ++ [(p0, u, len)]) v = true ->
  graph_edges graph v dist_attr = Ok edges ->
  loop (S s) (((Some u, v, w) :: it) :: rest) (build (es0 ++ [(p0, u, len)])) =
  prepend (yielded_at (es0 ++ [(p0, u, len)]) (Some u, v, w) (wadd len w))
          (loop s (edges :: it :: rest)
                (build ((es0 ++ [(p0, u, len)]) ++ [(Some u, v, wadd len w)]))).
Proof.
  intros Hu Hv Hexp Hge. rewrite loop_enter by assumption. cbv zeta.
  unfold yielded_at. unfold Edge, PathDict in *. rewrite Hexp, Hge. reflexivity.
Qed.

Lemma loop_enter_stop (s : nat) (es0 : list Edge) (p0 : option Location) (u : Location)
    (len : W) (v : Location) (w : W) (it : list Edge) (rest : list (list Edge)) :
  ~ In u (map tgt es0) ->
  ~ In v (map tgt (es0 ++ [(p0, u, len)])) ->
  wleb (wadd len w) d2 && has_left (es0 ++ [(p0, u, len)]) v = false ->
  loop (S s) (((Some u, v, w) :: it) :: rest) (build (es0 ++ [(p0, u, len)])) =
  prepend (yielded_at (es0 ++ [(p0, u, len)]) (Some u, v, w) (wadd len w))
          (loop s (it :: rest) (build (es0 ++ [(p0, u, len)]))).
Proof.
  intros Hu Hv Hexp. rewrite loop_enter by assumption. cbv zeta.
  unfold yielded_at. unfold Edge, PathDict in *. rewrite Hexp. reflexivity.
Qed.

Lemma yielded_at_nodes (es0 : list Edge) (x e : Edge) (len : W) :
  map edge_path_nodes (yielded_at (es0 ++ [x]) e len)
  = map (fun vs => Ok (trail (es0 ++ [x]) ++ vs))
        (if in_range len then [[tgt e]] else []).
Proof.
  unfold yielded_at. destruct (in_range len); [|reflexivity].
  cbn [map]. now rewrite yielded_trail.
Qed.

(** The loop, started on the edges [it] out of the last node of the current
    path, yields the extensions of the path through [it] and then goes on
    with the rest of the stack. *)
Lemma explore_correct (n : nat) :
  forall es0 p0 u len it pre rest,
    List.length (unvisited (es0 ++ [(p0, u, len)])) = n ->
    NoDup (map tgt (es0 ++ [(p0, u, len)])) ->
    (forall v, In v (map tgt (es0 ++ [(p0, u, len)])) -> In v (graph_nodes graph)) ->
    edges_of u = pre ++ it ->
    exists k out exts,
      (forall steps,
          loop (k + steps) (it :: rest) (build (es0 ++ [(p0, u, len)]))
          = prepend out (loop steps rest (build es0)))
      /\ map edge_path_nodes out
         = map (fun vs => Ok (trail (es0 ++ [(p0, u, len)]) ++ vs)) exts
      /\ NoDup exts
      /\ forall vs, In vs exts <-> ext u (map tgt (es0 ++ [(p0, u, len)])) len it vs.
Proof.
  induction n as [n IHn] using lt_wf_ind.
  intros es0 p0 u len it.
  induction it as [|[[p v] w] it IHit]; intros pre rest Hn Hnd Hnodes Hedges.
  { exists 1, [], []. split; [|split; [reflexivity|split; [constructor|]]].
    - intros steps. cbn [Nat.add]. rewrite loop_S. cbn [next_unvisited].
      rewrite build_pop. now rewrite prepend_nil.
    - intros vs; split; [intros [] | intros (v & w & vs' & len' & _ & [] & _)]. }
  assert (Hu : In u (graph_nodes graph)).
  { apply Hnodes. rewrite map_app. apply in_or_app. right. now left. }
  destruct (@wf_edges _ Hu) as (esu & _ & Hesu & Hndu & Hallu).
  rewrite Hedges in Hesu. subst esu.
  destruct (Hallu (p, v, w) (in_elt _ _ _)) as (Hp & Hv & Hw). cbn in Hp, Hv, Hw. subst p.
  assert (Hvit : ~ In v (map tgt it)).
  { rewrite map_app in Hndu. cbn [map] in Hndu. apply NoDup_remove_2 in Hndu.
    intros Hin. apply Hndu. apply in_or_app. now right. }
  destruct (IHit (pre ++ [(Some u, v, w)]) rest Hn Hnd Hnodes)
    as (k' & out' & exts' & Hloop' & Hout' & Hnd' & Hext').
  { rewrite <- app_assoc. exact Hedges. }
  assert (Hu0 : ~ In u (map tgt es0)).
  { rewrite map_app in Hnd. apply NoDup_remove_2 in Hnd. now rewrite app_nil_r in Hnd. }
  assert (Hvis0 : NoDup (map tgt (es0 ++ [(p0, u, len)]))) by exact Hnd.
  destruct (in_dec Nat.eq_dec v (map tgt (es0 ++ [(p0, u, len)]))) as [Hvis|Hnew].
  { (* the edge enters a node of the path *)
    exists k', out', exts'. split; [|split; [assumption|split; [assumption|]]].
    - intros steps. rewrite loop_skip; [apply Hloop'|]. apply build_mem. exact Hvis.
    - intros vs. rewrite Hext'. split.
      + intros (v1 & w1 & vs' & len' & -> & Hin & H).
        exists v1, w1, vs', len'. split; [reflexivity|]. split; [now right | exact H].
      + intros (v1 & w1 & vs' & len' & -> & [Heq|Hin] & Hnd1 & H).
        * injection Heq as <- <-. exfalso. apply NoDup_remove_2 in Hnd1.
          apply Hnd1. apply in_or_app. now left.
        * exists v1, w1, vs', len'. auto. }
  (* the edge enters a new node *)
  pose proof (fun vs => @ext_cons_iff u (map tgt (es0 ++ [(p0, u, len)])) len v w it vs
                                      Hnew Hvis0 Hvit) as Hsplit.
  pose (ext1 := if in_range (wadd len w) then [[v]] else @nil (list Location)).
  assert (Hext1 : forall vs, In vs ext1 <-> vs = [v] /\ in_range (wadd len w) = true).
  { intros vs. unfold ext1. destruct (in_range (wadd len w)); simpl; split.
    - intros [<-|[]]. auto.
    - intros [-> _]. now left.
    - intros [].
    - intros [_ H]. discriminate. }
  assert (Hfirst : forall vs, ext u (map tgt (es0 ++ [(p0, u, len)])) len it vs ->
                              exists v1 vs', vs = v1 :: vs' /\ v1 <> v).
  { intros vs (v1 & w1 & vs' & len' & -> & Hin & _). exists v1, vs'. split; [reflexivity|].
    intros ->. apply Hvit. apply in_map_iff. exists (Some u, v, w1). auto. }
  destruct (wleb (wadd len w) d2 && has_left (es0 ++ [(p0, u, len)]) v) eqn:Hexp.
  - (* the search goes on through the new node *)
    destruct (@wf_edges _ Hv) as (esv & Hge & Hev & _ & _).
    assert (Hlt : List.length (unvisited ((es0 ++ [(p0, u, len)]) ++ [(Some u, v, wadd len w)]))
                  < n).
    { rewrite <- Hn. apply unvisited_shrinks; assumption. }
    destruct (IHn _ Hlt (es0 ++ [(p0, u, len)]) (Some u) v (wadd len w) esv [] (it :: rest)
                  eq_refl)
      as (kv & outv & extsv & Hloopv & Houtv & Hndv & Hextv).
    { rewrite map_app. apply NoDup_app; [assumption | repeat constructor; intros [] |].
      intros a Ha [<-|[]]. contradiction. }
    { intros x Hx. rewrite map_app in Hx. apply in_app_or in Hx.
      destruct Hx as [Hx|[<-|[]]]; [now apply Hnodes | exact Hv]. }
    { exact Hev. }
    rewrite map_app in Hextv. cbn [map] in Hextv.
    change (tgt (Some u, v, wadd len w)) with v in Hextv. rewrite <- Hev in Hextv.
    exists (S (kv + k')),
      (yielded_at (es0 ++ [(p0, u, len)]) (Some u, v, w) (wadd len w) ++ outv ++ out'),
      (ext1 ++ map (cons v) extsv ++ exts').
    split; [|split; [|split]].
    + intros steps. cbn [Nat.add].
      rewrite (@loop_enter_expand _ _ _ _ _ _ _ _ _ esv Hu0 Hnew Hexp Hge).
      rewrite <- Nat.add_assoc, Hloopv, Hloop', !prepend_app. reflexivity.
    + rewrite !map_app. f_equal; [|f_equal; [|exact Hout']].
      * apply yielded_at_nodes.
      * rewrite Houtv, map_map. apply map_ext. intros vs.
        rewrite trail_snoc, <- app_assoc. reflexivity.
    + apply NoDup_app; [|apply NoDup_app|].
      * unfold ext1. destruct (in_range _); repeat constructor. intros [].
      * now apply NoDup_map_cons.
      * assumption.
      * intros vs Hin1 Hin2. apply in_map_iff in Hin1. destruct Hin1 as (y & <- & _).
        apply Hext', Hfirst in Hin2. destruct Hin2 as (v1 & vs' & [= <- _] & Hne). now apply Hne.
      * intros vs Hin1 Hin2. apply Hext1 in Hin1. destruct Hin1 as [-> _].
        apply in_app_or in Hin2. destruct Hin2 as [Hin2|Hin2].
        -- apply in_map_iff in Hin2. destruct Hin2 as (y & Heq & Hy).
           injection Heq as Heq. subst y.
           apply Hextv in Hy. destruct Hy as (? & ? & ? & ? & Hy & _). discriminate.
        -- apply Hext', Hfirst in Hin2. destruct Hin2 as (v1 & vs' & [= <- _] & Hne).
           now apply Hne.
    + intros vs. rewrite Hsplit. rewrite !in_app_iff, Hext1, Hext', in_map_iff.
      split; (intros [H|[H|H]]; [now left | right; left | now right; right]).
      * destruct H as (y & <- & Hy). exists y. split; [reflexivity | now apply Hextv].
      * destruct H as (y & -> & Hy). exists y. split; [reflexivity | now apply Hextv].
  - (* the search stops at the new node *)
    exists (S k'),
      (yielded_at (es0 ++ [(p0, u, len)]) (Some u, v, w) (wadd len w) ++ out'),
      (ext1 ++ exts').
    split; [|split; [|split]].
    + intros steps. cbn [Nat.add].
      rewrite (@loop_enter_stop _ _ _ _ _ _ _ _ _ Hu0 Hnew Hexp).
      rewrite Hloop', !prepend_app. reflexivity.
    + rewrite !map_app. f_equal; [|exact Hout'].
      apply yielded_at_nodes.
    + apply NoDup_app; [| assumption |].
      * unfold ext1. destruct (in_range _); repeat constructor. intros [].
      * intros vs Hin1 Hin2. apply Hext1 in Hin1. destruct Hin1 as [-> _].
        apply Hext', Hfirst in Hin2. destruct Hin2 as (v1 & vs' & [= <- _] & Hne).
        now apply Hne.
    + intros vs. rewrite Hsplit. rewrite !in_app_iff, Hext1, Hext'.
      split; (intros [H|H]; [now left | ]).
      * now right; right.
      * destruct H as [(y & -> & Hy)|H]; [|now right].
        apply ext_expands in Hy; [|assumption]. congruence.
Qed.

Lemma loop_finish (t : nat) : loop (S (S t)) [[]] (build []) = ([], Returned).
Proof. reflexivity. Qed.

Lemma loop_start (s : nat) (loc : Location) :
  loop (S s) [[(None, loc, w0)]] (build []) =
  let yielded := if in_range w0 then [[]] else [] in
  if wleb w0 d2 && has_left [] loc
  then
    match graph_edges graph loc dist_attr with
    | Raise e => (yielded, Raised e)
    | Ok edges => prepend yielded (loop s (edges :: [[]]) (build ([] ++ [(None, loc, w0)])))
    end
  else prepend yielded (loop s [[]] (build [])).
Proof.
  rewrite loop_S. reflexivity.
Qed.

(** C1: on a well-formed graph with non-negative distances, for a source
    [loc] of the graph and bounds [0 <= d1 <= d2], the enumerator returns
    after finitely many steps, and the paths it yields are exactly the simple
    paths from [loc] whose cumulative distance lies in [[d1, d2]]: each of
    them once, all of them simple, the empty path among them iff [d1 = 0]. *)
Theorem all_reach_edge_paths_spec (loc : Location) :
  In loc (graph_nodes graph) ->
  wleb w0 d1 = true ->
  wleb d1 d2 = true ->
  exists steps0 out paths,
    (forall steps,
        steps0 <= steps ->
        _all_reach_edge_paths steps graph loc d1 d2 dist_attr = (out, Returned))
    /\ map edge_path_nodes out = map Ok paths
    /\ NoDup paths
    /\ (forall vs, In vs paths <-> reach_path loc vs)
    /\ (forall vs, In vs paths -> NoDup (loc :: vs))
    /\ (In [] paths <-> d1 = w0).
Proof.
  intros Hloc Hd1 Hd12.
  pose (first := if in_range w0 then [@nil Location] else []).
  assert (Hfirst : forall vs, In vs first <-> vs = [] /\ in_range w0 = true).
  { intros vs. unfold first. destruct (in_range w0); simpl; split.
    - intros [<-|[]]. auto.
    - intros [-> _]. now left.
    - intros [].
    - intros [_ H]. discriminate. }
  assert (Hempty : in_range w0 = true <-> d1 = w0).
  { unfold in_range. rewrite andb_true_iff. split.
    - intros [H _]. now apply wleb_antisym.
    - intros ->. split; assumption. }
  assert (Hwalk : forall vs,
             reach_path loc vs
             <-> (vs = [] /\ in_range w0 = true) \/ ext loc [loc] w0 (edges_of loc) vs).
  { intros vs. unfold reach_path. split.
    - intros (Hnd & len & Hw & Hr). inversion Hw; subst.
      + left. auto.
      + right. do 4 eexists. repeat split; eauto.
    - intros [[-> Hr] | (v & w & vs' & len & -> & Hin & Hnd & Hw & Hr)].
      + split; [repeat constructor; intros [] | exists w0; split; [constructor | exact Hr]].
      + split; [exact Hnd | exists len; split; [econstructor; eassumption | exact Hr]]. }
  assert (Hresult : exists steps0 out exts,
             (forall steps, steps0 <= steps ->
                            loop steps [[(None, loc, w0)]] (build [])
                            = (map (fun _ => []) first ++ out, Returned))
             /\ map edge_path_nodes out = map Ok exts
             /\ NoDup exts
             /\ forall vs, In vs exts <-> ext loc [loc] w0 (edges_of loc) vs).
  { assert (Hy : (if in_range w0 then [[]] else []) = map (fun _ => @nil (option Edge)) first)
      by (unfold first; destruct (in_range w0); reflexivity).
    destruct (wleb w0 d2 && has_left [] loc) eqn:Hexp.
    - destruct (@wf_edges _ Hloc) as (esl & Hge & Hel & _ & _).
      destruct (@explore_correct _ [] None loc w0 esl [] [[]] eq_refl)
        as (k & out & exts & Hloop & Hout & Hnd & Hext).
      { repeat constructor. intros []. }
      { intros v [<-|[]]. exact Hloc. }
      { exact Hel. }
      exists (S (k + 2)), out, exts. rewrite <- Hel in Hext.
      split; [|split; [exact Hout|split; assumption]].
      intros steps Hsteps.
      replace steps with (S (k + S (S (steps - S (k + 2))))) by lia.
        rewrite loop_start. cbv zeta. rewrite Hexp, Hge, Hloop, loop_finish, Hy.
        unfold prepend. cbn [fst snd]. now rewrite app_nil_r.
    - exists 3, [], []. split; [|split; [reflexivity|split; [constructor|]]].
      + intros steps Hsteps. replace steps with (S (S (S (steps - 3)))) by lia.
        rewrite loop_start. cbv zeta. rewrite Hexp, loop_finish, Hy. reflexivity.
      + intros vs. split; [intros []|]. intros H.
        apply (@ext_expands [] loc w0 vs) in H; [congruence | exact Hloc]. }
  destruct Hresult as (steps0 & out & exts & Hloop & Hout & Hnd & Hext).
  assert (Hspec : forall vs, In vs (first ++ exts) <-> reach_path loc vs).
  { intros vs. rewrite Hwalk, in_app_iff, Hfirst, Hext. reflexivity. }
  exists steps0, (map (fun _ => []) first ++ out), (first ++ exts).
  split; [|split; [|split; [|split; [|split]]]].
  - exact Hloop.
  - rewrite !map_app, Hout. f_equal. unfold first. destruct (in_range w0); reflexivity.
  - apply NoDup_app; [|assumption|].
    + unfold first. destruct (in_range w0); repeat constructor. intros [].
    + intros vs H1 H2. apply Hfirst in H1. destruct H1 as [-> _].
      apply Hext in H2. destruct H2 as (? & ? & ? & ? & H2 & _). discriminate.
  - exact Hspec.
  - intros vs H. apply Hspec in H. now destruct H.
  - rewrite in_app_iff, Hfirst, Hext, <- Hempty. split.
    + intros [[_ H]|(? & ? & ? & ? & H & _)]; [exact H | discriminate].
    + intros H. left. auto.
Qed.

(** ** The enumeration for any bounds *)

(** For any bounds, the enumerator returns, and the node sequences of the
    paths it yields list the reach paths, each once. *)
Lemma reach_paths_enumerated (loc : Location) :
  In loc (graph_nodes graph) ->
  exists steps0 out paths,
    (forall steps,
        steps0 <= steps ->
        _all_reach_edge_paths steps graph loc d1 d2 dist_attr = (out, Returned))
    /\ map edge_path_nodes out = map Ok paths
    /\ NoDup paths
    /\ (forall vs, In vs paths <-> reach_path loc vs).
Proof.
  intros Hloc.
  pose (first := if in_range w0 then [@nil Location] else []).
  assert (Hfirst : forall vs, In vs first <-> vs = [] /\ in_range w0 = true).
  { intros vs. unfold first. destruct (in_range w0); simpl; split.
    - intros [<-|[]]. auto.
    - intros [-> _]. now left.
    - intros [].
    - intros [_ H]. discriminate. }
  assert (Hwalk : forall vs,
             reach_path loc vs
             <-> (vs = [] /\ in_range w0 = true) \/ ext loc [loc] w0 (edges_of loc) vs).
  { intros vs. unfold reach_path. split.
    - intros (Hnd & len & Hw & Hr). inversion Hw; subst.
      + left. auto.
      + right. do 4 eexists. repeat split; eauto.
    - intros [[-> Hr] | (v & w & vs' & len & -> & Hin & Hnd & Hw & Hr)].
      + split; [repeat constructor; intros [] | exists w0; split; [constructor | exact Hr]].
      + split; [exact Hnd | exists len; split; [econstructor; eassumption | exact Hr]]. }
  assert (Hy : (if in_range w0 then [[]] else []) = map (fun _ => @nil (option Edge)) first)
    by (unfold first; destruct (in_range w0); reflexivity).
  assert (Hresult : exists steps0 out exts,
             (forall steps, steps0 <= steps ->
                            loop steps [[(None, loc, w0)]] (build [])
                            = (map (fun _ => []) first ++ out, Returned))
             /\ map edge_path_nodes out = map Ok exts
             /\ NoDup exts
             /\ forall vs, In vs exts <-> ext loc [loc] w0 (edges_of loc) vs).
  { destruct (wleb w0 d2 && has_left [] loc) eqn:Hexp.
    - destruct (@wf_edges _ Hloc) as (esl & Hge & Hel & _ & _).
      destruct (@explore_correct _ [] None loc w0 esl [] [[]] eq_refl)
        as (k & out & exts & Hloop & Hout & Hnd & Hext).
      { repeat constructor. intros []. }
      { intros v [<-|[]]. exact Hloc. }
      { exact Hel. }
      exists (S (k + 2)), out, exts. rewrite <- Hel in Hext.
      split; [|split; [exact Hout|split; assumption]].
      intros steps Hsteps.
      replace steps with (S (k + S (S (steps - S (k + 2))))) by lia.
      rewrite loop_start. cbv zeta. rewrite Hexp, Hge, Hloop, loop_finish, Hy.
      unfold prepend. cbn [fst snd]. now rewrite app_nil_r.
    - exists 3, [], []. split; [|split; [reflexivity|split; [constructor|]]].
      + intros steps Hsteps. replace steps with (S (S (S (steps - 3)))) by lia.
        rewrite loop_start. cbv zeta. rewrite Hexp, loop_finish, Hy. reflexivity.
      + intros vs. split; [intros []|]. intros H.
        apply (@ext_expands [] loc w0 vs) in H; [congruence | exact Hloc]. }
  destruct Hresult as (steps0 & out & exts & Hloop & Hout & Hnd & Hext).
  exists steps0, (map (fun _ => []) first ++ out), (first ++ exts).
  split; [exact Hloop|]. split; [|split].
  - rewrite !map_app, Hout. f_equal. unfold first. destruct (in_range w0); reflexivity.
  - apply NoDup_app; [|assumption|].
    + unfold first. destruct (in_range w0); repeat constructor. intros [].
    + intros vs H1 H2. apply Hfirst in H1. destruct H1 as [-> _].
      apply Hext in H2. destruct H2 as (? & ? & ? & ? & H2 & _). discriminate.
  - intros vs. rewrite Hwalk, in_app_iff, Hfirst, Hext. reflexivity.
Qed.

(** X13: an empty range.  On a well-formed graph, when [d1 <= d2] does not
    hold, the enumerator yields no path at all and returns. *)
Theorem reach_paths_empty_range (loc : Location) :
  In loc (graph_nodes graph) ->
  wleb d1 d2 = false ->
  exists steps0,
    forall steps,
      steps0 <= steps ->
      _all_reach_edge_paths steps graph loc d1 d2 dist_attr = ([], Returned).
Proof.
  intros Hloc Hd.
  destruct (reach_paths_enumerated _ Hloc) as (steps0 & out & paths & Hloop & Hout & _ & Hspec).
  assert (Hnone : paths = []).
  { destruct paths as [|vs paths]; [reflexivity|]. exfalso.
    destruct (proj1 (Hspec vs) (or_introl eq_refl)) as (_ & len & _ & Hr).
    unfold in_range in Hr. apply andb_true_iff in Hr. destruct Hr as [H1 H2].
    rewrite (wleb_trans _ _ _ H1 H2) in Hd. discriminate. }
  subst paths. destruct out as [|o out]; [|discriminate].
  exists steps0. exact Hloop.
Qed.

(** ** What the reach transition evaluates to *)

Lemma poly_eval_defined (costs : dict string bool) (p : Poly) (b : bool) :
  poly_eval costs p = Ok b ->
  forall x, In x (poly_support p) -> exists v, dict_get string_dec x costs = Some v.
Proof.
  revert b. induction p; intros b H x Hx; cbn [poly_support] in Hx; try destruct Hx.
  - subst x. cbn [poly_eval] in H. destruct (dict_get string_dec name costs); [eauto|discriminate].
  - contradiction.
  - cbn [poly_eval] in H. apply bind_Ok in H. destruct H as (a & Ha & H).
    apply bind_Ok in H. destruct H as (c & Hc & _).
    apply nodup_In, in_app_or in Hx. destruct Hx; [eapply IHp1 | eapply IHp2]; eassumption.
  - cbn [poly_eval] in H. apply bind_Ok in H. destruct H as (a & Ha & H).
    apply bind_Ok in H. destruct H as (c & Hc & _).
    apply nodup_In, in_app_or in Hx. destruct Hx; [eapply IHp1 | eapply IHp2]; eassumption.
  - cbn [poly_eval] in H. apply bind_Ok in H. destruct H as (a & Ha & _).
    eapply IHp; eassumption.
Qed.

Lemma poly_eval_agree (a costs : dict string bool) (p : Poly) :
  (forall x, In x (poly_support p) -> dict_get string_dec x a = dict_get string_dec x costs) ->
  poly_eval a p = poly_eval costs p.
Proof.
  induction p; intros H; cbn [poly_eval]; try reflexivity.
  - now rewrite (H name (or_introl eq_refl)).
  - rewrite IHp1, IHp2; [reflexivity| |]; intros x Hx; apply H;
      cbn [poly_support]; apply nodup_In, in_or_app; auto.
  - rewrite IHp1, IHp2; [reflexivity| |]; intros x Hx; apply H;
      cbn [poly_support]; apply nodup_In, in_or_app; auto.
  - rewrite IHp; [reflexivity | exact H].
Qed.

Lemma assignments_cover (costs : dict string bool) (vars : list string) :
  (forall x, In x vars -> exists v, dict_get string_dec x costs = Some v) ->
  exists a,
    In a (assignments vars)
    /\ forall x, In x vars -> dict_get string_dec x a = dict_get string_dec x costs.
Proof.
  induction vars as [|y vars IH]; intros H.
  - exists []. split; [now left | intros x []].
  - destruct IH as (a & Ha & Hget); [intros x Hx; apply H; now right|].
    destruct (H y (or_introl eq_refl)) as [v Hv].
    exists ((y, v) :: a). split.
    + cbn [assignments]. apply in_flat_map. exists a. split; [exact Ha|].
      destruct v; [now left | right; now left].
    + intros x Hx. cbn [dict_get]. destruct (string_dec x y) as [->|Hne]; [now rewrite Hv|].
      destruct Hx as [Heq|Hx]; [congruence | now apply Hget].
Qed.

(** A polynomial that [is_top] evaluates to true wherever it evaluates. *)
Lemma poly_is_top_eval (costs : dict string bool) (p : Poly) (b : bool) :
  poly_is_top p = true -> poly_eval costs p = Ok b -> b = true.
Proof.
  intros Htop Heval. unfold poly_is_top in Htop. rewrite forallb_forall in Htop.
  destruct (assignments_cover costs (poly_support p) (poly_eval_defined _ _ Heval))
    as (a & Ha & Hget).
  specialize (Htop a Ha). rewrite (poly_eval_agree _ _ _ Hget), Heval in Htop.
  now destruct b.
Qed.

(** The condition that [check_reach] tests on a path out of [loc] through
    the nodes [vs]: the last node satisfies [rhs] and the nodes before it
    satisfy [lhs], under the given costs. *)
Definition path_holds (call : Alph -> Q -> result Poly) (lhs rhs : Expr) (loc : Location)
    (input : Alph) (costs : dict string bool) (vs : list Location) : Prop :=
  (exists pr, call input (rhs, last (loc :: vs) loc) = Ok pr /\ poly_eval costs pr = Ok true)
  /\ forall l, In l (removelast (loc :: vs)) ->
               exists pl, call input (lhs, l) = Ok pl /\ poly_eval costs pl = Ok true.

Section ReachSemantics.
Variable call : Alph -> Q -> result Poly.
Variables (lhs rhs : Expr) (loc : Location) (input : Alph) (costs : dict string bool).

Lemma fold_mul_eval (l : list Location) :
  forall pe0 pe b,
    foldM (fun pe l_p => t <- call input (lhs, l_p) ;; Ok (PMul pe t)) l pe0 = Ok pe ->
    poly_eval costs pe = Ok b ->
    exists b0,
      poly_eval costs pe0 = Ok b0
      /\ (b = true
          <-> b0 = true
              /\ forall x, In x l ->
                           exists pl, call input (lhs, x) = Ok pl
                                      /\ poly_eval costs pl = Ok true).
Proof.
  induction l as [|x l IH]; intros pe0 pe b H Heval; cbn [foldM] in H.
  - injection H as <-. exists b. split; [exact Heval|].
    split; [intros ->; split; [reflexivity | intros x []] | tauto].
  - apply bind_Ok in H. destruct H as (pe1 & H1 & H).
    apply bind_Ok in H1. destruct H1 as (t & Ht & H1). injection H1 as <-.
    destruct (IH _ _ _ H Heval) as (b1 & Hb1 & Hiff).
    cbn [poly_eval] in Hb1. apply bind_Ok in Hb1. destruct Hb1 as (b0 & Hb0 & Hb1).
    apply bind_Ok in Hb1. destruct Hb1 as (bt & Hbt & Hb1). injection Hb1 as <-.
    exists b0. split; [exact Hb0|]. rewrite Hiff, andb_true_iff. split.
    + intros [[-> ->] Hall]. split; [reflexivity|].
      intros y [<-|Hy]; [eauto | now apply Hall].
    + intros [-> Hall]. split; [split; [reflexivity|] | intros y Hy; apply Hall; now right].
      destruct (Hall x (or_introl eq_refl)) as (pl & Hpl & Hv). congruence.
Qed.

Lemma check_reach_loop_eval (out : list (list (option Edge))) :
  forall vss expr p b,
    map edge_path_nodes out = map Ok vss ->
    check_reach_loop call lhs rhs loc input out Returned expr = Ok p ->
    poly_eval costs p = Ok b ->
    exists b0,
      poly_eval costs expr = Ok b0
      /\ (b = true
          <-> b0 = true
              \/ exists vs, In vs vss /\ path_holds call lhs rhs loc input costs vs).
Proof.
  induction out as [|o out IH]; intros vss expr p b Hmap H Heval.
  - destruct vss; [|discriminate]. cbn [check_reach_loop] in H. injection H as <-.
    exists b. split; [exact Heval|]. split; [auto|].
    intros [H|(vs & [] & _)]; exact H.
  - destruct vss as [|vs vss]; [discriminate|]. cbn [map] in Hmap.
    injection Hmap as Hnodes Hmap.
    cbn [check_reach_loop] in H. rewrite Hnodes in H. cbn [bind] in H.
    apply bind_Ok in H. destruct H as (pe0 & H0 & H).
    apply bind_Ok in H. destruct H as (pe & Hpe & H).
    assert (Hpath : forall be, poly_eval costs pe = Ok be ->
                               (be = true <-> path_holds call lhs rhs loc input costs vs)).
    { intros be Hbe. destruct (fold_mul_eval _ _ Hpe Hbe) as (br & Hbr & Hiff).
      rewrite Hiff. unfold path_holds. split.
      - intros [-> Hall]. split; [eauto|]. intros l Hl. apply Hall. now apply -> in_rev.
      - intros [(pr & Hpr & Hv) Hall]. split; [congruence|].
        intros x Hx. apply Hall. now apply in_rev. }
    destruct (poly_is_top (PAdd expr pe)) eqn:Htop.
    + injection H as <-. pose proof (poly_is_top_eval _ _ Htop Heval) as ->.
      cbn [poly_eval] in Heval. apply bind_Ok in Heval. destruct Heval as (b0 & Hb0 & Heval).
      apply bind_Ok in Heval. destruct Heval as (be & Hbe & Heval). injection Heval as Hor.
      exists b0. split; [exact Hb0|]. split; [|reflexivity]. intros _.
      apply orb_true_iff in Hor. destruct Hor as [->| ->]; [now left|].
      right. exists vs. split; [now left | now apply (Hpath true)].
    + destruct (IH _ _ _ _ Hmap H Heval) as (b0' & Hb0' & Hiff).
      cbn [poly_eval] in Hb0'. apply bind_Ok in Hb0'. destruct Hb0' as (b0 & Hb0 & Hb0').
      apply bind_Ok in Hb0'. destruct Hb0' as (be & Hbe & Hb0'). injection Hb0' as <-.
      exists b0. split; [exact Hb0|]. rewrite Hiff, orb_true_iff. split.
      * intros [[-> | ->] | (vs0 & Hin & Hh)].
        -- now left.
        -- right. exists vs. split; [now left | now apply (Hpath true)].
        -- right. exists vs0. split; [now right | exact Hh].
      * intros [-> | (vs0 & [<- | Hin] & Hh)].
        -- left. now left.
        -- left. right. now apply (Hpath be).
        -- right. eauto.
Qed.

End ReachSemantics.

(** X14: what the reach transition evaluates to.  On a well-formed graph,
    with steps enough for the enumeration, the polynomial that [check_reach]
    returns evaluates to true exactly when there is a simple path from [loc]
    with cumulative distance in [[d1, d2]] whose last node satisfies [rhs] and
    whose other nodes satisfy [lhs]. *)
Theorem check_reach_semantics (call : Alph -> Q -> result Poly) (lhs rhs : Expr)
    (loc : Location) (costs : dict string bool) :
  In loc (graph_nodes graph) ->
  exists steps0,
    forall steps p b,
      steps0 <= steps ->
      check_reach call steps lhs rhs loc graph d1 d2 dist_attr = Ok p ->
      poly_eval costs p = Ok b ->
      (b = true
       <-> exists vs, reach_path loc vs /\ path_holds call lhs rhs loc graph costs vs).
Proof.
  intros Hloc.
  destruct (reach_paths_enumerated _ Hloc) as (steps0 & out & paths & Hloop & Hout & _ & Hspec).
  exists steps0. intros steps p b Hsteps Hcheck Heval.
  unfold check_reach in Hcheck. rewrite (Hloop _ Hsteps) in Hcheck.
  edestruct check_reach_loop_eval as (b0 & Hb0 & Hiff); [exact Hout | exact Hcheck | exact Heval |].
  cbn [poly_eval] in Hb0. injection Hb0 as <-. rewrite Hiff. split.
  - intros [H|(vs & Hin & Hh)]; [discriminate|]. exists vs. split; [now apply Hspec | exact Hh].
  - intros (vs & Hr & Hh). right. exists vs. split; [now apply Hspec | exact Hh].
Qed.

(** ** A source outside the graph *)

Lemma filter_all (A : Type) (f : A -> bool) (l : list A) :
  (forall x, In x l -> f x = true) -> filter f l = l.
Proof.
  induction l as [|x l IH]; intros H; simpl; [reflexivity|].
  rewrite (H x (or_introl eq_refl)). f_equal. apply IH. intros y Hy. apply H. now right.
Qed.

(** X16: a source that is not a node of the graph.  The enumerator yields
    the empty path if [d1 <= 0 <= d2]; then, if [0 <= d2] and the graph has a
    node, it asks the graph for the edges of the source, which raises
    [NetworkXError]; otherwise it returns. *)
Theorem reach_source_missing (loc : Location) (steps : nat) :
  ~ In loc (graph_nodes graph) ->
  dict_get Nat.eq_dec loc (_adj graph) = None ->
  _all_reach_edge_paths (S (S (S steps))) graph loc d1 d2 dist_attr
  = ((if wleb d1 w0 && wleb w0 d2 then [[]] else []),
     if wleb w0 d2 && negb (match graph_nodes graph with [] => true | _ => false end)
     then Raised NetworkXError
     else Returned).
Proof.
  intros Hloc Hadj. unfold _all_reach_edge_paths.
  change [(@None Location, @None Edge)] with (build []).
  rewrite loop_start. cbv zeta. fold (in_range w0).
  assert (Hleft : has_left [] loc
                  = negb (match graph_nodes graph with [] => true | _ => false end)).
  { unfold has_left, targets_left. rewrite filter_all; [reflexivity|].
    intros t Ht. apply andb_true_iff. split; apply negb_true_iff.
    - apply build_mem_false. intros [].
    - apply Nat.eqb_neq. intros ->. contradiction. }
  rewrite Hleft. unfold graph_edges. rewrite Hadj.
  destruct (wleb w0 d2 && negb _); [reflexivity|].
  rewrite loop_finish. unfold prepend. cbn [fst snd]. now rewrite app_nil_r.
Qed.

Lemma walk_nodes (u : Location) (len : W) (vs : list Location) (len' : W) :
  walk u len vs len' ->
  In u (graph_nodes graph) ->
  forall v, In v vs -> In v (graph_nodes graph).
Proof.
  induction 1 as [u len | u len v w vs len' Hin Hwalk IH]; intros Hu x Hx; [destruct Hx|].
  destruct (@wf_edges _ Hu) as (es & _ & Hes & _ & Hall).
  rewrite Hes in Hin. destruct (Hall _ Hin) as (_ & Hv & _). cbn in Hv.
  destruct Hx as [<-|Hx]; [exact Hv | now apply IH].
Qed.

Lemma reach_path_nodes (loc : Location) (vs : list Location) :
  reach_path loc vs ->
  In loc (graph_nodes graph) ->
  forall v, In v (loc :: vs) -> In v (graph_nodes graph).
Proof.
  intros (_ & len & Hwalk & _) Hloc v [<-|Hv]; [exact Hloc|].
  eapply walk_nodes; eassumption.
Qed.

End ReachPaths.

(** * Running a reach operator *)

Lemma nodup_nil_inv (l : list string) : nodup string_dec l = [] -> l = [].
Proof.
  induction l as [|x l IH]; [reflexivity|]. cbn [nodup].
  destruct (in_dec string_dec x l) as [Hin|]; [|discriminate].
  intros H. apply IH in H. subst l. destruct Hin.
Qed.

Lemma ground_binary (a b : Poly) :
  poly_support a = [] -> poly_support b = [] ->
  poly_support (PAdd a b) = [] /\ poly_support (PMul a b) = [].
Proof. intros Ha Hb. cbn [poly_support]. now rewrite Ha, Hb. Qed.

(** A polynomial without variables has a value. *)
Lemma poly_eval_ground (p : Poly) :
  poly_support p = [] -> exists b, forall costs, poly_eval costs p = Ok b.
Proof.
  induction p; cbn [poly_support poly_eval]; intros H; try (eexists; reflexivity).
  - discriminate.
  - apply nodup_nil_inv, app_eq_nil in H. destruct H as [H1 H2].
    destruct (IHp1 H1) as [a Ha]. destruct (IHp2 H2) as [b Hb].
    eexists. intros costs. rewrite Ha, Hb. reflexivity.
  - apply nodup_nil_inv, app_eq_nil in H. destruct H as [H1 H2].
    destruct (IHp1 H1) as [a Ha]. destruct (IHp2 H2) as [b Hb].
    eexists. intros costs. rewrite Ha, Hb. reflexivity.
  - destruct (IHp H) as [a Ha]. eexists. intros costs. rewrite Ha. reflexivity.
Qed.

Lemma In_last (A : Type) (l : list A) (x d : A) : In (last (x :: l) d) (x :: l).
Proof.
  revert x. induction l as [|y l IH]; intros x; [now left|].
  change (last (x :: y :: l) d) with (last (y :: l) d). right. apply IH.
Qed.

Lemma In_removelast (A : Type) (l : list A) (x : A) : In x (removelast l) -> In x l.
Proof.
  induction l as [|y l IH]; [intros []|]. cbn [removelast].
  destruct l as [|z l]; [intros []|]. intros [<-|H]; [now left | right; now apply IH].
Qed.

Section ReachTotal.
Variable call : Alph -> Q -> result Poly.
Variables (lhs rhs : Expr) (loc : Location) (input : Alph).

(** The calls of [check_reach] at a node give polynomials without
    variables. *)
Definition node_ok (v : Location) : Prop :=
  (exists t, call input (lhs, v) = Ok t /\ poly_support t = [])
  /\ (exists t, call input (rhs, v) = Ok t /\ poly_support t = []).

Lemma fold_mul_total (l : list Location) :
  (forall x, In x l -> node_ok x) ->
  forall pe0,
    poly_support pe0 = [] ->
    exists pe,
      foldM (fun pe l_p => t <- call input (lhs, l_p) ;; Ok (PMul pe t)) l pe0 = Ok pe
      /\ poly_support pe = [].
Proof.
  induction l as [|x l IH]; intros Hall pe0 H0; cbn [foldM]; [eauto|].
  destruct (Hall x (or_introl eq_refl)) as [(t & -> & Ht) _]. cbn [bind].
  apply IH; [intros y Hy; apply Hall; now right | now apply ground_binary].
Qed.

Lemma check_reach_loop_total (out : list (list (option Edge))) :
  forall vss expr,
    map edge_path_nodes out = map Ok vss ->
    (forall vs, In vs vss -> forall v, In v (loc :: vs) -> node_ok v) ->
    poly_support expr = [] ->
    exists p,
      check_reach_loop call lhs rhs loc input out Returned expr = Ok p
      /\ poly_support p = [].
Proof.
  induction out as [|o out IH]; intros vss expr Hmap Hall He.
  - cbn [check_reach_loop]. eauto.
  - destruct vss as [|vs vss]; [discriminate|]. cbn [map] in Hmap.
    injection Hmap as Hnodes Hmap. cbn [check_reach_loop]. rewrite Hnodes. cbn [bind].
    assert (Hvs : forall v, In v (loc :: vs) -> node_ok v)
      by (intros v Hv; apply (Hall vs); [now left | exact Hv]).
    destruct (Hvs _ (In_last vs loc loc)) as [_ (t & -> & Ht)]. cbn [bind].
    destruct (@fold_mul_total (rev (removelast (loc :: vs)))) with (pe0 := t)
      as (pe & -> & Hpe); [|exact Ht|].
    { intros x Hx. apply Hvs. apply In_removelast. now apply in_rev. }
    cbn [bind]. destruct (poly_is_top (PAdd expr pe)).
    + eexists. split; [reflexivity | now apply ground_binary].
    + apply (IH vss); [exact Hmap | | now apply ground_binary].
      intros vs' Hvs' v Hv. apply (Hall vs'); [now right | exact Hv].
Qed.

End ReachTotal.

(** [dist_attr or "weight"] *)
Definition effective_attr (attr : option string) : string :=
  match attr with
  | Some s => if string_dec s EmptyString then "weight"%string else s
  | None => "weight"%string
  end.

Lemma visit_reach_installed (d fuel : nat) (l : Expr) (interval : DistanceInterval) (r : Expr)
    (m m' : ExprMapper) :
  propositional l = true -> propositional r = true ->
  visit_depth l <= d -> visit_depth r <= d ->
  visit fuel (ReachOp l interval r) m = Ok m' ->
  prop_table d m ->
  forall loc, (Z.of_nat loc < max_locs m)%Z ->
              installed_at (dict_keys (const_mapping (_transitions m'))) loc l
              /\ installed_at (dict_keys (const_mapping (_transitions m'))) loc r.
Proof.
  intros Hpl Hpr Hdl Hdr H Hm loc Hloc. destruct fuel as [|fuel]; [discriminate|].
  rewrite visit_S in H. apply bind_Ok in H. destruct H as (m0 & El & H).
  apply bind_Ok in H. destruct H as (m1 & Er & H). injection H as <-.
  destruct (@visit_propositional d fuel l m m0 Hpl Hdl El Hm) as [Hm0 Hil].
  destruct (@visit_propositional d fuel r m0 m1 Hpr Hdr Er Hm0) as [Hm1 Hir].
  split.
  - eapply installed_at_mono; [intros q; apply add_transition_keeps|].
    eapply installed_at_mono; [intros q; apply (@visit_keeps_key _ _ _ _ q Er)|].
    now apply Hil.
  - eapply installed_at_mono; [intros q; apply add_transition_keeps|].
    apply Hir. now rewrite (@visit_max_locs _ _ _ _ El).
Qed.

(** X19: running a reach operator.  For [l R[I] r] (or [somewhere[I] r],
    where [l] is [true]) over propositional [l] and [r], compiled with
    distinct names, on a well-formed graph whose nodes are all below
    [max_locs], with fuel enough for the enumeration, [check_run] in forward
    order returns a verdict, and the verdict is true exactly when the first
    graph of the trace has a simple path from the ego location, of cumulative
    distance between [I.start or 0.0] and [I.end or math.inf], whose last
    node satisfies [r] and whose other nodes satisfy [l]. *)
Theorem check_run_reach {Laws : DistanceLaws D} (fuel0 : nat) (phi l : Expr)
    (interval : DistanceInterval) (r : Expr) (n : Z) (attr : option string)
    (aut : StrelAutomaton) (ego : Location) (graph : Alph) :
  from_strel_expr fuel0 phi n attr = Ok aut ->
  phi = ReachOp l interval r \/ (phi = SomewhereOp interval r /\ l = Constant true) ->
  names_distinctb aut = true ->
  propositional l = true ->
  propositional r = true ->
  graph_wfb graph (effective_attr attr) = true ->
  In ego (graph_nodes graph) ->
  (forall v, In v (graph_nodes graph) -> (Z.of_nat v < n)%Z) ->
  exists fuel1,
    forall fuel rest,
      fuel1 <= fuel ->
      exists b,
        check_run fuel aut ego (graph :: rest) false = Ok b
        /\ (b = true
            <-> exists vs,
               reach_path graph (py_or (d_start interval) w0) (py_or (d_end interval) winf)
                          (effective_attr attr) ego vs
               /\ prop_value graph (last (ego :: vs) ego) r = true
               /\ forall v, In v (removelast (ego :: vs)) -> prop_value graph v l = true).
Proof.
  intros H Hshape Hnames Hpl Hpr Hok Hego Hnodes.
  apply compiled_tables in H. destruct H as [m Hm].
  destruct (cf_visit Hm) as (fuel' & m0 & Hinit0 & Hvisit).
  pose proof (ExprMapper_init_Ok _ _ Hinit0) as (_ & Hn0 & _ & Ht0).
  set (d := Nat.max (visit_depth l) (visit_depth r)).
  set (d1 := py_or (d_start interval) w0). set (d2 := py_or (d_end interval) winf).
  assert (Hroot : root_of phi = ReachOp l interval r).
  { destruct Hshape as [->|[-> ->]]; reflexivity. }
  assert (Hempty : prop_table d m0).
  { unfold prop_table. rewrite Ht0. intros psi loc []. }
  assert (Finst : forall loc, (Z.of_nat loc < n)%Z ->
                              installed_at (states aut) loc l
                              /\ installed_at (states aut) loc r).
  { intros loc Hloc. unfold states. rewrite (cf_transitions Hm).
    destruct Hshape as [->|[-> ->]].
    - eapply (@visit_reach_installed d); try eassumption; try (unfold d; lia);
        try (now rewrite Hn0).
    - destruct fuel' as [|fuel']; [discriminate|].
      rewrite visit_S in Hvisit. apply bind_Ok in Hvisit. destruct Hvisit as (m1 & Er & Hv).
      unfold _expand_add_somewhere in Hv. cbv zeta in Hv.
      apply bind_Ok in Hv. destruct Hv as (m2 & Ereach & Hv). injection Hv as <-.
      rewrite add_expr_alias_const_mapping.
      destruct (@visit_propositional d fuel' r m0 m1 Hpr ltac:(unfold d; lia) Er Hempty)
        as [Hm1 _].
      eapply (@visit_reach_installed d); try eassumption; try (unfold d; lia);
        try (now rewrite (@visit_max_locs _ _ _ _ Er), Hn0). }
  assert (Hin : In (ReachOp l interval r, ego) (states aut)).
  { rewrite <- Hroot. eapply compiled_root_state; [exact Hm | now rewrite Hroot |].
    now apply Hnodes. }
  assert (Hinit : initial_at aut ego = Ok (PVar (_make_q_str (ReachOp l interval r, ego)))).
  { unfold initial_at. rewrite (cf_initial Hm).
    destruct (compiled_root Hm) as (_ & Hch & _).
    rewrite (get_var_chased _ _ _ (Hch ego)), Hroot. now apply (compiled_get_var _ Hm). }
  destruct (@reach_paths_enumerated Laws graph d1 d2 (effective_attr attr) Hok ego Hego)
    as (steps0 & out & paths & Hloop & Hout & _ & Hspec).
  destruct (@final_value _ _ _ _ _ Hm Hnames) as (fm & Hfm & _).
  exists (S (Nat.max steps0 d)). intros fuel rest Hfuel.
  destruct fuel as [|f]; [lia|].
  (* the calls at the nodes of the graph *)
  assert (Hcall : forall psi v,
             (psi = l \/ psi = r) -> In v (graph_nodes graph) ->
             exists t,
               Transitions_call f (aut_transitions aut) graph (psi, v) = Ok t
               /\ poly_support t = []
               /\ forall costs, poly_eval costs t = Ok (prop_value graph v psi)).
  { intros psi v Hpsi Hv. specialize (Finst v (Hnodes v Hv)). destruct Finst as [Fl Fr].
    destruct Hpsi as [-> | ->].
    - apply (@propositional_call _ _ _ _ _ graph v f Hm l Hpl Fl). unfold d in Hfuel. lia.
    - apply (@propositional_call _ _ _ _ _ graph v f Hm r Hpr Fr). unfold d in Hfuel. lia. }
  assert (Hpaths : forall vs, In vs paths -> forall v, In v (ego :: vs) ->
                                                       In v (graph_nodes graph)).
  { intros vs Hvs v Hv.
    eapply (reach_path_nodes Hok); [apply Hspec; exact Hvs | exact Hego | exact Hv]. }
  (* the transition of the state *)
  destruct (@compiled_call _ _ _ _ _ _ _ f graph Hm Hin) as (c & Hc & HT); [discriminate|].
  cbn [canonical] in Hc. injection Hc as <-. cbn [apply_closure] in HT.
  rewrite (cf_dist_attr Hm) in HT. fold (effective_attr attr) in HT. fold d1 d2 in HT.
  unfold check_reach in HT. rewrite (Hloop (S f)) in HT by lia.
  edestruct (@check_reach_loop_total (Transitions_call f (aut_transitions aut)) l r ego graph
                                     out paths PBot Hout)
    as (p0 & Hp0 & Hground); [|reflexivity|].
  { intros vs Hvs v Hv. specialize (Hpaths vs Hvs v Hv). split.
    - destruct (Hcall l v (or_introl eq_refl) Hpaths) as (t & Ht & Hg & _). eauto.
    - destruct (Hcall r v (or_intror eq_refl) Hpaths) as (t & Ht & Hg & _). eauto. }
  rewrite Hp0 in HT.
  destruct (poly_eval_ground _ Hground) as [b Hb]. exists b. split.
  - rewrite check_run_forward, Hinit. cbn [bind foldM].
    rewrite (@next_on_var _ _ _ _ _ Hm Hnames _ _ _ _ Hin HT). cbn [bind].
    rewrite run_on_ground by exact Hground. cbn [bind]. rewrite Hfm. cbn [bind]. apply Hb.
  - destruct (@check_reach_loop_eval graph (effective_attr attr) _ _ _ _ _ fm out paths PBot
                                     p0 b Hout Hp0 (Hb fm)) as (b0 & Hb0 & Hiff).
    cbn [poly_eval] in Hb0. injection Hb0 as <-. rewrite Hiff. split.
    + intros [Hf|(vs & Hvs & (pr & Hpr0 & Hprv) & Hl)]; [discriminate|].
      exists vs. split; [now apply Hspec|]. split.
      * destruct (Hcall r _ (or_intror eq_refl) (Hpaths vs Hvs _ (In_last vs ego ego)))
          as (t & Ht & _ & Hev).
        rewrite Ht in Hpr0. injection Hpr0 as <-. rewrite Hev in Hprv. now injection Hprv.
      * intros v Hv. destruct (Hl v Hv) as (pl & Hpl0 & Hplv).
        destruct (Hcall l v (or_introl eq_refl) (Hpaths vs Hvs v (In_removelast _ _ Hv)))
          as (t & Ht & _ & Hev).
        rewrite Ht in Hpl0. injection Hpl0 as <-. rewrite Hev in Hplv. now injection Hplv.
    + intros (vs & Hreach & Hr & Hl). right. exists vs.
      assert (Hvs : In vs paths) by now apply Hspec.
      split; [exact Hvs|]. split.
      * destruct (Hcall r _ (or_intror eq_refl) (Hpaths vs Hvs _ (In_last vs ego ego)))
          as (t & Ht & _ & Hev).
        exists t. split; [exact Ht|]. now rewrite Hev, Hr.
      * intros v Hv.
        destruct (Hcall l v (or_introl eq_refl) (Hpaths vs Hvs v (In_removelast _ _ Hv)))
          as (t & Ht & _ & Hev).
        exists t. split; [exact Ht|]. now rewrite Hev, (Hl v Hv).
Qed.

End Strel.

(** * A concrete carrier and concrete inputs *)

(** Distances as integers extended with infinity. *)
Inductive dist : Type :=
| Finite (z : Z)
| Infinite.

Definition dist_dec (x y : dist) : {x = y} + {x <> y}.
Proof. decide equality. apply Z.eq_dec. Defined.

Definition dist_add (x y : dist) : dist :=
  match x, y with
  | Finite a, Finite b => Finite (a + b)
  | _, _ => Infinite
  end.

Definition dist_leb (x y : dist) : bool :=
  match x, y with
  | Finite a, Finite b => (a <=? b)%Z
  | _, Infinite => true
  | Infinite, Finite _ => false
  end.

#[export] Instance dist_Distance : Distance dist := {|
  W_eq_dec := dist_dec;
  wadd := dist_add;
  wleb := dist_leb;
  w0 := Finite 0;
  w1 := Finite 1;
  winf := Infinite
|}.

Lemma dist_Laws : DistanceLaws dist_Distance.
Proof.
  split.
  - intros [a|] [b|] [c|]; simpl; intros H1 H2; try reflexivity; try discriminate.
    apply Z.leb_le in H1, H2. apply Z.leb_le. lia.
  - intros [a|] [b|]; simpl; intros H1 H2; try reflexivity; try discriminate.
    apply Z.leb_le in H1, H2. f_equal. lia.
  - intros [a|] [b|]; simpl; intros H; try reflexivity.
    apply Z.leb_le in H. apply Z.leb_le. lia.
Qed.

Section Printer.
Open Scope string_scope.

Definition show_Z (z : Z) : string := DecimalString.NilZero.string_of_int (Z.to_int z).

Definition show_option (A : Type) (f : A -> string) (x : option A) : string :=
  match x with
  | Some a => f a
  | None => "None"
  end.

Definition show_dist (d : dist) : string :=
  match d with
  | Finite z => show_Z z
  | Infinite => "inf"
  end.

Definition show_time (i : option TimeInterval) : string :=
  match i with
  | None => EmptyString
  | Some i => "[" ++ show_option show_Z (t_start i) ++ ", " ++ show_option show_Z (t_end i) ++ "]"
  end.

Definition show_distance (i : @DistanceInterval dist) : string :=
  "[" ++ show_option show_dist (d_start i) ++ ", " ++ show_option show_dist (d_end i) ++ "]".

(** Modelled from the spec: a canonical string key for formulas, one string
    per formula (the printer of [automatix.logic.strel] is not under src/). *)
Fixpoint show (phi : @Expr dist) : string :=
  match phi with
  | Constant value => if value then "true" else "false"
  | Identifier name => name
  | NotOp arg => "~(" ++ show arg ++ ")"
  | AndOp lhs rhs => "(" ++ show lhs ++ " & " ++ show rhs ++ ")"
  | OrOp lhs rhs => "(" ++ show lhs ++ " | " ++ show rhs ++ ")"
  | NextOp steps arg => "X[" ++ show_option show_Z steps ++ "] (" ++ show arg ++ ")"
  | EventuallyOp i arg => "F" ++ show_time i ++ " (" ++ show arg ++ ")"
  | GloballyOp i arg => "G" ++ show_time i ++ " (" ++ show arg ++ ")"
  | UntilOp lhs i rhs => "(" ++ show lhs ++ " U" ++ show_time i ++ " " ++ show rhs ++ ")"
  | SomewhereOp i arg => "somewhere" ++ show_distance i ++ " (" ++ show arg ++ ")"
  | EverywhereOp i arg => "everywhere" ++ show_distance i ++ " (" ++ show arg ++ ")"
  | ReachOp lhs i rhs => "(" ++ show lhs ++ " reach" ++ show_distance i ++ " " ++ show rhs ++ ")"
  | EscapeOp i arg => "escape" ++ show_distance i ++ " (" ++ show arg ++ ")"
  end.

End Printer.

(** Modelled from the spec: an interval is untimed when it starts at [0] (or
    nowhere) and has no end. *)
Definition untimed (i : TimeInterval) : bool :=
  match t_start i, t_end i with
  | None, None => true
  | Some 0%Z, None => true
  | _, _ => false
  end.

(** A labelling function that reads the Boolean labels of a node. *)
Definition node_label (graph : @Alph dist) (loc : Location) (name : string) : bool :=
  match dict_get Nat.eq_dec loc (_node graph) with
  | Some labels =>
    match dict_get string_dec name labels with
    | Some b => b
    | None => false
    end
  | None => false
  end.

Definition p : @Expr dist := Identifier "p".
Definition q : @Expr dist := Identifier "q".

(** The line graph 0 - 1 - 2 with unit weights; [q] holds at node 2. *)
Definition line_graph : @Alph dist := {|
  _node := [(0, [("p"%string, true)]); (1, [("p"%string, true)]); (2, [("q"%string, true)])];
  _adj := [(0, [(1, [("weight"%string, Finite 1)])]);
           (1, [(0, [("weight"%string, Finite 1)]); (2, [("weight"%string, Finite 1)])]);
           (2, [(1, [("weight"%string, Finite 1)])])]
|}.

(** A graph with the single node 0, where [q] holds. *)
Definition single_node : @Alph dist := {|
  _node := [(0, [("q"%string, true)])];
  _adj := [(0, [])]
|}.

Definition zero_to_one : @DistanceInterval dist :=
  {| d_start := Some (Finite 0); d_end := Some (Finite 1) |}.

Definition zero_to_zero : @DistanceInterval dist :=
  {| d_start := Some (Finite 0); d_end := Some (Finite 0) |}.

(** The mapper that [_ExprMapper.__init__] builds for one location. *)
Definition mapper1 : @ExprMapper dist := {|
  max_locs := 1;
  dist_attr := "weight";
  _transitions := {| manager := []; transitions := []; const_mapping := []; aliases := [] |};
  var_node_map := []
|}.

Definition no_automaton : @StrelAutomaton dist := {|
  aut_transitions := {| manager := []; transitions := []; const_mapping := []; aliases := [] |};
  initial_expr := Constant false;
  aut_var_node_map := [];
  _manager := PBot;
  accepting_states := []
|}.

(** The automaton of a formula over one location, compiled with ample fuel. *)
Definition compiled (phi : @Expr dist) : @StrelAutomaton dist :=
  match from_strel_expr show untimed 20 phi 1 None with
  | Ok aut => aut
  | Raise _ => no_automaton
  end.

(** The mapper after the visit of a formula. *)
Definition visited (phi : @Expr dist) : @ExprMapper dist :=
  match visit show 20 phi mapper1 with
  | Ok m => m
  | Raise _ => mapper1
  end.

Definition always_p_and_never_q : @Expr dist := AndOp p (NotOp (EventuallyOp None q)).

Definition next_of_eventually_1_1 : @Expr dist :=
  NextOp (Some 1%Z) (EventuallyOp (Some {| t_start := Some 1%Z; t_end := Some 1%Z |}) q).

(** * The claims on concrete inputs *)

(** On the line graph the enumerator yields, for the range [[0, 2]] from node
    0, the empty path and the paths to nodes 1 and 2; the edges before the
    last carry the cumulative distance. *)
Example reach_paths_line_graph :
  _all_reach_edge_paths 20 line_graph 0 (Finite 0) (Finite 2) "weight"
  = ([[];
      [Some (Some 0, 1, Finite 1)];
      [Some (Some 0, 1, Finite 1); Some (Some 1, 2, Finite 1)]],
     Returned).
Proof. vm_compute. reflexivity. Qed.

Lemma all_reach_edge_paths_spec_witness :
  exists steps0 out paths,
    (forall steps,
        steps0 <= steps ->
        _all_reach_edge_paths steps line_graph 0 (Finite 0) (Finite 2) "weight"
        = (out, Returned))
    /\ map edge_path_nodes out = map Ok paths
    /\ NoDup paths
    /\ (forall vs, In vs paths <-> reach_path line_graph (Finite 0) (Finite 2) "weight" 0 vs)
    /\ (forall vs, In vs paths -> NoDup (0 :: vs))
    /\ (In [] paths <-> Finite 0 = w0).
Proof.
  apply (all_reach_edge_paths_spec (Laws := dist_Laws) line_graph (Finite 0) (Finite 2)
                                   "weight").
  - vm_compute. reflexivity.
  - simpl. auto.
  - reflexivity.
  - reflexivity.
Defined.



(** What [_expand_add_everywhere] leaves behind on the mapper of one
    location, before [visit] raises: the formula is aliased to its rewrite,
    and the rewrite has a state. *)
Example everywhere_expansion_aliases :
  exists m1 m3,
    visit show 19 p mapper1 = Ok m1
    /\ _expand_add_everywhere show (visit show 19) zero_to_one p m1 = Ok m3
    /\ aliases (_transitions m3)
       = [(SomewhereOp zero_to_one (NotOp p), ReachOp (Constant true) zero_to_one (NotOp p));
          (EverywhereOp zero_to_one p, NotOp (SomewhereOp zero_to_one (NotOp p)))]
    /\ In (NotOp (SomewhereOp zero_to_one (NotOp p)), 0)
          (dict_keys (const_mapping (_transitions m3))).
Proof. do 2 eexists. repeat split; vm_compute; [reflexivity .. | tauto]. Qed.

(** C4, the claim as stated fails: when an [EverywhereOp] is met first, the
    [NotImplementedError] of the compilation has no message and names no
    operator. *)
Lemma escape_error_unnamed_counterexample :
  contains_escape (EscapeOp zero_to_one (EverywhereOp zero_to_one p)) = true
  /\ from_strel_expr show untimed 20 (EscapeOp zero_to_one (EverywhereOp zero_to_one p)) 1 None
     = Raise (NotImplementedError None)
  /\ make_bool_automaton show untimed 20 (EscapeOp zero_to_one (EverywhereOp zero_to_one p))
                         1 None
     = Raise (NotImplementedError None).
Proof. repeat split; vm_compute; reflexivity. Qed.

Lemma escape_compilation_raises_witness :
  exists msg,
    from_strel_expr show untimed 20 (AndOp p (EscapeOp zero_to_one q)) 1 None
    = Raise (NotImplementedError msg)
    /\ make_bool_automaton show untimed 20 (AndOp p (EscapeOp zero_to_one q)) 1 None
       = Raise (NotImplementedError msg)
    /\ first_refusal (AndOp p (EscapeOp zero_to_one q)) = Some msg
    /\ (msg = Some escape_message
        \/ (msg = None /\ contains_everywhere (AndOp p (EscapeOp zero_to_one q)) = true))
    /\ (contains_everywhere (AndOp p (EscapeOp zero_to_one q)) = false ->
        msg = Some escape_message).
Proof.
  apply (escape_compilation_raises show untimed (AndOp p (EscapeOp zero_to_one q)) None).
  - reflexivity.
  - simpl. lia.
  - lia.
Defined.

Lemma accepting_states_spec_witness :
  In (NotOp (EventuallyOp None q), 0) (accepting_states (compiled always_p_and_never_q))
  <-> NotOp (EventuallyOp None q) = always_p_and_never_q
      \/ negated_untimed untimed (NotOp (EventuallyOp None q)).
Proof.
  apply (accepting_states_spec show untimed always_p_and_never_q
           (aut_transitions (compiled always_p_and_never_q))
           (aut_var_node_map (compiled always_p_and_never_q))).
  - vm_compute. reflexivity.
  - vm_compute. tauto.
Defined.

Lemma table_keys_agree_witness :
  (forall s : @Q dist,
      In s (dict_keys (transitions (_transitions (visited always_p_and_never_q))))
      <-> In s (dict_keys (const_mapping (_transitions (visited always_p_and_never_q)))))
  /\ set_eqb (dict_keys (transitions (_transitions (visited always_p_and_never_q))))
             (dict_keys (const_mapping (_transitions (visited always_p_and_never_q))))
     = true.
Proof.
  apply (table_keys_agree show 20 always_p_and_never_q 1 None (m0 := mapper1)).
  - reflexivity.
  - vm_compute. reflexivity.
Defined.

(** C7, the claim as stated fails: compiling [NextOp(0, p)] returns an
    automaton. *)
Lemma next_zero_steps_counterexample :
  exists aut, from_strel_expr show untimed 20 (NextOp (Some 0%Z) p) 1 None = Ok aut.
Proof. eexists. vm_compute. reflexivity. Qed.

Lemma next_nonpositive_steps_compiles_witness :
  exists aut,
    from_strel_expr show untimed 20 (NextOp (Some 0%Z) p) 1 None = Ok aut
    /\ (forall loc, (Z.of_nat loc < 1)%Z -> In (NextOp (Some 1%Z) p, loc) (states aut))
    /\ (forall loc, ~ In (NextOp (Some 0%Z) p, loc) (states aut))
    /\ (forall loc, initial_at aut loc = Raise KeyError).
Proof.
  apply (next_nonpositive_steps_compiles show untimed (steps := 0%Z) (arg := p) None).
  - lia.
  - reflexivity.
  - simpl. lia.
  - lia.
Defined.

(** C8, the claim as stated fails: [make_bool_automaton] called without a
    distance attribute compiles a reach transition that reads ["hop"]. *)
Lemma make_bool_automaton_attr_counterexample :
  exists aut,
    make_bool_automaton show untimed 20 (ReachOp p zero_to_one q) 1 None = Ok aut
    /\ dict_get Q_dec (ReachOp p zero_to_one q, 0) (transitions (aut_transitions aut))
       = Some (LamReach p q (Finite 0) (Finite 1) "hop", 0).
Proof. eexists. split; vm_compute; reflexivity. Qed.

Lemma dist_attr_defaults_witness :
  (from_strel_expr show untimed 20 (ReachOp p zero_to_one q) 1 None
   = Ok (compiled (ReachOp p zero_to_one q)) -> "weight"%string = "weight"%string)
  /\ (from_strel_expr show untimed 20 (ReachOp p zero_to_one q) 1 (Some EmptyString)
      = Ok (compiled (ReachOp p zero_to_one q)) -> "weight"%string = "weight"%string)
  /\ (make_bool_automaton show untimed 20 (ReachOp p zero_to_one q) 1 None
      = Ok (compiled (ReachOp p zero_to_one q)) -> "weight"%string = "hop"%string)
  /\ (forall s, s <> EmptyString ->
                (from_strel_expr show untimed 20 (ReachOp p zero_to_one q) 1 (Some s)
                 = Ok (compiled (ReachOp p zero_to_one q)) -> "weight"%string = s)
                /\ (make_bool_automaton show untimed 20 (ReachOp p zero_to_one q) 1 (Some s)
                    = Ok (compiled (ReachOp p zero_to_one q)) -> "weight"%string = s)).
Proof.
  apply (dist_attr_defaults show untimed 20 (ReachOp p zero_to_one q) 1
           (compiled (ReachOp p zero_to_one q)) (ReachOp p zero_to_one q, 0)
           (lhs := p) (rhs := q) (d1 := Finite 0) (d2 := Finite 1) (loc := 0)).
  vm_compute. reflexivity.
Defined.


(** With the interval [[0, 0]] the compiled reach transition holds on the
    line graph at node 0, through the path to node 2 of length 2. *)
Example reach_zero_zero_line_graph :
  check_run show node_label 20 (compiled (ReachOp p zero_to_zero q)) 0 [line_graph] false
  = Ok true
  /\ fst (_all_reach_edge_paths 20 line_graph 0 (Finite 0) (Finite 0) "weight") = [[]].
Proof. split; vm_compute; reflexivity. Qed.

(** C9, on a failing input: after [NotOp(p)] has been visited, its states
    are in the map of the declared variables, and a second visit declares the
    variable of [p] and the variable of [NotOp(p)] again. *)
Theorem second_visit_redeclares :
  exists m1 m2,
    visit show 20 (NotOp p) mapper1 = Ok m1
    /\ dict_keys (expr_var_map m1) = [(p, 0); (NotOp p, 0)]
    /\ manager (_transitions m1) = ["('p', 0)"; "('~(p)', 0)"]%string
    /\ visit show 20 (NotOp p) m1 = Ok m2
    /\ manager (_transitions m2)
       = ["('p', 0)"; "('~(p)', 0)"; "('p', 0)"; "('~(p)', 0)"]%string.
Proof. do 2 eexists. repeat split; vm_compute; reflexivity. Qed.

(** C2, on a failing input: for [NextOp(1, EventuallyOp([1, 1], q))] and a
    trace of one graph, forward evaluation returns a verdict and reverse
    evaluation raises [KeyError]. *)
Theorem check_run_modes_disagree :
  exists aut,
    from_strel_expr show untimed 20 next_of_eventually_1_1 1 None = Ok aut
    /\ check_run show node_label 20 aut 0 [single_node] false = Ok false
    /\ check_run show node_label 20 aut 0 [single_node] true = Raise KeyError.
Proof. eexists. repeat split; vm_compute; reflexivity. Qed.

(** * Further properties on concrete inputs *)

(** The mapper after a formula has been visited twice. *)
Definition visited_again (phi : @Expr dist) : @ExprMapper dist :=
  match visit show 20 phi (visited phi) with
  | Ok m => m
  | Raise _ => mapper1
  end.

Definition globally_p : @Expr dist := GloballyOp None p.

Definition next_2_p : @Expr dist := NextOp (Some 2%Z) p.

Definition zero_to_two : TimeInterval := {| t_start := Some 0%Z; t_end := Some 2%Z |}.

Definition eventually_0_2_q : @Expr dist := EventuallyOp (Some zero_to_two) q.

Definition eventually_q : @Expr dist := EventuallyOp None q.

Definition p_and_not_q : @Expr dist := AndOp p (NotOp q).

Lemma visit_keeps_entries_witness :
  (forall s fn, dict_get Q_dec s (transitions (_transitions (visited (NotOp p)))) = Some fn ->
                dict_get Q_dec s (transitions (_transitions (visited_again (NotOp p))))
                = Some fn)
  /\ (forall s v, dict_get Q_dec s (const_mapping (_transitions (visited (NotOp p)))) = Some v ->
                  dict_get Q_dec s (const_mapping (_transitions (visited_again (NotOp p))))
                  = Some v)
  /\ (forall name s, dict_get string_dec name (var_node_map (visited (NotOp p))) = Some s ->
                     dict_get string_dec name (var_node_map (visited_again (NotOp p)))
                     = Some s)
  /\ (forall psi e, dict_get Expr_dec psi (aliases (_transitions (visited (NotOp p)))) = Some e ->
                    dict_get Expr_dec psi (aliases (_transitions (visited_again (NotOp p))))
                    = Some e)
  /\ exists declared,
      manager (_transitions (visited_again (NotOp p)))
      = manager (_transitions (visited (NotOp p))) ++ declared.
Proof.
  apply (@visit_keeps_entries dist dist_Distance show 20 (NotOp p) (visited (NotOp p))
                              (visited_again (NotOp p))).
  vm_compute. reflexivity.
Defined.

Lemma compiled_aliases_resolve_witness :
  alias_of globally_p = Some (NotOp (EventuallyOp None (NotOp p)))
  /\ dict_get Expr_dec (NotOp (EventuallyOp None (NotOp p)))
              (aliases (aut_transitions (compiled globally_p))) = None
  /\ (forall loc, ~ In (globally_p, loc) (states (compiled globally_p)))
  /\ (forall loc f input,
         Transitions_call node_label f (aut_transitions (compiled globally_p)) input
                          (globally_p, loc)
         = Transitions_call node_label f (aut_transitions (compiled globally_p)) input
                            (NotOp (EventuallyOp None (NotOp p)), loc))
  /\ (forall loc,
         get_var (aut_transitions (compiled globally_p)) (globally_p, loc)
         = get_var (aut_transitions (compiled globally_p))
                   (NotOp (EventuallyOp None (NotOp p)), loc)).
Proof.
  apply (@compiled_aliases_resolve dist dist_Distance show untimed node_label 20 globally_p 1
                                   None (compiled globally_p)).
  - vm_compute. reflexivity.
  - vm_compute. reflexivity.
Defined.

Lemma compiled_states_rows_witness :
  (Z.of_nat 0 < 1)%Z
  /\ forall loc', (Z.of_nat loc' < 1)%Z -> In (p, loc') (states (compiled always_p_and_never_q)).
Proof.
  apply (@compiled_states_rows dist dist_Distance show untimed 20 always_p_and_never_q 1 None
                               (compiled always_p_and_never_q) p 0).
  - vm_compute. reflexivity.
  - vm_compute. tauto.
Defined.

Lemma compiled_names_round_trip_witness :
  dict_get Q_dec (p, 0) (const_mapping (aut_transitions (compiled always_p_and_never_q)))
  = Some (PVar (_make_q_str show (p, 0)))
  /\ exists q0,
      dict_get string_dec (_make_q_str show (p, 0))
               (aut_var_node_map (compiled always_p_and_never_q)) = Some q0
      /\ _make_q_str show q0 = _make_q_str show (p, 0).
Proof.
  apply (@compiled_names_round_trip dist dist_Distance show untimed 20 always_p_and_never_q 1
                                    None (compiled always_p_and_never_q) (p, 0)).
  - vm_compute. reflexivity.
  - vm_compute. tauto.
Defined.

Lemma from_strel_expr_outcome_witness :
  ((1 <= 0)%Z ->
   from_strel_expr show untimed 20 (Constant true) 1 None
   = Raise (AssertionError (Some "STREL graphs should have at least 1 location"%string)))
  /\ ((0 < 1)%Z ->
      forall msg, first_refusal (@Constant dist true) = Some msg ->
                  from_strel_expr show untimed 20 (Constant true) 1 None
                  = Raise (NotImplementedError msg))
  /\ ((0 < 1)%Z -> first_refusal (@Constant dist true) = None ->
      adds_state (@Constant dist true) = false ->
      from_strel_expr show untimed 20 (Constant true) 1 None = Raise StopIteration)
  /\ ((0 < 1)%Z -> first_refusal (@Constant dist true) = None ->
      adds_state (@Constant dist true) = true ->
      exists aut, from_strel_expr show untimed 20 (Constant true) 1 None = Ok aut).
Proof.
  apply (@from_strel_expr_outcome dist dist_Distance show untimed 20 (Constant true) 1 None).
  simpl. lia.
Defined.

Lemma compiled_initial_at_witness :
  initial_at (compiled next_2_p) 0
  = (if gets_state (root_of next_2_p) && (Z.of_nat 0 <? 1)%Z
     then Ok (PVar (_make_q_str show (root_of next_2_p, 0)))
     else Raise KeyError)
  /\ (gets_state (root_of next_2_p) && (Z.of_nat 0 <? 1)%Z = false ->
      forall fuel' trace,
        check_run show node_label fuel' (compiled next_2_p) 0 trace false = Raise KeyError).
Proof.
  apply (@compiled_initial_at dist dist_Distance show untimed node_label 20 next_2_p 1 None
                              (compiled next_2_p) 0).
  vm_compute. reflexivity.
Defined.

Lemma next_countdown_witness :
  exists i,
    Some 2%Z = Some i /\ (1 <= i)%Z
    /\ forall f input,
        Transitions_call node_label (S f) (aut_transitions (compiled next_2_p)) input
                         (NextOp (Some 2%Z) p, 0)
        = if (1 <? i)%Z
          then Ok (PVar (_make_q_str show (NextOp (Some (i - 1)%Z) p, 0)))
          else get_var (aut_transitions (compiled next_2_p)) (p, 0).
Proof.
  apply (@next_countdown dist dist_Distance show untimed node_label 20 next_2_p 1 None
                         (compiled next_2_p) (Some 2%Z) p 0).
  - vm_compute. reflexivity.
  - vm_compute. tauto.
Defined.

Lemma eventually_countdown_steps_witness :
  (1 <= 2)%Z
  /\ forall f input,
      Transitions_call node_label (S f) (aut_transitions (compiled eventually_0_2_q)) input
                       (EventuallyOp (Some {| t_start := Some 0%Z; t_end := Some 2%Z |}) q, 0)
      = (x <- Transitions_call node_label f (aut_transitions (compiled eventually_0_2_q))
                               input (q, 0) ;;
         v <- (if (1 <? 2)%Z
               then Ok (PVar (_make_q_str show
                                (EventuallyOp
                                   (Some {| t_start := Some 0%Z; t_end := Some (2 - 1)%Z |})
                                   q, 0)))
               else get_var (aut_transitions (compiled eventually_0_2_q)) (q, 0)) ;;
         Ok (PAdd x v)).
Proof.
  apply (@eventually_countdown_steps dist dist_Distance show untimed node_label 20
                                     eventually_0_2_q 1 None (compiled eventually_0_2_q)
                                     2%Z q 0).
  - vm_compute. reflexivity.
  - vm_compute. tauto.
Defined.

Lemma compiled_connectives_witness :
  (forall name,
      Transitions_call node_label 6 (aut_transitions (compiled always_p_and_never_q))
                       line_graph (Identifier name, 0)
      = Ok (PConst (node_label line_graph 0 name)))
  /\ (forall a,
         In (NotOp a, 0) (states (compiled always_p_and_never_q)) ->
         Transitions_call node_label 6 (aut_transitions (compiled always_p_and_never_q))
                          line_graph (NotOp a, 0)
         = (x <- Transitions_call node_label 5
                                  (aut_transitions (compiled always_p_and_never_q))
                                  line_graph (a, 0) ;;
            Ok (PNeg x)))
  /\ (forall l r,
         In (AndOp l r, 0) (states (compiled always_p_and_never_q)) ->
         Transitions_call node_label 6 (aut_transitions (compiled always_p_and_never_q))
                          line_graph (AndOp l r, 0)
         = (x <- Transitions_call node_label 5
                                  (aut_transitions (compiled always_p_and_never_q))
                                  line_graph (l, 0) ;;
            y <- Transitions_call node_label 5
                                  (aut_transitions (compiled always_p_and_never_q))
                                  line_graph (r, 0) ;;
            Ok (PMul x y)))
  /\ (forall l r,
         In (OrOp l r, 0) (states (compiled always_p_and_never_q)) ->
         Transitions_call node_label 6 (aut_transitions (compiled always_p_and_never_q))
                          line_graph (OrOp l r, 0)
         = (x <- Transitions_call node_label 5
                                  (aut_transitions (compiled always_p_and_never_q))
                                  line_graph (l, 0) ;;
            y <- Transitions_call node_label 5
                                  (aut_transitions (compiled always_p_and_never_q))
                                  line_graph (r, 0) ;;
            Ok (PAdd x y)))
  /\ (forall a,
         In (EventuallyOp None a, 0) (states (compiled always_p_and_never_q)) ->
         Transitions_call node_label 6 (aut_transitions (compiled always_p_and_never_q))
                          line_graph (EventuallyOp None a, 0)
         = (x <- Transitions_call node_label 5
                                  (aut_transitions (compiled always_p_and_never_q))
                                  line_graph (a, 0) ;;
            Ok (PAdd x (PVar (_make_q_str show (EventuallyOp None a, 0))))))
  /\ (forall l r,
         In (UntilOp l None r, 0) (states (compiled always_p_and_never_q)) ->
         Transitions_call node_label 6 (aut_transitions (compiled always_p_and_never_q))
                          line_graph (UntilOp l None r, 0)
         = (x <- Transitions_call node_label 5
                                  (aut_transitions (compiled always_p_and_never_q))
                                  line_graph (r, 0) ;;
            y <- Transitions_call node_label 5
                                  (aut_transitions (compiled always_p_and_never_q))
                                  line_graph (l, 0) ;;
            Ok (PAdd x (PMul y (PVar (_make_q_str show (UntilOp l None r, 0)))))))
  /\ (forall l interval r,
         In (ReachOp l interval r, 0) (states (compiled always_p_and_never_q)) ->
         Transitions_call node_label 6 (aut_transitions (compiled always_p_and_never_q))
                          line_graph (ReachOp l interval r, 0)
         = check_reach (Transitions_call node_label 5
                                         (aut_transitions (compiled always_p_and_never_q)))
                       6 l r 0 line_graph
                       (py_or (d_start interval) w0) (py_or (d_end interval) winf)
                       "weight").
Proof.
  apply (@compiled_connectives dist dist_Distance show untimed node_label 20
                               always_p_and_never_q 1 None (compiled always_p_and_never_q)
                               0 5 line_graph).
  vm_compute. reflexivity.
Defined.

Lemma reverse_run_agrees_witness :
  check_run show node_label 20 (compiled always_p_and_never_q) 0 [line_graph; single_node] false
  = Ok false.
Proof.
  apply (@reverse_run_agrees dist dist_Distance show untimed node_label 20
                             always_p_and_never_q 1 None (compiled always_p_and_never_q)
                             20 0 [line_graph; single_node] false).
  - vm_compute. reflexivity.
  - vm_compute. reflexivity.
  - vm_compute. reflexivity.
Defined.

Lemma transitions_support_closed_witness :
  exists s,
    In s (states (compiled eventually_q))
    /\ _make_q_str show s = "('F (q)', 0)"%string
    /\ dict_get Q_dec s (const_mapping (aut_transitions (compiled eventually_q)))
       = Some (PVar "('F (q)', 0)").
Proof.
  apply (@transitions_support_closed dist dist_Distance show untimed node_label 20
                                     eventually_q 1 None (compiled eventually_q)
                                     20 single_node (eventually_q, 0)
                                     (PAdd (PConst true) (PVar "('F (q)', 0)"))).
  - vm_compute. reflexivity.
  - vm_compute. reflexivity.
  - vm_compute. tauto.
Defined.

Lemma check_run_empty_trace_witness :
  check_run show node_label 20 (compiled p) 0 [] true = Ok (_is_accepting untimed p (root_of p))
  /\ (alias_of p = None -> _is_accepting untimed p (root_of p) = true).
Proof.
  apply (@check_run_empty_trace dist dist_Distance show untimed node_label 20 p 1 None
                                (compiled p) 20 0 true).
  - vm_compute. reflexivity.
  - vm_compute. reflexivity.
  - reflexivity.
  - lia.
Defined.

Lemma reach_paths_empty_range_witness :
  exists steps0,
    forall steps,
      steps0 <= steps ->
      _all_reach_edge_paths steps line_graph 0 (Finite 2) (Finite 1) "weight" = ([], Returned).
Proof.
  apply (@reach_paths_empty_range dist dist_Distance dist_Laws line_graph (Finite 2) (Finite 1)
                                  "weight").
  - vm_compute. reflexivity.
  - simpl. auto.
  - reflexivity.
Defined.

Lemma check_reach_semantics_witness :
  exists steps0,
    forall steps x b,
      steps0 <= steps ->
      check_reach (Transitions_call node_label 5 (aut_transitions (compiled p_and_not_q)))
                  steps p q 0 line_graph (Finite 0) (Finite 2) "weight" = Ok x ->
      poly_eval [] x = Ok b ->
      (b = true
       <-> exists vs,
          reach_path line_graph (Finite 0) (Finite 2) "weight" 0 vs
          /\ path_holds (Transitions_call node_label 5
                                          (aut_transitions (compiled p_and_not_q)))
                        p q 0 line_graph [] vs).
Proof.
  apply (@check_reach_semantics dist dist_Distance show node_label dist_Laws line_graph
                                (Finite 0) (Finite 2) "weight").
  - vm_compute. reflexivity.
  - simpl. auto.
Defined.

Lemma reach_source_missing_witness :
  _all_reach_edge_paths 3 line_graph 7 (Finite 0) (Finite 2) "weight"
  = ((if wleb (Finite 0) w0 && wleb w0 (Finite 2) then [[]] else []),
     if wleb w0 (Finite 2)
        && negb (match graph_nodes line_graph with [] => true | _ => false end)
     then Raised NetworkXError
     else Returned).
Proof.
  apply (@reach_source_missing dist dist_Distance line_graph (Finite 0) (Finite 2) "weight" 7 0).
  - vm_compute. intuition discriminate.
  - reflexivity.
Defined.

Lemma check_run_propositional_witness :
  check_run show node_label 20 (compiled p_and_not_q) 0 [single_node; line_graph] true
  = Ok (prop_value node_label single_node 0 p_and_not_q).
Proof.
  apply (@check_run_propositional dist dist_Distance show untimed node_label 20 p_and_not_q 1
                                  None (compiled p_and_not_q) 20 0 single_node [line_graph]
                                  true).
  - vm_compute. reflexivity.
  - vm_compute. reflexivity.
  - reflexivity.
  - lia.
  - simpl. lia.
Defined.

Lemma check_run_next_witness :
  check_run show node_label 20 (compiled next_2_p) 0 [single_node; line_graph; line_graph] false
  = Ok match nth_error [single_node; line_graph; line_graph] (Z.to_nat 2) with
       | Some input => prop_value node_label input 0 p
       | None => false
       end.
Proof.
  apply (@check_run_next dist dist_Distance show untimed node_label 20 2%Z p 1%Z None
                         (compiled next_2_p) 20 0 [single_node; line_graph; line_graph]).
  - vm_compute. reflexivity.
  - vm_compute. reflexivity.
  - reflexivity.
  - intros value. discriminate.
  - lia.
  - simpl. lia.
  - simpl. lia.
Defined.

Definition zero_to_two_away : @DistanceInterval dist :=
  {| d_start := Some (Finite 0); d_end := Some (Finite 2) |}.

(** The automaton of [p reach[0, 2] q] over the three locations of the line
    graph. *)
Definition reach_on_line : @StrelAutomaton dist :=
  match from_strel_expr show untimed 20 (ReachOp p zero_to_two_away q) 3 None with
  | Ok aut => aut
  | Raise _ => no_automaton
  end.

Lemma check_run_reach_witness :
  exists fuel1,
    forall fuel rest,
      fuel1 <= fuel ->
      exists b,
        check_run show node_label fuel reach_on_line 0 (line_graph :: rest) false = Ok b
        /\ (b = true
            <-> exists vs,
               reach_path line_graph (Finite 0) (Finite 2) "weight" 0 vs
               /\ prop_value node_label line_graph (last (0 :: vs) 0) q = true
               /\ forall v, In v (removelast (0 :: vs)) ->
                            prop_value node_label line_graph v p = true).
Proof.
  apply (@check_run_reach dist dist_Distance show untimed node_label dist_Laws 20
                          (ReachOp p zero_to_two_away q) p zero_to_two_away q 3%Z None
                          reach_on_line 0 line_graph).
  - vm_compute. reflexivity.
  - left. reflexivity.
  - vm_compute. reflexivity.
  - reflexivity.
  - reflexivity.
  - vm_compute. reflexivity.
  - simpl. auto.
  - simpl. intros v [<-|[<-|[<-|[]]]]; lia.
Defined.
